(** * Word-bomb game server (server.py): model and verified properties

    The server keeps a roster of [Player] objects that are shared between
    the lobby listeners and the turn engine, sends text to the players'
    sockets, reads one answer per turn and keeps score in [lives].

    Modelling decisions, all read off the source:
    - Python [str] values are Rocq [string]s (8-bit characters; the model
      covers ASCII text), Python [int]s are [Z], sets of words are
      [gset string].
    - Player objects live in a heap ([list Player]); a reference to a
      player is its position in that heap.  The list [players] of the
      source holds every object, [active_players] holds some of the same
      objects, so a flag set through one list is seen through the other.
    - The outside world (does a [sendall] succeed, what does [recv]
      return, what does [random] draw) is an oracle [Env]; the [World]
      counts how many calls of each kind were made so far.
    - Effects are threaded by a state monad [M] whose outcomes are normal
      completion, [os._exit(code)] and an uncaught Python exception.
    - The text of a message is kept as a tagged value [Msg] (one
      constructor per f-string of the source), not rendered.
    - A pass of a listener and an iteration of the game loop are taken as
      atomic steps, and the match is run by the main thread alone: the
      listeners belong to the lobby. *)

From Stdlib Require Import ZArith String Ascii List Lia Bool.
From stdpp Require Import gmap strings list.

Local Open Scope string_scope.
Local Open Scope Z_scope.

(** ** Server configuration (lines 7-13) *)

Definition MAX_PLAYERS : nat := 4.
Definition MIN_PLAYERS : nat := 4.
Definition ROUND_TIME : Z := 5.
Definition LIVES_PER_PLAYER : Z := 3.

(** ** Python string operations used by the server *)

Module Py.

(** [str.isspace] on one ASCII character: TAB..CR, FS..US and the blank. *)
Definition isspace (c : ascii) : bool :=
  let n := nat_of_ascii c in
  ((9 <=? n)%nat && (n <=? 13)%nat) || ((28 <=? n)%nat && (n <=? 32)%nat).

Fixpoint lstrip (s : string) : string :=
  match s with
  | EmptyString => EmptyString
  | String c s' => if isspace c then lstrip s' else s
  end.

Definition rstrip (s : string) : string :=
  String.rev (lstrip (String.rev s)).

(** [s.strip()] *)
Definition strip (s : string) : string := rstrip (lstrip s).

Definition lower_char (c : ascii) : ascii :=
  let n := nat_of_ascii c in
  if (65 <=? n)%nat && (n <=? 90)%nat then ascii_of_nat (n + 32) else c.

(** [s.lower()] *)
Fixpoint lower (s : string) : string :=
  match s with
  | EmptyString => EmptyString
  | String c s' => String (lower_char c) (lower s')
  end.

(** [len(s)] *)
Definition len (s : string) : Z := Z.of_nat (String.length s).

(** [sub in s]: [sub] occurs in [s] at some offset. *)
Fixpoint str_in (sub s : string) : bool :=
  String.prefix sub s ||
  match s with
  | EmptyString => false
  | String _ s' => str_in sub s'
  end.

(** A slice bound is clamped the way Python does it: a negative bound
    counts from the end, and everything is cut to [0, len]. *)
Definition clamp (n i : Z) : Z :=
  if i <? 0 then Z.max 0 (i + n) else Z.min i n.

(** [s[start:stop]] *)
Definition slice (s : string) (start stop : Z) : string :=
  let a := clamp (len s) start in
  let b := clamp (len s) stop in
  String.substring (Z.to_nat a) (Z.to_nat (b - a)) s.

End Py.

(** ** Players (lines 56-67) *)

Record Player := mkPlayer {
  conn : nat;            (* the socket, by its number *)
  addr : string;
  name : string;
  active : bool;
  lives : Z;
  disconnected : bool
}.

(** [Player.__init__] *)
Definition new_player (c : nat) (a n : string) : Player :=
  {| conn := c; addr := a; name := n;
     active := true; lives := LIVES_PER_PLAYER; disconnected := false |}.

Definition set_disconnected (b : bool) (p : Player) : Player :=
  {| conn := conn p; addr := addr p; name := name p;
     active := active p; lives := lives p; disconnected := b |}.

Definition set_active (b : bool) (p : Player) : Player :=
  {| conn := conn p; addr := addr p; name := name p;
     active := b; lives := lives p; disconnected := disconnected p |}.

Definition set_lives (n : Z) (p : Player) : Player :=
  {| conn := conn p; addr := addr p; name := name p;
     active := active p; lives := n; disconnected := disconnected p |}.

#[global] Instance Player_inhabited : Inhabited Player :=
  populate (new_player 0 "" "").

(** [p.active and not p.disconnected] *)
Definition connected (p : Player) : bool :=
  active p && negb (disconnected p).

(** [p.active and not p.disconnected and p.lives > 0] *)
Definition in_game (p : Player) : bool :=
  active p && negb (disconnected p) && (0 <? lives p).

(** ** Messages, events, the world *)

(** Why an answer is refused (lines 339-348). *)
Inductive Reason :=
| TIMEOUT
| DoesntContain (sq : string)
| NotAValidWord
| WordAlreadyUsed
| InvalidWord.

Inductive Msg :=
| MStarted (who : string)                       (* line 126 *)
| MDisconnected (who : string)                  (* lines 136, 307 *)
| MGameStarted                                  (* line 217 *)
| MPlayers (names : list string)                (* line 219 *)
| MRules (n : Z)                                (* line 221 *)
| MHowTo (secs : Z)                             (* line 223 *)
| MNoRepeat                                     (* line 225 *)
| MLastWins                                     (* line 227 *)
| MRound (n : nat)                              (* line 264 *)
| MRemaining (who : list (string * Z))          (* line 265 *)
| MTurn (who : string) (n : Z)                  (* line 266 *)
| MYourTurn (who sq : string) (secs : Z)        (* lines 269-270 *)
| MOthersTurn (who sq : string)                 (* line 277 *)
| MTimeoutYou (n : Z)                           (* line 323 *)
| MTimedOut (who : string) (n : Z)              (* line 325 *)
| MCorrect (word : string)                      (* line 331 *)
| MAnswered (who word : string)                 (* line 333 *)
| MWrong (r : Reason) (n : Z)                   (* line 350 *)
| MIsWrong (who : string) (r : Reason) (n : Z)  (* line 352 *)
| MGameOver                                     (* line 365 *)
| MWinner (who : string)                        (* line 366 *)
| MThanks.                                      (* line 367 *)

(** What [conn.recv(1024)] followed by [decode()] can do: hand over text
    (the empty text is end of stream), run into the socket timeout, or
    raise some other exception (a reset connection, bytes that do not
    decode). *)
Inductive RecvResult :=
| RecvData (d : string)
| RecvTimeout
| RecvError.

Inductive Event :=
| ESend (c : nat) (m : Msg) (ok : bool)   (* a [sendall] and whether it went through *)
| EClose (c : nat).                        (* [conn.close()] *)

Record Env := mkEnv {
  env_send : nat -> nat -> bool;         (* k-th sendall, on socket c: succeeds? *)
  env_recv : nat -> nat -> RecvResult;   (* k-th recv, on socket c *)
  env_rand : nat -> nat                  (* k-th draw of the generator *)
}.

Record World := mkWorld {
  heap : list Player;
  game_started : bool;       (* game_started[0] *)
  trace : list Event;        (* newest first *)
  n_send : nat;
  n_recv : nat;
  n_rand : nat
}.

Definition with_heap (h : list Player) (w : World) : World :=
  {| heap := h; game_started := game_started w; trace := trace w;
     n_send := n_send w; n_recv := n_recv w; n_rand := n_rand w |}.

Definition with_started (b : bool) (w : World) : World :=
  {| heap := heap w; game_started := b; trace := trace w;
     n_send := n_send w; n_recv := n_recv w; n_rand := n_rand w |}.

(** The sockets that were closed, and the messages that got through. *)
Definition closed (w : World) : list nat :=
  omap (fun e => match e with EClose c => Some c | _ => None end) (trace w).

Definition delivered (w : World) : list (nat * Msg) :=
  omap (fun e => match e with ESend c m true => Some (c, m) | _ => None end)
       (trace w).

(** ** The monad *)

Inductive Exn :=
| ValueError | IndexError | ZeroDivisionError | UnboundLocalError.

Inductive Result (A : Type) :=
| Ok (a : A) (w : World)
| Exit (code : Z) (w : World)       (* os._exit(code) *)
| Raise (e : Exn) (w : World).      (* uncaught exception *)

Arguments Ok {A} a w.
Arguments Exit {A} code w.
Arguments Raise {A} e w.

Definition M (A : Type) : Type := World -> Result A.

Definition ret {A} (a : A) : M A := fun w => Ok a w.

Definition bind {A B} (m : M A) (k : A -> M B) : M B :=
  fun w =>
    match m w with
    | Ok a w' => k a w'
    | Exit c w' => Exit c w'
    | Raise e w' => Raise e w'
    end.

Notation "'let*' x := m 'in' k" := (bind m (fun x => k))
  (at level 10, x name, m at level 100, k at level 200).
Notation "m ;; k" := (bind m (fun _ => k))
  (at level 100, k at level 200, right associativity).

Definition os_exit {A} (code : Z) : M A := fun w => Exit code w.
Definition raise {A} (e : Exn) : M A := fun w => Raise e w.

Definition final_world {A} (r : Result A) : World :=
  match r with Ok _ w | Exit _ w | Raise _ w => w end.

(** A reference is a position in the heap.  Every reference the server
    holds was obtained from the heap and the heap never shrinks, so the
    default of the total lookup is never read (see [refs_in]). *)
Definition deref (r : nat) : M Player := fun w => Ok (heap w !!! r) w.

Definition update (r : nat) (f : Player -> Player) : M unit :=
  fun w => Ok tt (with_heap (alter f r (heap w)) w).

(** [players]: every object of the heap, in order of admission. *)
Definition players : M (list nat) :=
  fun w => Ok (List.seq 0 (length (heap w))) w.

Section Server.

Variable env : Env.

(** ** Sockets *)

(** [conn.sendall(msg.encode())]: [true] when it goes through, [false]
    when it raises. *)
Definition sendall (c : nat) (m : Msg) : M bool :=
  fun w =>
    let ok := env_send env (n_send w) c in
    Ok ok {| heap := heap w; game_started := game_started w;
             trace := ESend c m ok :: trace w;
             n_send := S (n_send w); n_recv := n_recv w;
             n_rand := n_rand w |}.

(** [conn.recv(1024)] with the decoding of what was read. *)
Definition recv (c : nat) : M RecvResult :=
  fun w =>
    Ok (env_recv env (n_recv w) c)
       {| heap := heap w; game_started := game_started w;
          trace := trace w;
          n_send := n_send w; n_recv := S (n_recv w);
          n_rand := n_rand w |}.

(** [conn.close()] inside [try ... except: pass]. *)
Definition close (c : nat) : M unit :=
  fun w =>
    Ok tt {| heap := heap w; game_started := game_started w;
             trace := EClose c :: trace w;
             n_send := n_send w; n_recv := n_recv w;
             n_rand := n_rand w |}.

(** ** Broadcaster (lines 70-100) *)

(** Lines 83-84 and 99-100: the two assignments of the handler. *)
Definition mark_lost (r : nat) : M unit :=
  update r (set_disconnected true) ;;
  update r (set_active false).

(** [send_to_player(player, msg)] *)
Definition send_to_player (player : nat) (msg : Msg) : M unit :=
  let* p := deref player in
  if active p && negb (disconnected p) then
    let* ok := sendall (conn p) msg in
    if ok then ret tt else mark_lost player
  else ret tt.

(** [broadcast(players, msg)]: the loop over the list it is given. *)
Fixpoint broadcast (ps : list nat) (msg : Msg) : M unit :=
  match ps with
  | [] => ret tt
  | r :: ps' =>
      (let* p := deref r in
       if active p && negb (disconnected p) then
         let* ok := sendall (conn p) msg in
         if ok then ret tt else mark_lost r
       else ret tt) ;;
      broadcast ps' msg
  end.

(** [for p in players: try: p.conn.close() except: pass] *)
Fixpoint close_all (ps : list nat) : M unit :=
  match ps with
  | [] => ret tt
  | r :: ps' => (let* p := deref r in close (conn p)) ;; close_all ps'
  end.

(** ** Random draws *)

Definition draw : M nat :=
  fun w =>
    Ok (env_rand env (n_rand w))
       {| heap := heap w; game_started := game_started w;
          trace := trace w;
          n_send := n_send w; n_recv := n_recv w;
          n_rand := S (n_rand w) |}.

(** [random.choice(xs)]: [IndexError] on the empty list. *)
Definition random_choice (xs : list string) : M string :=
  match xs with
  | [] => raise IndexError
  | x0 :: _ =>
      let* k := draw in
      ret (nth (k mod length xs)%nat xs x0)
  end.

(** [random.randint(a, b)]: a value of [a..b], [ValueError] when the
    range is empty. *)
Definition randint (a b : Z) : M Z :=
  if b <? a then raise ValueError
  else
    let* k := draw in
    ret (a + Z.of_nat k mod (b - a + 1)).

(** ** Word bank (lines 38-54) *)

Definition get_random_sequence (words : gset string) : M string :=
  if bool_decide (words = ∅) then ret "ab"
  else
    let* word := random_choice (elements words) in
    if Py.len word =? 2 then ret word
    else
      let* length := randint 2 3 in
      let* start := randint 0 (Py.len word - length) in
      ret (Py.slice word start (start + length)).

(** ** Lobby listener (lines 103-145) *)

Inductive Listener := Listening | Returned.

Definition get_started : M bool := fun w => Ok (game_started w) w.
Definition set_started : M unit := fun w => Ok tt (with_started true w).

(** [[p for p in xs if c(p)]] on references; [c] also sees the
    reference, for tests such as [p != player]. *)
Definition pick (c : nat -> Player -> bool) (xs : list nat) : M (list nat) :=
  fun w => Ok (List.filter (fun r => c r (heap w !!! r)) xs) w.

(** Lines 132-145: what follows the loop of [handle_player]. *)
Definition fail_fast {A} (player : nat) : M A :=
  update player (set_disconnected true) ;;
  update player (set_active false) ;;
  let* p := deref player in
  let* ps := players in
  broadcast ps (MDisconnected (name p)) ;;
  close_all ps ;;
  os_exit 1.

(** Lines 119-130: one pass of the loop from the moment [recv] comes
    back.  It is stated for the world as it is at that moment, so a
    [game_started] set by another listener during the wait is seen. *)
Definition handle_player_received (player : nat) (r : RecvResult)
  : M Listener :=
  match r with
  | RecvData d =>
      if bool_decide (d = "") then fail_fast player
      else
        let* started := get_started in
        if negb started then
          let msg := Py.lower (Py.strip d) in
          let* ps := players in
          let* conn_ps := pick (fun _ p => connected p) ps in
          if bool_decide (msg = "start")
             && (MIN_PLAYERS <=? length conn_ps)%nat
          then
            set_started ;;
            let* p := deref player in
            broadcast ps (MStarted (name p)) ;;
            ret Returned
          else ret Listening
        else ret Listening
  | RecvTimeout | RecvError => fail_fast player
  end.

(** Lines 113-130: one pass of [while True]. *)
Definition handle_player_pass (player : nat) : M Listener :=
  let* started := get_started in
  if started then ret Returned
  else
    let* p := deref player in
    let* r := recv (conn p) in
    handle_player_received player r.

(** [handle_player]; [None] when the fuel ran out while listening. *)
Fixpoint handle_player (fuel : nat) (player : nat) : M (option unit) :=
  match fuel with
  | O => ret None
  | S fuel' =>
      let* st := handle_player_pass player in
      match st with
      | Returned => ret (Some tt)
      | Listening => handle_player fuel' player
      end
  end.

(** ** The match (lines 203-367) *)

Record Locals := mkLocals {
  active_players : list nat;
  used_words : gset string;
  last_word_valid : bool;
  seq : option string;      (* [None]: not assigned yet *)
  turn : nat;
  round_num : nat
}.

Definition with_last_word_valid (b : bool) (L : Locals) : Locals :=
  {| active_players := active_players L; used_words := used_words L;
     last_word_valid := b; seq := seq L; turn := turn L;
     round_num := round_num L |}.

Definition with_used_words (u : gset string) (L : Locals) : Locals :=
  {| active_players := active_players L; used_words := u;
     last_word_valid := last_word_valid L; seq := seq L; turn := turn L;
     round_num := round_num L |}.

Definition with_seq (s : string) (L : Locals) : Locals :=
  {| active_players := active_players L; used_words := used_words L;
     last_word_valid := last_word_valid L; seq := Some s; turn := turn L;
     round_num := round_num L |}.

Definition with_turn (t : nat) (L : Locals) : Locals :=
  {| active_players := active_players L; used_words := used_words L;
     last_word_valid := last_word_valid L; seq := seq L; turn := t;
     round_num := round_num L |}.

Definition with_round_num (n : nat) (L : Locals) : Locals :=
  {| active_players := active_players L; used_words := used_words L;
     last_word_valid := last_word_valid L; seq := seq L; turn := turn L;
     round_num := n |}.

(** Lines 203-232. *)
Definition start_game : M Locals :=
  let* ps := players in
  let* actives := pick (fun _ p => connected p) ps in
  let* h := (fun w => Ok (heap w) w) in
  let player_names := map (fun r => name (h !!! r)) actives in
  broadcast ps MGameStarted ;;
  broadcast ps (MPlayers player_names) ;;
  broadcast ps (MRules LIVES_PER_PLAYER) ;;
  broadcast ps (MHowTo ROUND_TIME) ;;
  broadcast ps MNoRepeat ;;
  broadcast ps MLastWins ;;
  ret {| active_players := actives; used_words := ∅;
         last_word_valid := true; seq := None;
         turn := 0; round_num := 1 |}.

(** Line 239: the test of the [while]. *)
Definition loop_cond (L : Locals) : M bool :=
  let* alive := pick (fun _ p => in_game p) (active_players L) in
  ret (1 <? length alive)%nat.

(** Line 241. *)
Definition current_player (L : Locals) : M nat :=
  let n := length (active_players L) in
  if (n =? 0)%nat then raise ZeroDivisionError
  else
    match active_players L !! (turn L mod n)%nat with
    | Some r => ret r
    | None => raise IndexError
    end.

(** Lines 252-258. *)
Definition choose_sequence (WORDS : gset string) (L : Locals) : M string :=
  if last_word_valid L then get_random_sequence WORDS
  else
    match seq L with
    | Some s => ret s
    | None => raise UnboundLocalError
    end.

(** [[p for p in active_players if p != player and p.active and not
    p.disconnected]] *)
Definition others (L : Locals) (player : nat) : M (list nat) :=
  pick (fun r p => negb (r =? player)%nat && connected p)
       (active_players L).

(** Lines 260-277. *)
Definition present_turn (L : Locals) (player : nat) (sq : string)
  : M unit :=
  let* alive := pick (fun _ p => in_game p) (active_players L) in
  let* h := (fun w => Ok (heap w) w) in
  let remaining_players :=
    map (fun r => (name (h !!! r), lives (h !!! r))) alive in
  let* ps := players in
  broadcast ps (MRound (round_num L)) ;;
  broadcast ps (MRemaining remaining_players) ;;
  let* p := deref player in
  broadcast ps (MTurn (name p) (lives p)) ;;
  send_to_player player (MYourTurn (name p) sq ROUND_TIME) ;;
  let* os := others L player in
  broadcast os (MOthersTurn (name p) sq).

(** Lines 282-301: the answer, [""] for no answer. *)
Definition read_response (player : nat) : M string :=
  let* p := deref player in
  let* r := recv (conn p) in
  ret (match r with
       | RecvData d =>
           if bool_decide (d = "") then "" else Py.lower (Py.strip d)
       | RecvTimeout => ""
       | RecvError => ""
       end).

(** Lines 305-314. *)
Definition check_disconnected (player : nat) : M unit :=
  let* p := deref player in
  if disconnected p then
    let* ps := players in
    broadcast ps (MDisconnected (name p)) ;;
    close_all ps ;;
    os_exit 1
  else ret tt.

Inductive Verdict := Timeout | Accepted | Rejected (r : Reason).

(** [player.lives -= 1] *)
Definition lose_life (player : nat) : M unit :=
  let* p := deref player in
  update player (set_lives (lives p - 1)).

(** Lines 339-348. *)
Definition reason_for (WORDS used : gset string) (sq word : string)
  : Reason :=
  if bool_decide (word = "") then TIMEOUT
  else if negb (Py.str_in sq word) then DoesntContain sq
  else if negb (bool_decide (word ∈ WORDS)) then NotAValidWord
  else if bool_decide (word ∈ used) then WordAlreadyUsed
  else InvalidWord.

(** Lines 316-353.  The verdict that is returned names the branch of
    the [if]/[elif]/[else] that ran. *)
Definition process_response (WORDS : gset string) (L : Locals)
    (player : nat) (sq word : string) : M (Verdict * Locals) :=
  if bool_decide (word = "") then
    lose_life player ;;
    let* p := deref player in
    send_to_player player (MTimeoutYou (lives p)) ;;
    let* os := others L player in
    broadcast os (MTimedOut (name p) (lives p)) ;;
    ret (Timeout, with_last_word_valid false L)
  else if Py.str_in sq word
          && bool_decide (word ∈ WORDS)
          && negb (bool_decide (word ∈ used_words L)) then
    let L' := with_used_words ({[ word ]} ∪ used_words L) L in
    let* p := deref player in
    send_to_player player (MCorrect word) ;;
    let* os := others L' player in
    broadcast os (MAnswered (name p) word) ;;
    ret (Accepted, with_last_word_valid true L')
  else
    lose_life player ;;
    let reason := reason_for WORDS (used_words L) sq word in
    let* p := deref player in
    send_to_player player (MWrong reason (lives p)) ;;
    let* os := others L player in
    broadcast os (MIsWrong (name p) reason (lives p)) ;;
    ret (Rejected reason, with_last_word_valid false L).

(** Lines 356-358. *)
Definition advance (L : Locals) : Locals :=
  let L' := with_turn (S (turn L)) L in
  if (turn L' mod length (active_players L') =? 0)%nat
  then with_round_num (S (round_num L')) L'
  else L'.

(** What an iteration of the loop did. *)
Inductive Step :=
| Skipped (who : nat)
| Resolved (who : nat) (sq word : string) (v : Verdict).

(** Lines 240-361: the body of the [while]. *)
Definition iteration (WORDS : gset string) (L : Locals)
  : M (Step * Locals) :=
  let* player := current_player L in
  let* p := deref player in
  if (lives p <=? 0) || negb (active p) || disconnected p then
    ret (Skipped player, with_turn (S (turn L)) L)
  else
    let* sq := choose_sequence WORDS L in
    let L1 := with_seq sq L in
    present_turn L1 player sq ;;
    let* word := read_response player in
    check_disconnected player ;;
    let* vl := process_response WORDS L1 player sq word in
    ret (Resolved player sq word (fst vl), advance (snd vl)).

(** Lines 239-361; [None] when the fuel ran out inside the loop. *)
Fixpoint game_loop (WORDS : gset string) (fuel : nat) (L : Locals)
  : M (option Locals) :=
  let* go := loop_cond L in
  if negb go then ret (Some L)
  else
    match fuel with
    | O => ret None
    | S fuel' =>
        let* sl := iteration WORDS L in
        game_loop WORDS fuel' (snd sl)
    end.

(** Lines 364-367: the winner is the first player still in the game. *)
Definition game_over (L : Locals) : M nat :=
  let* alive := pick (fun _ p => in_game p) (active_players L) in
  match alive with
  | [] => raise IndexError
  | winner :: _ =>
      let* ps := players in
      broadcast ps MGameOver ;;
      let* p := deref winner in
      broadcast ps (MWinner (name p)) ;;
      broadcast ps MThanks ;;
      ret winner
  end.

(** From the start of the match to the announcement of the winner. *)
Definition play (WORDS : gset string) (fuel : nat) : M (option nat) :=
  let* L := start_game in
  let* r := game_loop WORDS fuel L in
  match r with
  | None => ret None
  | Some L' => let* winner := game_over L' in ret (Some winner)
  end.

End Server.

(** ** Dictionary (lines 16-35, 154-157) *)

(** What [open] finds: the lines of the file, or no file. *)
Inductive OpenResult :=
| Opened (lines : list string)
| FileNotFound.

Record Files := mkFiles {
  cwd_words : OpenResult;      (* "words.txt" in the current directory *)
  script_words : OpenResult    (* "words.txt" next to the script *)
}.

Definition load_words (fs : Files) : gset string :=
  match cwd_words fs with
  | Opened f =>
      list_to_set
        (map (fun word => Py.lower (Py.strip word))
             (List.filter (fun word => 1 <? Py.len (Py.strip word)) f))
  | FileNotFound =>
      match script_words fs with
      | Opened f =>
          list_to_set (map (fun word => Py.lower (Py.strip word)) f)
      | FileNotFound => ∅
      end
  end.

(** Lines 154-157: [main] gives up before it opens the server socket
    when no word was loaded. *)
Inductive Startup :=
| GaveUp
| Serving (WORDS : gset string).

Definition startup (fs : Files) : Startup :=
  let WORDS := load_words fs in
  if bool_decide (WORDS = ∅) then GaveUp else Serving WORDS.

(** ** Sample inputs *)

(** A quiet environment: every send goes through, nobody answers, every
    draw is 0. *)
Definition env_zero : Env :=
  mkEnv (fun _ _ => true) (fun _ _ => RecvTimeout) (fun _ => 0%nat).

(** The world at the start of a match on the heap [h]. *)
Definition world_of (h : list Player) : World :=
  mkWorld h true [] 0 0 0.

(** A line of a file ends with the newline character. *)
Definition line (s : string) : string :=
  (s ++ String (ascii_of_nat 10) EmptyString)%string.

(** No [words.txt] in the current directory; the one next to the script
    holds the lines "a" and "cat". *)
Definition files_fallback : Files :=
  mkFiles FileNotFound (Opened [line "a"; line "cat"]).

(** The same file, found in the current directory. *)
Definition files_cwd : Files :=
  mkFiles (Opened [line "a"; line "cat"]) FileNotFound.

(** ** Vocabulary of the statements *)

(** A player after lines 83-84 (or 99-100, or 133-134). *)
Definition lost (p : Player) : Player :=
  set_active false (set_disconnected true p).

(** The invariant of the data model on one player. *)
Definition flags_ok (p : Player) : Prop :=
  disconnected p = true -> active p = false.

(** Every reference of [xs] points into the heap. *)
Definition refs_in (xs : list nat) (w : World) : Prop :=
  forall r, r ∈ xs -> (r < length (heap w))%nat.

(** What sending may do to the world: it appends [ESend] events, and a
    player is either untouched or marked as lost; nothing else moves. *)
Record frame (w w' : World) : Prop := mkFrame {
  frame_length : length (heap w') = length (heap w);
  frame_heap : forall i p, heap w !! i = Some p ->
               heap w' !! i = Some p \/ heap w' !! i = Some (lost p);
  frame_started : game_started w' = game_started w;
  frame_recv : n_recv w' = n_recv w;
  frame_rand : n_rand w' = n_rand w;
  frame_trace : exists evs, trace w' = (evs ++ trace w)%list /\
                forall e, e ∈ evs -> exists c m ok, e = ESend c m ok
}.

(** [m] keeps the property [I] of the world, however it ends. *)
Definition keeps (I : World -> Prop) {A} (m : M A) : Prop :=
  forall w, I w -> I (final_world (m w)).

(** What one call of the broadcaster on the targets [xs] does: it ends
    normally in [w'], every event it adds is a [sendall] of [msg] on the
    socket of a target that was active and not disconnected, and a player
    is either untouched or was such a target, saw its [sendall] fail and is
    now marked as lost.  When no two players share a socket, a player on
    whose socket a [sendall] failed is marked as lost. *)
Definition delivery (msg : Msg) (xs : list nat) (w w' : World) : Prop :=
  length (heap w') = length (heap w) /\
  exists evs,
    trace w' = (evs ++ trace w)%list /\
    (forall e, e ∈ evs ->
       exists r p ok, r ∈ xs /\ heap w !! r = Some p /\
                      connected p = true /\ e = ESend (conn p) msg ok) /\
    (forall i p, heap w !! i = Some p ->
       heap w' !! i = Some p \/
       (i ∈ xs /\ connected p = true /\
        ESend (conn p) msg false ∈ evs /\
        heap w' !! i = Some (lost p))) /\
    (NoDup (conn <$> heap w) ->
     forall i p, heap w !! i = Some p ->
       ESend (conn p) msg false ∈ evs ->
       heap w' !! i = Some (lost p)).

(** The invariant of the data model on the whole roster. *)
Definition roster_ok (w : World) : Prop := Forall flags_ok (heap w).

(** The verdict on an answer, by the tests of lines 319, 327 and 335. *)
Definition judge (WORDS used : gset string) (sq word : string) : Verdict :=
  if bool_decide (word = "") then Timeout
  else if Py.str_in sq word
          && bool_decide (word ∈ WORDS)
          && negb (bool_decide (word ∈ used))
  then Accepted
  else Rejected (reason_for WORDS used sq word).

Definition accepted (v : Verdict) : bool :=
  match v with Accepted => true | _ => false end.

(** The states of the game loop, taken at the test of the [while]: the
    one [start_game] hands over, and those an iteration leads to. *)
Inductive reachable (env : Env) (WORDS : gset string) (w0 : World)
  : Locals -> World -> Prop :=
| reach_start L w :
    start_game env w0 = Ok L w ->
    reachable env WORDS w0 L w
| reach_iteration L w s L' w' :
    reachable env WORDS w0 L w ->
    loop_cond L w = Ok true w ->
    iteration env WORDS L w = Ok (s, L') w' ->
    reachable env WORDS w0 L' w'.

(** Every socket of the roster of [w] was closed by the time of [w']. *)
Definition all_closed (w w' : World) : Prop :=
  forall i p, heap w !! i = Some p -> conn p ∈ closed w'.

(** Nobody's lives differ between [w] and [w']. *)
Definition same_lives (w w' : World) : Prop :=
  length (heap w') = length (heap w) /\
  forall i p, heap w !! i = Some p ->
    exists p', heap w' !! i = Some p' /\ lives p' = lives p.

(** The world once the acting player has lost a life. *)
Definition after_loss (who : nat) (w : World) : World :=
  with_heap (alter (set_lives (lives (heap w !!! who) - 1)) who (heap w)) w.

(** Drawing from the generator moves nothing but the count of draws. *)
Definition only_draws (w w' : World) : Prop :=
  heap w' = heap w /\ game_started w' = game_started w /\
  trace w' = trace w /\ n_send w' = n_send w /\ n_recv w' = n_recv w /\
  (n_rand w <= n_rand w')%nat.

(** Two fresh players, on sockets 0 and 1. *)
Definition duo : list Player :=
  [new_player 0 "" "ann"; new_player 1 "" "bob"].

(** Every send goes through, every answer is "cat", every draw is 0. *)
Definition env_cat : Env :=
  mkEnv (fun _ _ => true) (fun _ _ => RecvData "cat") (fun _ => 0%nat).

(** As [env_cat], but nothing can be sent on socket 1. *)
Definition env_drop1 : Env :=
  mkEnv (fun _ c => negb (c =? 1)%nat) (fun _ _ => RecvData "cat")
        (fun _ => 0%nat).

(** The Locals at the first test of the [while], two players. *)
Definition locals_duo : Locals :=
  {| active_players := [0%nat; 1%nat]; used_words := ∅;
     last_word_valid := true; seq := None; turn := 0; round_num := 1 |}.

(** The world once one more [recv] has returned. *)
Definition received (w : World) : World :=
  {| heap := heap w; game_started := game_started w; trace := trace w;
     n_send := n_send w; n_recv := S (n_recv w); n_rand := n_rand w |}.

(** The Locals after the branch of [process_response] that the verdict
    names. *)
Definition verdict_locals (v : Verdict) (word : string) (L : Locals)
  : Locals :=
  if accepted v
  then with_last_word_valid true
         (with_used_words ({[ word ]} ∪ used_words L) L)
  else with_last_word_valid false L.

(** Four fresh players, on sockets 0 to 3. *)
Definition quartet : list Player :=
  [new_player 0 "" "ann"; new_player 1 "" "bob";
   new_player 2 "" "cy"; new_player 3 "" "dee"].

(** Nobody ever answers, and from the 225th [sendall] on nothing can be
    sent on socket 3 any more: its peer went away during the eleventh
    turn. *)
Definition env_last_turn : Env :=
  mkEnv (fun k c => negb ((c =? 3)%nat && (224 <=? k)%nat))
        (fun _ _ => RecvTimeout) (fun _ => 0%nat).

(** Every send goes through, every [recv] raises. *)
Definition env_broken : Env :=
  mkEnv (fun _ _ => true) (fun _ _ => RecvError) (fun _ => 0%nat).

(** As [env_cat], but nothing can be sent on socket 0. *)
Definition env_drop0 : Env :=
  mkEnv (fun _ c => negb (c =? 0)%nat) (fun _ _ => RecvData "cat")
        (fun _ => 0%nat).

(** The world [start_game] hands to the loop, for [duo] in the quiet
    environment. *)
Definition start_duo_world : World := Eval vm_compute in
  final_world (start_game env_zero (world_of duo)).

(** ** Vocabulary of the further properties *)

(** [q] is a later state of the player [p]: the same socket, address and
    name; a flag that said "gone" still says so; no more lives than
    before. *)
Definition later (p q : Player) : Prop :=
  conn q = conn p /\ addr q = addr p /\ name q = name p /\
  (disconnected p = true -> disconnected q = true) /\
  (active p = false -> active q = false) /\
  lives q <= lives p.

(** The roster of [w] is a later state of the roster [h], player by
    player. *)
Definition roster_later (h : list Player) (w : World) : Prop :=
  Forall2 later h (heap w).

(** A stretch of the game loop: the iterations made from one test of the
    [while] to a later one, with what each of them did. *)
Inductive run (env : Env) (WORDS : gset string)
  : Locals -> World -> list Step -> Locals -> World -> Prop :=
| run_nil L w : run env WORDS L w [] L w
| run_cons L w s L1 w1 ss L2 w2 :
    loop_cond L w = Ok true w ->
    iteration env WORDS L w = Ok (s, L1) w1 ->
    run env WORDS L1 w1 ss L2 w2 ->
    run env WORDS L w (s :: ss) L2 w2.

(** The answers accepted in a stretch, oldest first. *)
Definition accepted_words (ss : list Step) : list string :=
  omap (fun s => match s with
                 | Resolved _ _ word Accepted => Some word
                 | _ => None
                 end) ss.

(** The turns of a stretch that cost a life: timeouts and refusals. *)
Definition failed_turns (ss : list Step) : list Step :=
  List.filter (fun s => match s with
                        | Resolved _ _ _ v => negb (accepted v)
                        | Skipped _ => false
                        end) ss.

(** The lives of the whole roster, added up. *)
Definition total_lives (h : list Player) : Z :=
  foldr (fun p n => lives p + n) 0 h.

(** The lives that can still be lost, counted over the roster. *)
Definition lives_left (h : list Player) : nat :=
  foldr (fun p n => (Z.to_nat (lives p) + n)%nat) 0%nat h.

(** What a match can still use up: lives to lose and words to accept. *)
Definition stock (WORDS : gset string) (L : Locals) (w : World) : nat :=
  (lives_left (heap w) + size (WORDS ∖ used_words L))%nat.

(** A number of iterations the game loop cannot exceed from a state. *)
Definition enough_fuel (WORDS : gset string) (L : Locals) (w : World) : nat :=
  (S (stock WORDS L w) * length (active_players L))%nat.

(** A [words.txt] in the current directory with nothing usable in it (a
    one-letter line and a blank line), and a good one next to the script. *)
Definition files_shadow : Files :=
  mkFiles (Opened [line "a"; line ""]) (Opened [line "cat"]).

(** Every send goes through, every answer is two blanks, every draw is
    0. *)
Definition env_blank : Env :=
  mkEnv (fun _ _ => true) (fun _ _ => RecvData "  ") (fun _ => 0%nat).

(** [m] ends normally or leaves through [os._exit], whatever the world:
    no exception escapes it. *)
Definition never_raises {A} (m : M A) : Prop :=
  forall w e w', m w <> Raise e w'.

(** A value of [seq] is there to be used again whenever the last answer
    was not accepted. *)
Definition seq_bound (L : Locals) : Prop :=
  last_word_valid L = false -> seq L <> None.

(** [m] keeps the property [I] of the world however it ends, and a value
    it returns satisfies [Q]. *)
Definition ensures (I : World -> Prop) {A} (m : M A) (Q : A -> Prop) : Prop :=
  forall w, I w ->
    I (final_world (m w)) /\ forall a w', m w = Ok a w' -> Q a.

(** Nobody is listening on socket [c]: the roster has [n] players, every
    player on that socket is inactive or disconnected, and nothing was
    sent on it since the trace was [tr0]. *)
Definition quiet (c n : nat) (tr0 : list Event) (w : World) : Prop :=
  length (heap w) = n /\
  (forall i p, heap w !! i = Some p -> conn p = c -> connected p = false) /\
  exists evs, trace w = (evs ++ tr0)%list /\
              forall m ok, ESend c m ok ∉ evs.

(** References into a roster of [n] players. *)
Definition refs_below (n : nat) (xs : list nat) : Prop :=
  Forall (fun r => (r < n)%nat) xs.

(** Three players, the third of which is already marked as lost. *)
Definition trio_one_gone : list Player :=
  [new_player 0 "" "ann"; new_player 1 "" "bob";
   lost (new_player 2 "" "cy")].

(** The passes over the rotation that a stretch of the loop completes
    with a resolved turn: an iteration counts when it is not a skip and
    brings the turn counter, [t] before the stretch, to a multiple of the
    [n] players of the rotation. *)
Fixpoint rounds_completed (n t : nat) (ss : list Step) : nat :=
  match ss with
  | [] => 0
  | s :: ss' =>
      ((match s with
        | Resolved _ _ _ _ => if (S t mod n =? 0)%nat then 1 else 0
        | Skipped _ => 0
        end) + rounds_completed n (S t) ss')%nat
  end.

(** The Locals at the first test of the [while] for a rotation of three
    players. *)
Definition locals_trio : Locals :=
  {| active_players := [0%nat; 1%nat; 2%nat]; used_words := ∅;
     last_word_valid := true; seq := None; turn := 0; round_num := 1 |}.

(** * Properties *)

(** ** Strings *)

Lemma prefix_app (sub s : string) :
  String.prefix sub s = true <-> exists post, s = (sub ++ post)%string.
Proof.
  revert s; induction sub as [|c sub IH]; intros s.
  - split; [intros _; by exists s | by destruct s].
  - destruct s as [|d s]; simpl.
    + split; [discriminate | intros [post H]; discriminate].
    + destruct (ascii_dec c d) as [->|Hne].
      * rewrite IH. split; intros [post H].
        -- exists post. by rewrite H.
        -- exists post. by injection H.
      * split; [done | intros [post H]; injection H; congruence].
Qed.

Lemma str_in_infix (sub s : string) :
  Py.str_in sub s = true <->
  exists pre post, s = (pre ++ sub ++ post)%string.
Proof.
  induction s as [|d s IH]; cbn [Py.str_in].
  - rewrite orb_false_r, prefix_app. split.
    + intros [post H]. by exists ""%string, post.
    + intros (pre & post & H). destruct pre; [by exists post|discriminate].
  - rewrite orb_true_iff, prefix_app, IH. split.
    + intros [[post H]|(pre & post & H)].
      * by exists ""%string, post.
      * exists (String d pre), post. rewrite H at 1. reflexivity.
    + intros (pre & post & H). destruct pre as [|e pre]; simpl in H.
      * left. by exists post.
      * right. exists pre, post. by injection H.
Qed.

Lemma substring_head (n : nat) (s : string) :
  (n <= String.length s)%nat ->
  String.length (String.substring 0 n s) = n /\
  exists post, s = (String.substring 0 n s ++ post)%string.
Proof.
  revert n; induction s as [|c s IH]; intros [|n] H; simpl in *;
    try lia.
  - split; [done | by exists ""%string].
  - split; [done | by exists (String c s)].
  - destruct (IH n ltac:(lia)) as [Hl [post Hs]].
    split; [by rewrite Hl | exists post; rewrite Hs at 1; reflexivity].
Qed.

Lemma substring_infix (a n : nat) (s : string) :
  (a + n <= String.length s)%nat ->
  String.length (String.substring a n s) = n /\
  exists pre post, s = (pre ++ String.substring a n s ++ post)%string.
Proof.
  revert s; induction a as [|a IH]; intros s H.
  - destruct (substring_head n s H) as [Hl [post Hs]].
    split; [done | by exists ""%string, post].
  - destruct s as [|c s]; simpl in H; [lia|].
    destruct (IH s ltac:(lia)) as [Hl (pre & post & Hs)].
    simpl. split; [done|].
    exists (String c pre), post. rewrite Hs at 1. reflexivity.
Qed.

Lemma lower_length (s : string) :
  String.length (Py.lower s) = String.length s.
Proof. induction s; simpl; congruence. Qed.

(** ** Word bank *)

Section WordBank.

Variable env : Env.

Lemma random_choice_ok (xs : list string) (w : World) :
  xs <> [] ->
  exists x w', random_choice env xs w = Ok x w' /\ x ∈ xs.
Proof.
  destruct xs as [|x0 xs]; [done|]. intros _.
  unfold random_choice, bind, draw, ret. eexists _, _. split; [reflexivity|].
  apply list_elem_of_In, nth_In, Nat.mod_upper_bound. simpl. lia.
Qed.

Lemma randint_ok (a b : Z) (w : World) :
  a <= b ->
  exists v w', randint env a b w = Ok v w' /\ a <= v <= b.
Proof.
  intros Hab. unfold randint.
  destruct (Z.ltb_spec b a) as [?|_]; [lia|].
  unfold bind, draw, ret. eexists _, _. split; [reflexivity|].
  pose proof (Z.mod_pos_bound (Z.of_nat (env_rand env (n_rand w)))
                (b - a + 1) ltac:(lia)). lia.
Qed.

Lemma randint_empty (a b : Z) (w : World) :
  b < a -> randint env a b w = Raise ValueError w.
Proof.
  intros Hab. unfold randint.
  by destruct (Z.ltb_spec b a) as [_|?]; [|lia].
Qed.

Lemma slice_inside (s : string) (start n : Z) :
  0 <= start -> 0 <= n -> start + n <= Py.len s ->
  Py.len (Py.slice s start (start + n)) = n /\
  Py.str_in (Py.slice s start (start + n)) s = true.
Proof.
  intros Hs Hn Hle. unfold Py.slice, Py.clamp.
  destruct (Z.ltb_spec start 0) as [?|_]; [lia|].
  destruct (Z.ltb_spec (start + n) 0) as [?|_]; [lia|].
  rewrite !Z.min_l by lia.
  replace (start + n - start) with n by lia.
  unfold Py.len in *.
  destruct (substring_infix (Z.to_nat start) (Z.to_nat n) s ltac:(lia))
    as [Hl Hin].
  split; [rewrite Hl; lia | by apply str_in_infix].
Qed.

(** The run of [get_random_sequence] on a bank of words of two letters or
    more, draw by draw. *)
Lemma get_random_sequence_run (words : gset string) (w : World) :
  words <> ∅ ->
  (forall x, x ∈ words -> 2 <= Py.len x) ->
  exists word w1,
    random_choice env (elements words) w = Ok word w1 /\
    word ∈ words /\
    ((Py.len word = 2 /\ get_random_sequence env words w = Ok word w1) \/
     (Py.len word <> 2 /\
      exists length w2 start w3,
        randint env 2 3 w1 = Ok length w2 /\
        2 <= length <= 3 /\
        length <= Py.len word /\
        randint env 0 (Py.len word - length) w2 = Ok start w3 /\
        0 <= start <= Py.len word - length /\
        get_random_sequence env words w
        = Ok (Py.slice word start (start + length)) w3)).
Proof.
  intros Hne Hlen.
  assert (Hel : elements words <> []).
  { intros H. by apply elements_empty_inv, leibniz_equiv in H. }
  destruct (random_choice_ok (elements words) w Hel) as (word & w1 & Hc & Hin).
  apply elem_of_elements in Hin.
  exists word, w1. split; [done|]. split; [done|].
  assert (Hg : get_random_sequence env words w
               = (if Py.len word =? 2 then ret word
                  else
                    let* length := randint env 2 3 in
                    let* start := randint env 0 (Py.len word - length) in
                    ret (Py.slice word start (start + length))) w1).
  { unfold get_random_sequence.
    rewrite bool_decide_eq_false_2 by done.
    unfold bind at 1. by rewrite Hc. }
  destruct (Z.eqb_spec (Py.len word) 2) as [H2|H2]; [by left|right].
  split; [done|].
  destruct (randint_ok 2 3 w1 ltac:(lia)) as (length & w2 & Hr1 & Hb1).
  pose proof (Hlen word Hin).
  destruct (randint_ok 0 (Py.len word - length) w2 ltac:(lia))
    as (start & w3 & Hr2 & Hb2).
  exists length, w2, start, w3.
  split; [done|]. split; [done|]. split; [lia|].
  split; [done|]. split; [done|].
  rewrite Hg. unfold bind. by rewrite Hr1, Hr2.
Qed.

End WordBank.

(** C10: on a non-empty bank whose words all have two letters or more,
    [get_random_sequence] never raises: the length it draws is at most the
    length of the word it chose, so the upper bound [len(word) - length]
    of the second [randint] is not negative, both draws succeed and a
    string is returned. *)
Theorem C10_get_random_sequence_total
    (env : Env) (words : gset string) (w : World) :
  words <> ∅ ->
  (forall x, x ∈ words -> 2 <= Py.len x) ->
  (exists sq w', get_random_sequence env words w = Ok sq w') /\
  (forall word w1 length w2,
      random_choice env (elements words) w = Ok word w1 ->
      Py.len word <> 2 ->
      randint env 2 3 w1 = Ok length w2 ->
      length <= Py.len word /\ 0 <= Py.len word - length /\
      exists start w3,
        randint env 0 (Py.len word - length) w2 = Ok start w3).
Proof.
  intros Hne Hlen.
  destruct (get_random_sequence_run env words w Hne Hlen)
    as (word & w1 & Hc & Hin & [[H2 Hg]|[H2 Hrest]]).
  - split; [by eauto|]. intros word' w1' length w2 Hc' Hn2.
    rewrite Hc in Hc'. injection Hc' as <- <-. done.
  - destruct Hrest as (length & w2 & start & w3 & Hr1 & Hb1 & Hle & Hr2 & Hb2 & Hg).
    split; [by eauto|]. intros word' w1' length' w2' Hc' _ Hr1'.
    rewrite Hc in Hc'. injection Hc' as <- <-.
    rewrite Hr1 in Hr1'. injection Hr1' as <- <-.
    split; [done|]. split; [lia|]. eauto.
Qed.

Lemma C10_witness :
  exists sq w', get_random_sequence env_zero {[ "cat" ]} (world_of []) = Ok sq w'.
Proof.
  refine (proj1 (C10_get_random_sequence_total env_zero {[ "cat" ]} (world_of []) _ _)).
  - apply (bool_decide_eq_false_1 _). reflexivity.
  - intros x Hx. apply elem_of_singleton in Hx as ->. vm_compute. discriminate.
Defined.

(** C4, as amended: on a non-empty bank whose words all have two letters
    or more, [get_random_sequence] returns a string of length 2 or 3 that
    occurs inside a word of the bank, namely the word it chose; when that
    word has exactly two letters it is returned whole. *)
Theorem C4_sequence_from_bank
    (env : Env) (words : gset string) (w : World) :
  words <> ∅ ->
  (forall x, x ∈ words -> 2 <= Py.len x) ->
  exists word w1 sq w',
    random_choice env (elements words) w = Ok word w1 /\
    word ∈ words /\
    get_random_sequence env words w = Ok sq w' /\
    (Py.len sq = 2 \/ Py.len sq = 3) /\
    Py.str_in sq word = true /\
    (Py.len word = 2 -> sq = word).
Proof.
  intros Hne Hlen.
  destruct (get_random_sequence_run env words w Hne Hlen)
    as (word & w1 & Hc & Hin & [[H2 Hg]|[H2 Hrest]]).
  - exists word, w1, word, w1. repeat split; try done; [by left|].
    apply str_in_infix. exists "", "".
    clear. induction word as [|c word IH]; [done|].
    change (String c word = String c ("" ++ word ++ ""))%string.
    by rewrite <- IH.
  - destruct Hrest as (length & w2 & start & w3 & Hr1 & Hb1 & Hle & Hr2 & Hb2 & Hg).
    destruct (slice_inside word start length) as [Hl Hi]; [lia..|].
    exists word, w1, (Py.slice word start (start + length)), w3.
    repeat split; try done. lia.
Qed.

Lemma C4_witness :
  exists word w1 sq w',
    random_choice env_zero (elements ({[ "cat" ]} : gset string)) (world_of [])
    = Ok word w1 /\
    word ∈ ({[ "cat" ]} : gset string) /\
    get_random_sequence env_zero {[ "cat" ]} (world_of []) = Ok sq w' /\
    (Py.len sq = 2 \/ Py.len sq = 3) /\
    Py.str_in sq word = true /\
    (Py.len word = 2 -> sq = word).
Proof.
  apply (C4_sequence_from_bank env_zero {[ "cat" ]} (world_of [])).
  - apply (bool_decide_eq_false_1 _). reflexivity.
  - intros x Hx. apply elem_of_singleton in Hx as ->. vm_compute. discriminate.
Defined.

(** C4 as it is stated fails on a bank that holds a one-letter word: the
    second [randint] is asked for a value of [0..-1] and raises. *)
Lemma C4_counterexample :
  ({[ "a" ]} : gset string) <> ∅ /\
  get_random_sequence env_zero {[ "a" ]} (world_of [])
  = Raise ValueError (mkWorld [] true [] 0 0 2).
Proof.
  split; [apply (bool_decide_eq_false_1 _)|]; reflexivity.
Qed.

(** ** Dictionary *)

(** The first path of [load_words] keeps only words of two characters or
    more. *)
Lemma load_words_cwd_long (fs : Files) (f : list string) (x : string) :
  cwd_words fs = Opened f -> x ∈ load_words fs -> 1 < Py.len x.
Proof.
  intros Hf. unfold load_words. rewrite Hf.
  rewrite elem_of_list_to_set, list_elem_of_In, in_map_iff.
  intros (l & <- & Hl). apply filter_In in Hl as [_ Hl].
  apply Z.ltb_lt in Hl. unfold Py.len in *. by rewrite lower_length.
Qed.

(** With no file in either place [load_words] returns the empty set and
    [main] gives up. *)
Lemma load_words_missing (fs : Files) :
  cwd_words fs = FileNotFound -> script_words fs = FileNotFound ->
  load_words fs = ∅ /\ startup fs = GaveUp.
Proof.
  intros H1 H2. unfold startup, load_words. by rewrite H1, H2.
Qed.

(** The second path of [load_words] keeps every line. *)
Lemma load_words_script_all (fs : Files) (f : list string) (l : string) :
  cwd_words fs = FileNotFound -> script_words fs = Opened f ->
  l ∈ f -> Py.lower (Py.strip l) ∈ load_words fs.
Proof.
  intros H1 H2 Hl. unfold load_words. rewrite H1, H2.
  rewrite elem_of_list_to_set, list_elem_of_In, in_map_iff.
  exists l. by rewrite <- list_elem_of_In.
Qed.

(** C8: the claim fails on the code.  When [words.txt] is only found next
    to the script, the one-letter line "a" ends up in the bank and the
    server starts with that bank; the same file found in the current
    directory yields the bank without "a"; with no file at all the bank is
    empty and [main] gives up. *)
Theorem C8_fallback_keeps_short_words :
  load_words files_fallback = {[ "a"; "cat" ]} /\
  Py.len "a" = 1 /\
  startup files_fallback = Serving {[ "a"; "cat" ]} /\
  load_words files_cwd = {[ "cat" ]} /\
  startup (mkFiles FileNotFound FileNotFound) = GaveUp.
Proof.
  assert (H1 : load_words files_fallback = {[ "a"; "cat" ]}).
  { apply set_eq. intros x. unfold load_words, files_fallback; simpl.
    change (Py.lower (Py.strip (line "a"))) with "a".
    change (Py.lower (Py.strip (line "cat"))) with "cat".
    set_solver. }
  split; [done|]. split; [done|]. split.
  { unfold startup. rewrite H1. reflexivity. }
  split; [|reflexivity].
  apply set_eq. intros x. unfold load_words, files_cwd; simpl.
  change (Py.strip (line "a")) with "a".
  change (Py.strip (line "cat")) with "cat".
  simpl. set_solver.
Qed.

(** ** Broadcaster *)

Lemma lost_flags (p : Player) :
  disconnected (lost p) = true /\ active (lost p) = false /\
  lives (lost p) = lives p /\ name (lost p) = name p /\
  conn (lost p) = conn p.
Proof. done. Qed.

Lemma lost_not_connected (p : Player) : connected (lost p) = false.
Proof. done. Qed.

Lemma lost_lost (p : Player) : lost (lost p) = lost p.
Proof. done. Qed.

Lemma lookup_total_some (h : list Player) (r : nat) (p : Player) :
  h !! r = Some p -> h !!! r = p.
Proof. intros H. by apply list_lookup_total_correct. Qed.

Section Broadcaster.

Variable env : Env.

(** The three ways [send_to_player] can go. *)
Lemma send_to_player_skip (r : nat) (msg : Msg) (w : World) :
  connected (heap w !!! r) = false ->
  send_to_player env r msg w = Ok tt w.
Proof.
  unfold send_to_player, bind, deref, connected. by intros ->.
Qed.

Lemma send_to_player_sent (r : nat) (msg : Msg) (w : World) :
  connected (heap w !!! r) = true ->
  env_send env (n_send w) (conn (heap w !!! r)) = true ->
  send_to_player env r msg w
  = Ok tt {| heap := heap w; game_started := game_started w;
             trace := ESend (conn (heap w !!! r)) msg true :: trace w;
             n_send := S (n_send w); n_recv := n_recv w;
             n_rand := n_rand w |}.
Proof.
  unfold send_to_player, bind, deref, connected, sendall. intros -> H.
  by rewrite H.
Qed.

Lemma send_to_player_failed (r : nat) (msg : Msg) (w : World) :
  connected (heap w !!! r) = true ->
  env_send env (n_send w) (conn (heap w !!! r)) = false ->
  send_to_player env r msg w
  = Ok tt {| heap := alter lost r (heap w);
             game_started := game_started w;
             trace := ESend (conn (heap w !!! r)) msg false :: trace w;
             n_send := S (n_send w); n_recv := n_recv w;
             n_rand := n_rand w |}.
Proof.
  unfold send_to_player, bind, deref, connected, sendall. intros -> H.
  rewrite H. unfold mark_lost, bind, update, with_heap, ret. simpl.
  by rewrite list_alter_alter_eq.
Qed.

Lemma alter_lost_lookup (h : list Player) (r i : nat) (p : Player) :
  h !! i = Some p ->
  alter lost r h !! i = Some (if decide (i = r) then lost p else p).
Proof.
  intros H. destruct (decide (i = r)) as [->|Hne].
  - by rewrite list_lookup_alter_eq, H.
  - by rewrite list_lookup_alter_ne.
Qed.

(** With distinct sockets, the socket tells the player. *)
Lemma same_socket (h : list Player) (i j : nat) (p q : Player) :
  NoDup (conn <$> h) -> h !! i = Some p -> h !! j = Some q ->
  conn p = conn q -> i = j.
Proof.
  intros Hnd Hp Hq Hc.
  apply (NoDup_lookup _ i j (conn p) Hnd); rewrite list_lookup_fmap.
  - by rewrite Hp.
  - by rewrite Hq, Hc.
Qed.

Lemma send_to_player_delivery (r : nat) (msg : Msg) (w : World) :
  (r < length (heap w))%nat ->
  exists w', send_to_player env r msg w = Ok tt w' /\
             delivery msg [r] w w' /\ frame w w'.
Proof.
  intros Hr.
  destruct (lookup_lt_is_Some_2 _ _ Hr) as [p Hp].
  pose proof (lookup_total_some _ _ _ Hp) as Hp'.
  destruct (connected (heap w !!! r)) eqn:Hc.
  - destruct (env_send env (n_send w) (conn (heap w !!! r))) eqn:Hs.
    + eexists. split; [by apply send_to_player_sent|]. split.
      * split; [done|]. exists [ESend (conn p) msg true]. simpl.
        rewrite Hp'. split; [done|]. split; [|split; [by left|]].
        -- intros e ->%list_elem_of_singleton.
           exists r, p, true. rewrite <- Hp' at 2.
           repeat split; [apply list_elem_of_here|done|done].
        -- intros _ i q _ Hin%list_elem_of_singleton. done.
      * split; simpl; try done; [by left|].
        eexists [_]. split; [done|].
        intros e ->%list_elem_of_singleton. eauto.
    + eexists. split; [by apply send_to_player_failed|]. split.
      * split; [simpl; by rewrite length_alter|].
        exists [ESend (conn p) msg false]. simpl.
        rewrite Hp'. split; [done|]. split; [|split].
        -- intros e ->%list_elem_of_singleton.
           exists r, p, false. rewrite <- Hp' at 2.
           repeat split; [apply list_elem_of_here|done|done].
        -- intros i q Hq. rewrite (alter_lost_lookup _ _ _ _ Hq).
           destruct (decide (i = r)) as [->|]; [right|by left].
           assert (q = p) as -> by congruence.
           rewrite <- Hp' at 1.
           repeat split; [apply list_elem_of_here|done|apply list_elem_of_here].
        -- intros Hnd i q Hq Hin%list_elem_of_singleton.
           injection Hin as Hcq.
           assert (i = r) as -> by (by eapply same_socket).
           rewrite (alter_lost_lookup _ _ _ _ Hq). by rewrite decide_True.
      * split; simpl; try done; [by rewrite length_alter| |].
        -- intros i q Hq. rewrite (alter_lost_lookup _ _ _ _ Hq).
           destruct (decide (i = r)); [by right|by left].
        -- eexists [_]. split; [done|].
           intros e ->%list_elem_of_singleton. eauto.
  - exists w. split; [by apply send_to_player_skip|]. split.
    + split; [done|]. exists []. split; [done|].
      split; [intros e He; by apply not_elem_of_nil in He|].
      split; [by left|]. intros _ i q _ Hin. by apply not_elem_of_nil in Hin.
    + split; try done; [by left|].
      exists []. split; [done|]. intros e He; by apply not_elem_of_nil in He.
Qed.

Lemma frame_refl (w : World) : frame w w.
Proof.
  split; try done; [by left|].
  exists []. split; [done|]. intros e He. by apply not_elem_of_nil in He.
Qed.

Lemma frame_trans (w1 w2 w3 : World) :
  frame w1 w2 -> frame w2 w3 -> frame w1 w3.
Proof.
  intros [L1 H1 S1 R1 D1 (e1 & T1 & E1)] [L2 H2 S2 R2 D2 (e2 & T2 & E2)].
  split; try congruence.
  - intros i p Hp. destruct (H1 i p Hp) as [Hq|Hq];
      destruct (H2 _ _ Hq) as [Hr|Hr]; rewrite ?lost_lost in Hr; eauto.
  - exists (e2 ++ e1)%list. split; [by rewrite T2, T1, app_assoc|].
    intros e [He|He]%elem_of_app; eauto.
Qed.

(** Sending changes nobody's socket. *)
Lemma delivery_sockets (msg : Msg) (xs : list nat) (w w' : World) :
  delivery msg xs w w' -> conn <$> heap w' = conn <$> heap w.
Proof.
  intros [Hl (evs & _ & _ & H & _)].
  apply list_eq. intros i. rewrite !list_lookup_fmap.
  destruct (heap w !! i) as [p|] eqn:Hp.
  - by destruct (H i p Hp) as [->|(_ & _ & _ & ->)].
  - apply lookup_ge_None in Hp. rewrite <- Hl in Hp.
    apply lookup_ge_None in Hp. by rewrite Hp.
Qed.

Lemma delivery_cons (msg : Msg) (r : nat) (xs : list nat)
    (w w1 w2 : World) :
  delivery msg [r] w w1 -> delivery msg xs w1 w2 ->
  delivery msg (r :: xs) w w2.
Proof.
  intros D1 D2. pose proof (delivery_sockets _ _ _ _ D1) as Hsock.
  destruct D1 as [L1 (e1 & T1 & E1 & H1 & N1)].
  destruct D2 as [L2 (e2 & T2 & E2 & H2 & N2)].
  split; [congruence|].
  exists (e2 ++ e1)%list. split; [by rewrite T2, T1, app_assoc|].
  split; [|split].
  - intros e [He|He]%elem_of_app.
    + destruct (E2 e He) as (r' & p1 & ok & Hr' & Hp1 & Hc & ->).
      assert (Hlt : (r' < length (heap w))%nat).
      { rewrite <- L1. by eapply lookup_lt_Some. }
      destruct (lookup_lt_is_Some_2 _ _ Hlt) as [p Hp].
      destruct (H1 _ _ Hp) as [Hq|(_ & _ & _ & Hq)].
      * assert (p1 = p) as -> by congruence.
        exists r', p, ok. repeat split; [by apply list_elem_of_further|done..].
      * assert (p1 = lost p) as -> by congruence. done.
    + destruct (E1 e He) as (r' & p & ok & Hr' & Hp & Hc & ->).
      apply list_elem_of_singleton in Hr' as ->.
      exists r, p, ok. repeat split; [apply list_elem_of_here|done..].
  - intros i p Hp. destruct (H1 _ _ Hp) as [Hq|(Hi & Hc & He & Hq)].
    + destruct (H2 _ _ Hq) as [Hr|(Hi & Hc & He & Hr)]; [by left|right].
      repeat split; [by apply list_elem_of_further|done| |done].
      apply elem_of_app. by left.
    + right. apply list_elem_of_singleton in Hi as ->.
      destruct (H2 _ _ Hq) as [Hr|(_ & Hc' & _)]; [|done].
      repeat split; [apply list_elem_of_here|done| |done].
      apply elem_of_app. by right.
  - intros Hnd i p Hp [He|He]%elem_of_app.
    + destruct (E2 _ He) as (r' & q1 & ok & _ & Hq1 & Hc1 & Heq).
      injection Heq as Hcq <-.
      assert (Hnd1 : NoDup (conn <$> heap w1)) by (by rewrite Hsock).
      destruct (H1 _ _ Hp) as [Hq|(_ & _ & _ & Hq)].
      * by apply (N2 Hnd1).
      * assert (i = r') as <-.
        { eapply (same_socket (heap w1)); [done|exact Hq|exact Hq1|done]. }
        assert (q1 = lost p) as -> by congruence. done.
    + pose proof (N1 Hnd i p Hp He) as Hq.
      destruct (H2 _ _ Hq) as [Hr|(_ & Hc' & _)]; done.
Qed.

Lemma broadcast_delivery (xs : list nat) (msg : Msg) (w : World) :
  refs_in xs w ->
  exists w', broadcast env xs msg w = Ok tt w' /\
             delivery msg xs w w' /\ frame w w'.
Proof.
  revert w; induction xs as [|r xs IH]; intros w Hin.
  - exists w. split; [done|]. split; [|apply frame_refl].
    split; [done|]. exists []. split; [done|].
    split; [intros e He; by apply not_elem_of_nil in He|].
    split; [by left|]. intros _ i q _ He. by apply not_elem_of_nil in He.
  - destruct (send_to_player_delivery r msg w) as (w1 & Hs & Hd1 & Hf1).
    { apply Hin. apply list_elem_of_here. }
    destruct (IH w1) as (w2 & Hb & Hd2 & Hf2).
    { intros r' Hr'. rewrite (frame_length _ _ Hf1).
      apply Hin. by apply list_elem_of_further. }
    exists w2. split; [|split].
    + change (broadcast env (r :: xs) msg)
        with (send_to_player env r msg ;; broadcast env xs msg).
      unfold bind. by rewrite Hs.
    + by eapply delivery_cons.
    + by eapply frame_trans.
Qed.

End Broadcaster.

(** C7: a call of [broadcast] or [send_to_player] always ends normally
    (it neither stops the server nor raises); every [sendall] it makes
    goes to a target that was active and not disconnected; a player is
    either left exactly as it was, or it was such a target whose [sendall]
    failed and it now has [disconnected = true] and [active = false], the
    rest of it unchanged; and, sockets being distinct, every player on
    whose socket a [sendall] failed ends up so marked. *)
Theorem C7_delivery_is_local
    (env : Env) (xs : list nat) (player : nat) (msg : Msg) (w : World) :
  refs_in (player :: xs) w ->
  (exists w', broadcast env xs msg w = Ok tt w' /\ delivery msg xs w w') /\
  (exists w', send_to_player env player msg w = Ok tt w' /\
              delivery msg [player] w w') /\
  (forall p, disconnected (lost p) = true /\ active (lost p) = false /\
             lives (lost p) = lives p /\ name (lost p) = name p /\
             conn (lost p) = conn p).
Proof.
  intros Hin. split; [|split].
  - destruct (broadcast_delivery env xs msg w) as (w' & H & Hd & _).
    + intros r Hr. apply Hin. set_solver.
    + eauto.
  - destruct (send_to_player_delivery env player msg w) as (w' & H & Hd & _).
    + apply Hin. set_solver.
    + eauto.
  - apply lost_flags.
Qed.

(** ** Properties kept by every operation *)

Section Keeps.

Variable I : World -> Prop.

Lemma keeps_ret {A} (a : A) : keeps I (ret a).
Proof. by intros w. Qed.

Lemma keeps_raise {A} (e : Exn) : keeps I (@raise A e).
Proof. by intros w. Qed.

Lemma keeps_os_exit {A} (c : Z) : keeps I (@os_exit A c).
Proof. by intros w. Qed.

Lemma keeps_bind {A B} (m : M A) (k : A -> M B) :
  keeps I m -> (forall a, keeps I (k a)) -> keeps I (bind m k).
Proof.
  intros Hm Hk w Hw. unfold bind. specialize (Hm w Hw).
  destruct (m w) as [a w'|c w'|e w']; simpl in *; [by apply Hk|done..].
Qed.

(** An operation that ends normally in the world it started from. *)
Lemma keeps_reader {A} (m : M A) :
  (forall w, exists a, m w = Ok a w) -> keeps I m.
Proof. intros H w Hw. destruct (H w) as [a ->]. done. Qed.

End Keeps.

Ltac keeps_reader := apply keeps_reader; intros ?; eexists; reflexivity.

Create HintDb keeps.

Ltac keeps_go :=
  repeat first
    [ apply keeps_ret | apply keeps_raise | apply keeps_os_exit
    | keeps_reader
    | solve [auto with keeps]
    | apply keeps_bind; [|intros ?; cbv beta]
    | match goal with
      | |- keeps _ (if ?b then _ else _) => destruct b
      | |- keeps _ (match ?x with _ => _ end) => destruct x
      end ].

Section FlagsInvariant.

Variable env : Env.

(** A property of the heap alone is not touched by socket traffic or by
    the generator. *)
Lemma keeps_sendall (c : nat) (m : Msg) : keeps roster_ok (sendall env c m).
Proof. by intros w. Qed.
#[local] Hint Resolve keeps_sendall : keeps.

Lemma keeps_recv (c : nat) : keeps roster_ok (recv env c).
Proof. by intros w. Qed.
#[local] Hint Resolve keeps_recv : keeps.

Lemma keeps_close (c : nat) : keeps roster_ok (close c).
Proof. by intros w. Qed.
#[local] Hint Resolve keeps_close : keeps.

Lemma keeps_draw : keeps roster_ok (draw env).
Proof. by intros w. Qed.
#[local] Hint Resolve keeps_draw : keeps.

Lemma keeps_set_started : keeps roster_ok set_started.
Proof. by intros w. Qed.
#[local] Hint Resolve keeps_set_started : keeps.

Lemma flags_ok_lost (p : Player) : flags_ok (lost p).
Proof. done. Qed.

Lemma flags_ok_set_lives (n : Z) (p : Player) :
  flags_ok p -> flags_ok (set_lives n p).
Proof. done. Qed.

(** The two assignments that mark a player, followed by anything. *)
Lemma keeps_marked {A} (r : nat) (k : M A) :
  keeps roster_ok k ->
  keeps roster_ok (update r (set_disconnected true) ;;
                   update r (set_active false) ;; k).
Proof.
  intros Hk w Hw. unfold bind at 1 2, update. apply Hk.
  unfold roster_ok, with_heap; simpl. rewrite list_alter_alter_eq.
  apply Forall_alter; [done|]. intros p _ _. apply flags_ok_lost.
Qed.
#[local] Hint Resolve keeps_marked : keeps.

Lemma keeps_mark_lost (r : nat) : keeps roster_ok (mark_lost r).
Proof.
  intros w Hw. unfold mark_lost, bind, update, roster_ok, with_heap; simpl.
  rewrite list_alter_alter_eq.
  apply Forall_alter; [done|]. intros p _ _. apply flags_ok_lost.
Qed.
#[local] Hint Resolve keeps_mark_lost : keeps.

Lemma keeps_lose_life (r : nat) : keeps roster_ok (lose_life r).
Proof.
  intros w Hw. unfold lose_life, bind, deref, update, roster_ok; simpl.
  apply Forall_alter; [done|]. intros p _. apply flags_ok_set_lives.
Qed.
#[local] Hint Resolve keeps_lose_life : keeps.

Lemma keeps_send_to_player (r : nat) (m : Msg) :
  keeps roster_ok (send_to_player env r m).
Proof.
  unfold send_to_player.
  keeps_go.
Qed.
#[local] Hint Resolve keeps_send_to_player : keeps.

Lemma keeps_broadcast (xs : list nat) (m : Msg) :
  keeps roster_ok (broadcast env xs m).
Proof.
  induction xs as [|r xs IH]; [apply keeps_ret|].
  change (broadcast env (r :: xs) m)
    with (send_to_player env r m ;; broadcast env xs m).
  apply keeps_bind; [apply keeps_send_to_player | by intros _].
Qed.
#[local] Hint Resolve keeps_broadcast : keeps.

Lemma keeps_close_all (xs : list nat) : keeps roster_ok (close_all xs).
Proof.
  induction xs as [|r xs IH]; simpl; [apply keeps_ret|].
  keeps_go.
Qed.
#[local] Hint Resolve keeps_close_all : keeps.

Lemma keeps_fail_fast {A} (r : nat) : keeps roster_ok (@fail_fast env A r).
Proof.
  unfold fail_fast. apply keeps_marked.
  keeps_go.
Qed.
#[local] Hint Resolve keeps_fail_fast : keeps.

Lemma keeps_handle_player_received (player : nat) (r : RecvResult) :
  keeps roster_ok (handle_player_received env player r).
Proof.
  unfold handle_player_received.
  keeps_go.
Qed.
#[local] Hint Resolve keeps_handle_player_received : keeps.

Lemma keeps_handle_player_pass (player : nat) :
  keeps roster_ok (handle_player_pass env player).
Proof.
  unfold handle_player_pass.
  keeps_go.
Qed.
#[local] Hint Resolve keeps_handle_player_pass : keeps.

Lemma keeps_handle_player (fuel player : nat) :
  keeps roster_ok (handle_player env fuel player).
Proof.
  induction fuel as [|fuel IH]; simpl; [apply keeps_ret|].
  keeps_go.
Qed.
#[local] Hint Resolve keeps_handle_player : keeps.

Lemma keeps_get_random_sequence (WORDS : gset string) :
  keeps roster_ok (get_random_sequence env WORDS).
Proof.
  unfold get_random_sequence, random_choice, randint.
  keeps_go.
Qed.
#[local] Hint Resolve keeps_get_random_sequence : keeps.

Lemma keeps_start_game : keeps roster_ok (start_game env).
Proof. unfold start_game. keeps_go. Qed.
#[local] Hint Resolve keeps_start_game : keeps.

Lemma keeps_process_response (WORDS : gset string) (L : Locals)
    (player : nat) (sq word : string) :
  keeps roster_ok (process_response env WORDS L player sq word).
Proof.
  unfold process_response, others.
  keeps_go.
Qed.
#[local] Hint Resolve keeps_process_response : keeps.

Lemma keeps_iteration (WORDS : gset string) (L : Locals) :
  keeps roster_ok (iteration env WORDS L).
Proof.
  unfold iteration, current_player, choose_sequence, present_turn,
    read_response, check_disconnected, others.
  keeps_go.
Qed.
#[local] Hint Resolve keeps_iteration : keeps.

Lemma keeps_game_loop (WORDS : gset string) (fuel : nat) (L : Locals) :
  keeps roster_ok (game_loop env WORDS fuel L).
Proof.
  revert L; induction fuel as [|fuel IH]; intros L; simpl;
    unfold loop_cond; keeps_go.
Qed.
#[local] Hint Resolve keeps_game_loop : keeps.

Lemma keeps_game_over (L : Locals) : keeps roster_ok (game_over env L).
Proof. unfold game_over. keeps_go. Qed.
#[local] Hint Resolve keeps_game_over : keeps.

Lemma keeps_play (WORDS : gset string) (fuel : nat) :
  keeps roster_ok (play env WORDS fuel).
Proof.
  unfold play.
  keeps_go.
Qed.
#[local] Hint Resolve keeps_play : keeps.

End FlagsInvariant.

(** The invariant is one of the worlds between operations: after the
    first of the two assignments that mark a player, and before the second,
    a player that was active has [disconnected = true] and
    [active = true]. *)
Lemma marked_midway (r : nat) (w : World) (p : Player) :
  heap w !! r = Some p -> active p = true ->
  exists p',
    heap (final_world (update r (set_disconnected true) w)) !! r = Some p' /\
    disconnected p' = true /\ active p' = true.
Proof.
  intros Hp Ha. exists (set_disconnected true p). simpl.
  by rewrite list_lookup_alter_eq, Hp.
Qed.

(** C9: [disconnected = true] implies [active = false] for every player,
    in every world between two operations.  A new player has it; the three
    places that set [disconnected] (the handlers of [broadcast] and
    [send_to_player], and the end of [handle_player]) leave the player
    with [active = false]; and every operation of the server, however it
    ends, takes a roster with the property to a roster with the property,
    so the property holds in every world the match runs through. *)
Theorem C9_disconnected_implies_inactive (env : Env) :
  (forall c a n, flags_ok (new_player c a n)) /\
  (forall p, disconnected (lost p) = true /\ active (lost p) = false) /\
  (forall r w p, heap w !! r = Some p ->
     heap (final_world (mark_lost r w)) !! r = Some (lost p)) /\
  (forall xs msg, keeps roster_ok (broadcast env xs msg)) /\
  (forall player msg, keeps roster_ok (send_to_player env player msg)) /\
  (forall player r, keeps roster_ok (handle_player_received env player r)) /\
  (forall fuel player, keeps roster_ok (handle_player env fuel player)) /\
  keeps roster_ok (start_game env) /\
  (forall WORDS L, keeps roster_ok (iteration env WORDS L)) /\
  (forall WORDS fuel, keeps roster_ok (play env WORDS fuel)).
Proof.
  split; [done|]. split; [done|]. split.
  { intros r w p Hp. unfold mark_lost, bind, update; simpl.
    by rewrite list_alter_alter_eq, list_lookup_alter_eq, Hp. }
  split; [apply keeps_broadcast|]. split; [apply keeps_send_to_player|].
  split; [apply keeps_handle_player_received|].
  split; [apply keeps_handle_player|]. split; [apply keeps_start_game|].
  split; [apply keeps_iteration | apply keeps_play].
Qed.

(** ** The monad, taken apart *)

Lemma bind_Ok {A B} (m : M A) (k : A -> M B) (w : World) (b : B) (w2 : World) :
  bind m k w = Ok b w2 <->
  exists a w1, m w = Ok a w1 /\ k a w1 = Ok b w2.
Proof.
  unfold bind. destruct (m w) as [a w1|c w1|e w1].
  - split; [by eauto|]. by intros (? & ? & [= <- <-] & ?).
  - split; [done|]. by intros (? & ? & ? & ?).
  - split; [done|]. by intros (? & ? & ? & ?).
Qed.

Lemma bind_Exit {A B} (m : M A) (k : A -> M B) (w : World) (c : Z) (w2 : World) :
  bind m k w = Exit c w2 <->
  m w = Exit c w2 \/ exists a w1, m w = Ok a w1 /\ k a w1 = Exit c w2.
Proof.
  unfold bind. destruct (m w) as [a w1|c1 w1|e w1].
  - split; [by eauto|]. intros [?|(? & ? & [= <- <-] & ?)]; done.
  - split; [intros [= -> ->]; by left|]. intros [[= -> ->]|(? & ? & ? & ?)]; done.
  - split; [done|]. intros [?|(? & ? & ? & ?)]; done.
Qed.

(** ** What sending does to the world *)

Section Frames.

Variable env : Env.

Lemma send_to_player_frame (r : nat) (msg : Msg) (w : World) :
  exists w', send_to_player env r msg w = Ok tt w' /\ frame w w'.
Proof.
  destruct (connected (heap w !!! r)) eqn:Hc.
  - destruct (env_send env (n_send w) (conn (heap w !!! r))) eqn:Hs.
    + eexists. split; [by apply send_to_player_sent|].
      split; simpl; try done; [by left|].
      eexists [_]. split; [done|].
      intros e ->%list_elem_of_singleton. eauto.
    + eexists. split; [by apply send_to_player_failed|].
      split; simpl; try done; [by rewrite length_alter| |].
      * intros i q Hq. rewrite (alter_lost_lookup _ _ _ _ Hq).
        destruct (decide (i = r)); [by right|by left].
      * eexists [_]. split; [done|].
        intros e ->%list_elem_of_singleton. eauto.
  - exists w. split; [by apply send_to_player_skip|apply frame_refl].
Qed.

Lemma broadcast_frame (xs : list nat) (msg : Msg) (w : World) :
  exists w', broadcast env xs msg w = Ok tt w' /\ frame w w'.
Proof.
  revert w; induction xs as [|r xs IH]; intros w.
  - exists w. split; [done|apply frame_refl].
  - destruct (send_to_player_frame r msg w) as (w1 & Hs & F1).
    destruct (IH w1) as (w2 & Hb & F2).
    exists w2. split; [|by eapply frame_trans].
    change (broadcast env (r :: xs) msg)
      with (send_to_player env r msg ;; broadcast env xs msg).
    unfold bind. by rewrite Hs.
Qed.

Lemma frame_same_lives (w w' : World) : frame w w' -> same_lives w w'.
Proof.
  intros F. split; [apply F|]. intros i p Hp.
  destruct (frame_heap _ _ F i p Hp) as [H|H]; eauto.
Qed.

Lemma frame_lookup_total (w w' : World) (r : nat) :
  frame w w' ->
  heap w' !!! r = heap w !!! r \/ heap w' !!! r = lost (heap w !!! r).
Proof.
  intros F. destruct (heap w !! r) as [p|] eqn:Hp.
  - rewrite (lookup_total_some _ _ _ Hp).
    destruct (frame_heap _ _ F r p Hp) as [H|H];
      rewrite (lookup_total_some _ _ _ H); eauto.
  - left. apply lookup_ge_None in Hp.
    rewrite !list_lookup_total_alt.
    rewrite (proj2 (lookup_ge_None (heap w) r)) by done.
    rewrite (proj2 (lookup_ge_None (heap w') r)); [done|].
    by rewrite (frame_length _ _ F).
Qed.

(** A player who is not disconnected after some sending was not touched
    by it. *)
Lemma frame_still_connected (w w' : World) (r : nat) :
  frame w w' -> disconnected (heap w' !!! r) = false ->
  heap w' !!! r = heap w !!! r.
Proof.
  intros F Hd. destruct (frame_lookup_total w w' r F) as [H|H]; [done|].
  by rewrite H in Hd.
Qed.

Lemma frame_closed (w w' : World) : frame w w' -> closed w' = closed w.
Proof.
  intros F. destruct (frame_trace _ _ F) as (evs & Ht & He).
  unfold closed. rewrite Ht, omap_app.
  replace (omap _ evs) with (@nil nat); [done|].
  clear -He. induction evs as [|e evs IH]; [done|].
  destruct (He e ltac:(set_solver)) as (c & m & ok & ->). simpl.
  apply IH. intros e' He'. apply He. set_solver.
Qed.

End Frames.

Ltac step_send :=
  match goal with
  | |- context [broadcast ?e ?xs ?m ?w] =>
      let w' := fresh "w" in
      let H := fresh "H" in
      let F := fresh "F" in
      destruct (broadcast_frame e xs m w) as (w' & H & F);
      rewrite H; clear H; cbv beta iota
  | |- context [send_to_player ?e ?r ?m ?w] =>
      let w' := fresh "w" in
      let H := fresh "H" in
      let F := fresh "F" in
      destruct (send_to_player_frame e r m w) as (w' & H & F);
      rewrite H; clear H; cbv beta iota
  end.

Section Turn.

Variable env : Env.

Lemma present_turn_frame (L : Locals) (who : nat) (sq : string) (w : World) :
  exists w', present_turn env L who sq w = Ok tt w' /\ frame w w'.
Proof.
  unfold present_turn, others, bind, pick, players, deref; cbv beta iota.
  do 5 step_send.
  eexists. split; [reflexivity|].
  repeat (eapply frame_trans; [eassumption|]). apply frame_refl.
Qed.

Lemma start_game_frame (w : World) :
  exists w',
    start_game env w
    = Ok {| active_players :=
              List.filter (fun r => connected (heap w !!! r))
                          (List.seq 0 (length (heap w)));
            used_words := ∅; last_word_valid := true; seq := None;
            turn := 0; round_num := 1 |} w' /\
    frame w w'.
Proof.
  unfold start_game, bind, pick, players; cbv beta iota.
  do 6 step_send.
  eexists. split; [reflexivity|].
  repeat (eapply frame_trans; [eassumption|]). apply frame_refl.
Qed.

End Turn.

(** ** One turn, piece by piece *)

Section Pieces.

Variable env : Env.

Lemma lose_life_run (who : nat) (w : World) :
  lose_life who w = Ok tt (after_loss who w).
Proof. done. Qed.

Lemma after_loss_lookup (who : nat) (w : World) (i : nat) (p : Player) :
  heap w !! i = Some p ->
  heap (after_loss who w) !! i
  = Some (if decide (i = who) then set_lives (lives p - 1) p else p).
Proof.
  intros H. unfold after_loss; simpl.
  destruct (decide (i = who)) as [->|Hne].
  - rewrite list_lookup_alter_eq, H. simpl.
    by rewrite (lookup_total_some _ _ _ H).
  - by rewrite list_lookup_alter_ne.
Qed.

Lemma after_loss_total (who : nat) (w : World) :
  (who < length (heap w))%nat ->
  heap (after_loss who w) !!! who
  = set_lives (lives (heap w !!! who) - 1) (heap w !!! who).
Proof.
  intros Hlt. destruct (lookup_lt_is_Some_2 _ _ Hlt) as [p Hp].
  apply lookup_total_some. rewrite (after_loss_lookup _ _ _ _ Hp).
  rewrite decide_True by done. by rewrite (lookup_total_some _ _ _ Hp).
Qed.

(** [process_response] always ends normally, with the verdict of [judge];
    the Locals change as the branch says; the heap changes by the loss of a
    life (unless the answer is accepted) followed by sending. *)
Lemma process_response_run (WORDS : gset string) (L : Locals)
    (who : nat) (sq word : string) (w : World) :
  let v := judge WORDS (used_words L) sq word in
  exists w',
    process_response env WORDS L who sq word w
    = Ok (v, if accepted v
             then with_last_word_valid true
                    (with_used_words ({[ word ]} ∪ used_words L) L)
             else with_last_word_valid false L) w' /\
    frame (if accepted v then w else after_loss who w) w'.
Proof.
  unfold process_response, judge.
  destruct (bool_decide (word = "")); [|destruct (_ && _ && _)]; simpl;
    unfold others, bind, pick, deref; rewrite ?lose_life_run;
    cbv beta iota; do 2 step_send;
    (eexists; split; [reflexivity|]; by eapply frame_trans).
Qed.

(** A refused answer is reported to the player with the reason. *)
Lemma process_response_tells (WORDS : gset string) (L : Locals)
    (who : nat) (sq word : string) (w w' : World) (r : Reason) (L' : Locals) :
  (who < length (heap w))%nat ->
  connected (heap w !!! who) = true ->
  process_response env WORDS L who sq word w = Ok (Rejected r, L') w' ->
  exists ok,
    ESend (conn (heap w !!! who))
          (MWrong r (lives (heap w !!! who) - 1)) ok ∈ trace w'.
Proof.
  intros Hlt Hc. unfold process_response.
  destruct (bool_decide (word = "")); [|destruct (_ && _ && _)]; simpl;
    unfold others, bind, pick, deref; rewrite ?lose_life_run;
    cbv beta iota.
  - do 2 step_send. done.
  - do 2 step_send. done.
  - rewrite (after_loss_total _ _ Hlt).
    set (p := heap w !!! who) in *.
    set (m := MWrong _ _).
    assert (Hs : exists ok w1,
               send_to_player env who m (after_loss who w) = Ok tt w1 /\
               ESend (conn p) m ok ∈ trace w1).
    { assert (Hc' : connected (heap (after_loss who w) !!! who) = true).
      { by rewrite (after_loss_total _ _ Hlt). }
      assert (Hp : conn (heap (after_loss who w) !!! who) = conn p).
      { by rewrite (after_loss_total _ _ Hlt). }
      destruct (env_send env (n_send (after_loss who w))
                  (conn (heap (after_loss who w) !!! who))) eqn:Hok.
      - exists true. eexists. split; [by apply send_to_player_sent|].
        cbn [trace]. rewrite Hp. set_solver.
      - exists false. eexists. split; [by apply send_to_player_failed|].
        cbn [trace]. rewrite Hp. set_solver. }
    destruct Hs as (ok & w1 & -> & Hin). cbv beta iota.
    step_send. intros [= <- <- <-].
    exists ok. destruct (frame_trace _ _ F) as (evs & -> & _). set_solver.
Qed.

Lemma current_player_Ok (L : Locals) (w : World) (who : nat) (w1 : World) :
  current_player L w = Ok who w1 ->
  w1 = w /\ who ∈ active_players L.
Proof.
  unfold current_player. destruct (_ =? _)%nat; [done|].
  destruct (active_players L !! _) as [r|] eqn:Hr; [|done].
  intros [= -> ->]. split; [done|]. by eapply list_elem_of_lookup_2.
Qed.

Lemma read_response_run (who : nat) (w : World) :
  exists word,
    read_response env who w
    = Ok word {| heap := heap w; game_started := game_started w;
                 trace := trace w; n_send := n_send w;
                 n_recv := S (n_recv w); n_rand := n_rand w |}.
Proof. unfold read_response, bind, deref, recv, ret. eauto. Qed.

Lemma check_disconnected_Ok (who : nat) (w w1 : World) :
  check_disconnected env who w = Ok tt w1 ->
  w1 = w /\ disconnected (heap w !!! who) = false.
Proof.
  unfold check_disconnected, bind, deref, players.
  destruct (disconnected (heap w !!! who)); [|by intros [= ->]].
  cbv beta iota. step_send.
  destruct (close_all _ _); done.
Qed.

(** A resolved turn, cut into its pieces. *)
Lemma iteration_resolved (WORDS : gset string) (L : Locals) (w : World)
    (who : nat) (sq word : string) (v : Verdict) (L' : Locals) (w' : World) :
  iteration env WORDS L w = Ok (Resolved who sq word v, L') w' ->
  exists w1 w2 w3 L2,
    who ∈ active_players L /\
    0 < lives (heap w !!! who) /\
    connected (heap w !!! who) = true /\
    choose_sequence env WORDS L w = Ok sq w1 /\
    present_turn env (with_seq sq L) who sq w1 = Ok tt w2 /\
    read_response env who w2 = Ok word w3 /\
    disconnected (heap w3 !!! who) = false /\
    process_response env WORDS (with_seq sq L) who sq word w3 = Ok (v, L2) w' /\
    L' = advance L2.
Proof.
  unfold iteration. intros H.
  apply bind_Ok in H as (who' & w0 & Hcur & H).
  apply current_player_Ok in Hcur as [-> Hwho].
  apply bind_Ok in H as (p & w0 & [= <- <-] & H).
  destruct (lives (heap w !!! who') <=? 0) eqn:Hl; [done|].
  destruct (active (heap w !!! who')) eqn:Ha; [|done].
  destruct (disconnected (heap w !!! who')) eqn:Hd; [done|].
  simpl in H.
  apply bind_Ok in H as (sq' & w1 & Hseq & H).
  apply bind_Ok in H as ([] & w2 & Hpres & H).
  apply bind_Ok in H as (word' & w3 & Hread & H).
  apply bind_Ok in H as ([] & w4 & Hchk & H).
  apply check_disconnected_Ok in Hchk as [-> Hdis].
  apply bind_Ok in H as ([v' L2] & w5 & Hproc & H).
  injection H as <- <- <- <- <- <-.
  exists w1, w2, w3, L2. apply Z.leb_gt in Hl.
  unfold connected. rewrite Ha, Hd. done.
Qed.

Lemma iteration_skipped (WORDS : gset string) (L : Locals) (w : World)
    (who : nat) (L' : Locals) (w' : World) :
  iteration env WORDS L w = Ok (Skipped who, L') w' ->
  w' = w /\ L' = with_turn (S (turn L)) L /\ in_game (heap w !!! who) = false.
Proof.
  unfold iteration. intros H.
  apply bind_Ok in H as (who' & w0 & Hcur & H).
  apply current_player_Ok in Hcur as [-> Hwho].
  apply bind_Ok in H as (p & w0 & [= <- <-] & H).
  destruct (lives (heap w !!! who') <=? 0) eqn:Hl;
    [|destruct (active (heap w !!! who')) eqn:Ha;
      [destruct (disconnected (heap w !!! who')) eqn:Hd|]];
    simpl in H.
  - injection H as -> <- <-. apply Z.leb_le in Hl. unfold in_game.
    destruct (Z.ltb_spec 0 (lives (heap w !!! who))); [lia|].
    by rewrite andb_false_r.
  - injection H as -> <- <-. unfold in_game. by rewrite Hd, Ha.
  - apply bind_Ok in H as (? & ? & _ & H).
    apply bind_Ok in H as (? & ? & _ & H).
    apply bind_Ok in H as (? & ? & _ & H).
    apply bind_Ok in H as (? & ? & _ & H).
    apply bind_Ok in H as (? & ? & _ & H). done.
  - injection H as -> <- <-. unfold in_game. by rewrite Ha.
Qed.

End Pieces.

(** ** The sequence of a turn *)

Section Sequence.

Variable env : Env.

Lemma only_draws_refl (w : World) : only_draws w w.
Proof. by repeat split. Qed.

Lemma draw_only_draws (w : World) :
  exists k w', draw env w = Ok k w' /\ only_draws w w' /\
               (n_rand w < n_rand w')%nat.
Proof.
  eexists _, _. split; [reflexivity|]. simpl.
  split; [repeat split; simpl; lia | lia].
Qed.

Lemma randint_only_draws (a b v : Z) (w w' : World) :
  randint env a b w = Ok v w' -> only_draws w w'.
Proof.
  unfold randint. destruct (b <? a); [done|].
  intros [= _ <-]. repeat split; simpl; lia.
Qed.

Lemma get_random_sequence_only_draws (WORDS : gset string) (w w' : World)
    (sq : string) :
  get_random_sequence env WORDS w = Ok sq w' ->
  only_draws w w' /\ (WORDS <> ∅ -> (n_rand w < n_rand w')%nat).
Proof.
  unfold get_random_sequence.
  destruct (bool_decide (WORDS = ∅)) eqn:He.
  - intros [= _ <-]. split; [apply only_draws_refl|].
    by apply bool_decide_eq_true in He.
  - intros H. apply bind_Ok in H as (word & w1 & Hc & H).
    assert (H1 : only_draws w w1 /\ (n_rand w < n_rand w1)%nat).
    { unfold random_choice in Hc. destruct (elements WORDS); [done|].
      injection Hc as _ <-. split; [repeat split|]; simpl; lia. }
    destruct H1 as [(h1 & g1 & t1 & s1 & r1 & d1) Hlt].
    destruct (Py.len word =? 2).
    + injection H as _ <-. by repeat split.
    + apply bind_Ok in H as (len & w2 & Hr1 & H).
      apply bind_Ok in H as (start & w3 & Hr2 & H).
      injection H as _ <-.
      apply randint_only_draws in Hr1 as (h2 & g2 & t2 & s2 & r2 & d2).
      apply randint_only_draws in Hr2 as (h3 & g3 & t3 & s3 & r3 & d3).
      split; [repeat split; try congruence|]; lia.
Qed.

Lemma choose_sequence_Ok (WORDS : gset string) (L : Locals) (w w1 : World)
    (sq : string) :
  choose_sequence env WORDS L w = Ok sq w1 ->
  only_draws w w1 /\
  (last_word_valid L = true ->
     get_random_sequence env WORDS w = Ok sq w1 /\
     (WORDS <> ∅ -> (n_rand w < n_rand w1)%nat)) /\
  (last_word_valid L = false -> seq L = Some sq /\ w1 = w).
Proof.
  unfold choose_sequence. destruct (last_word_valid L).
  - intros H. destruct (get_random_sequence_only_draws _ _ _ _ H).
    split; [done|]. split; [by intros _|done].
  - destruct (seq L) as [s|]; [|done]. intros [= -> ->].
    split; [apply only_draws_refl|]. split; [done|by intros _].
Qed.

(** The prompt with the sequence is sent to the acting player, when the
    player is still there once its turn was presented. *)
Lemma present_turn_prompts (L : Locals) (who : nat) (sq : string)
    (w w' : World) :
  present_turn env L who sq w = Ok tt w' ->
  disconnected (heap w' !!! who) = false ->
  connected (heap w !!! who) = true ->
  heap w' !!! who = heap w !!! who /\
  exists ok,
    ESend (conn (heap w !!! who))
          (MYourTurn (name (heap w !!! who)) sq ROUND_TIME) ok ∈ trace w'.
Proof.
  unfold present_turn, others, bind, pick, players, deref; cbv beta iota.
  do 3 step_send.
  set (p := heap w !!! who).
  set (m := MYourTurn _ _ _).
  destruct (send_to_player_frame env who m w2) as (w3 & Hs & F3).
  rewrite Hs; cbv beta iota. step_send. intros [= <-] Hd Hc.
  assert (E4 : heap w4 !!! who = heap w3 !!! who).
  { by apply frame_still_connected. }
  assert (E3 : heap w3 !!! who = heap w2 !!! who).
  { apply frame_still_connected; [done|]. by rewrite <- E4. }
  assert (E2 : heap w2 !!! who = heap w1 !!! who).
  { apply frame_still_connected; [done|]. by rewrite <- E3, <- E4. }
  assert (E1 : heap w1 !!! who = heap w0 !!! who).
  { apply frame_still_connected; [done|]. by rewrite <- E2, <- E3, <- E4. }
  assert (E0 : heap w0 !!! who = p).
  { apply frame_still_connected; [done|].
    by rewrite <- E1, <- E2, <- E3, <- E4. }
  assert (Hp1 : heap w1 !!! who = p) by congruence.
  assert (Hp2 : heap w2 !!! who = p) by congruence.
  split; [congruence|].
  subst m. rewrite Hp1 in Hs.
  assert (Hin : exists ok,
             ESend (conn p) (MYourTurn (name p) sq ROUND_TIME) ok ∈ trace w3).
  { destruct (env_send env (n_send w2) (conn p)) eqn:Hok.
    - rewrite send_to_player_sent in Hs by (by rewrite ?Hp2).
      injection Hs as <-. exists true. cbn [trace]. rewrite Hp2. set_solver.
    - rewrite send_to_player_failed in Hs by (by rewrite ?Hp2).
      injection Hs as <-. exists false. cbn [trace]. rewrite Hp2. set_solver. }
  destruct Hin as [ok Hin]. exists ok.
  destruct (frame_trace _ _ F2) as (evs & -> & _). set_solver.
Qed.

End Sequence.

(** ** Resolved turns *)

Lemma advance_fields (L : Locals) :
  active_players (advance L) = active_players L /\
  used_words (advance L) = used_words L /\
  last_word_valid (advance L) = last_word_valid L /\
  seq (advance L) = seq L.
Proof. unfold advance. by destruct (_ =? _)%nat. Qed.

(** What a resolved turn is made of, with the worlds in between
    related to the world it started from. *)
Lemma iteration_resolved_worlds (env : Env) (WORDS : gset string)
    (L : Locals) (w : World) (who : nat) (sq word : string) (v : Verdict)
    (L' : Locals) (w' : World) :
  iteration env WORDS L w = Ok (Resolved who sq word v, L') w' ->
  exists w1 w2,
    who ∈ active_players L /\
    0 < lives (heap w !!! who) /\
    connected (heap w !!! who) = true /\
    choose_sequence env WORDS L w = Ok sq w1 /\
    frame w1 w2 /\
    (exists ok,
       ESend (conn (heap w !!! who))
             (MYourTurn (name (heap w !!! who)) sq ROUND_TIME) ok
       ∈ trace w2) /\
    heap w2 !!! who = heap w !!! who /\
    read_response env who w2 = Ok word (received w2) /\
    v = judge WORDS (used_words L) sq word /\
    process_response env WORDS (with_seq sq L) who sq word (received w2)
    = Ok (v, verdict_locals v word (with_seq sq L)) w' /\
    frame (if accepted v then received w2 else after_loss who (received w2))
          w' /\
    L' = advance (verdict_locals v word (with_seq sq L)).
Proof.
  intros H.
  apply iteration_resolved in H
    as (w1 & w2 & w3 & L2 & Hwho & Hl & Hc & Hseq & Hpres & Hread & Hd
        & Hproc & ->).
  destruct (choose_sequence_Ok _ _ _ _ _ _ Hseq) as [(h1 & _) _].
  destruct (read_response_run env who w2) as [word' Hread'].
  fold (received w2) in Hread'.
  rewrite Hread' in Hread. injection Hread as -> <-.
  change (heap (received w2)) with (heap w2) in Hd.
  destruct (present_turn_frame env (with_seq sq L) who sq w1)
    as (w2' & Hpres' & F).
  rewrite Hpres' in Hpres. injection Hpres as ->.
  destruct (present_turn_prompts env _ _ _ _ _ Hpres' Hd) as [Heq Hsent].
  { by rewrite h1. }
  rewrite h1 in Heq, Hsent.
  destruct (process_response_run env WORDS (with_seq sq L) who sq word
              (received w2)) as (w'' & Hproc' & F').
  rewrite Hproc' in Hproc. injection Hproc as <- <- <-.
  exists w1, w2. do 11 (split; [done|]). done.
Qed.

(** C1: on a resolved turn with a non-empty answer, the answer is
    accepted exactly when it contains the sequence, is in the bank and was
    not used before; otherwise it is refused, with the first reason that
    applies in the order: does not contain the sequence, not a valid word,
    already used.  An accepted word joins [used_words] and sets
    [last_word_valid]; a refusal leaves [used_words] alone, clears
    [last_word_valid] and is reported to the player with its reason. *)
Theorem C1_validation
    (env : Env) (WORDS : gset string) (L : Locals) (w : World)
    (who : nat) (sq word : string) (v : Verdict) (L' : Locals) (w' : World) :
  refs_in (active_players L) w ->
  iteration env WORDS L w = Ok (Resolved who sq word v, L') w' ->
  word <> "" ->
  (v = Accepted <->
   Py.str_in sq word = true /\ word ∈ WORDS /\ word ∉ used_words L) /\
  (Py.str_in sq word = false -> v = Rejected (DoesntContain sq)) /\
  (Py.str_in sq word = true -> word ∉ WORDS ->
   v = Rejected NotAValidWord) /\
  (Py.str_in sq word = true -> word ∈ WORDS -> word ∈ used_words L ->
   v = Rejected WordAlreadyUsed) /\
  (v = Accepted ->
   used_words L' = {[ word ]} ∪ used_words L /\
   last_word_valid L' = true) /\
  (forall r, v = Rejected r ->
   used_words L' = used_words L /\ last_word_valid L' = false /\
   exists ok,
     ESend (conn (heap w !!! who))
           (MWrong r (lives (heap w !!! who) - 1)) ok ∈ trace w').
Proof.
  intros Hrefs H Hword.
  apply iteration_resolved_worlds in H
    as (w1 & w2 & Hwho & Hl & Hc & Hseq & F & _ & Heq & _ & Hv & Hproc & _
        & ->).
  destruct (advance_fields (verdict_locals v word (with_seq sq L)))
    as (_ & -> & -> & _).
  unfold verdict_locals.
  assert (Hj : v = if Py.str_in sq word
                      && bool_decide (word ∈ WORDS)
                      && negb (bool_decide (word ∈ used_words L))
                   then Accepted
                   else Rejected (reason_for WORDS (used_words L) sq word)).
  { rewrite Hv. unfold judge. by rewrite bool_decide_eq_false_2. }
  assert (Hr : reason_for WORDS (used_words L) sq word
               = if negb (Py.str_in sq word) then DoesntContain sq
                 else if negb (bool_decide (word ∈ WORDS)) then NotAValidWord
                 else if bool_decide (word ∈ used_words L)
                      then WordAlreadyUsed else InvalidWord).
  { unfold reason_for. by rewrite bool_decide_eq_false_2. }
  rewrite Hr in Hj. clear Hr Hv.
  destruct (Py.str_in sq word) eqn:Hin;
    destruct (bool_decide_reflect (word ∈ WORDS)) as [HW|HW];
    destruct (bool_decide_reflect (word ∈ used_words L)) as [HU|HU];
    simpl in Hj; subst v; simpl;
    (split; [split; [try done; by intros _|by intros (? & ? & ?)]|]);
    (split; [done|]); (split; [done|]); (split; [done|]);
    (split; [done|]); intros r [= <-]; (split; [done|]); (split; [done|]).
  all: assert (Hlt : (who < length (heap (received w2)))%nat)
         by (destruct (choose_sequence_Ok _ _ _ _ _ _ Hseq) as [(h1 & _) _];
             change (heap (received w2)) with (heap w2);
             rewrite (frame_length _ _ F), h1; by apply Hrefs).
  all: destruct (process_response_tells env _ _ _ _ _ _ _ _ _ Hlt
                   ltac:(change (heap (received w2)) with (heap w2);
                         by rewrite Heq) Hproc) as [ok Hok];
       change (heap (received w2)) with (heap w2) in Hok;
       rewrite Heq in Hok; by exists ok.
Qed.

Lemma refs_in_duo (w : World) :
  length (heap w) = 2%nat -> refs_in [0%nat; 1%nat] w.
Proof.
  intros Hl r Hr. rewrite Hl.
  apply elem_of_cons in Hr as [->|Hr]; [lia|].
  apply list_elem_of_singleton in Hr as ->. lia.
Qed.

Lemma C1_witness :
  exists v L' w',
    iteration env_cat {[ "cat" ]} locals_duo (world_of duo)
    = Ok (Resolved 0 "ca" "cat" v, L') w' /\
    (v = Accepted <->
     Py.str_in "ca" "cat" = true /\ "cat" ∈ ({[ "cat" ]} : gset string) /\
     "cat" ∉ used_words locals_duo).
Proof.
  eexists _, _, _. split; [vm_compute; reflexivity|].
  eapply (C1_validation env_cat {[ "cat" ]} locals_duo (world_of duo)).
  - by apply refs_in_duo.
  - vm_compute; reflexivity.
  - discriminate.
Defined.

(** ** Lives *)

Lemma lost_lives_lookup (h : list Player) (i : nat) (q : Player) (n : Z) :
  h !! i = Some q \/ h !! i = Some (lost q) -> lives q = n ->
  exists p', h !! i = Some p' /\ lives p' = n.
Proof. intros [H|H] Hl; eauto. Qed.

(** The lives after a resolved turn. *)
Lemma resolved_lives (env : Env) (WORDS : gset string)
    (L : Locals) (w : World) (who : nat) (sq word : string) (v : Verdict)
    (L' : Locals) (w' : World) :
  iteration env WORDS L w = Ok (Resolved who sq word v, L') w' ->
  active_players L' = active_players L /\
  length (heap w') = length (heap w) /\
  forall i p, heap w !! i = Some p ->
    exists p', heap w' !! i = Some p' /\
      lives p' = if bool_decide (i = who) && negb (accepted v)
                 then lives p - 1 else lives p.
Proof.
  intros H.
  apply iteration_resolved_worlds in H
    as (w1 & w2 & Hwho & Hl & Hc & Hseq & F & _ & Heq & _ & Hv & _ & F'
        & ->).
  destruct (choose_sequence_Ok _ _ _ _ _ _ Hseq) as [(h1 & _) _].
  split; [|split].
  - destruct (advance_fields (verdict_locals v word (with_seq sq L)))
      as (-> & _). unfold verdict_locals. by destruct (accepted v).
  - rewrite (frame_length _ _ F'), <- h1, <- (frame_length _ _ F).
    destruct (accepted v); [done|]. apply length_alter.
  - intros i p Hp. rewrite <- h1 in Hp.
    destruct (frame_heap _ _ F i p Hp) as [H2|H2].
    + destruct (accepted v); simpl.
      * rewrite andb_false_r.
        apply (lost_lives_lookup _ _ p); [|done].
        by apply (frame_heap _ _ F').
      * rewrite andb_true_r.
        pose proof (after_loss_lookup who (received w2) i p H2) as H3.
        apply (frame_heap _ _ F') in H3.
        eapply lost_lives_lookup; [exact H3|].
        destruct (decide (i = who)) as [->|Hne].
        -- by rewrite bool_decide_eq_true_2.
        -- by rewrite bool_decide_eq_false_2.
    + destruct (accepted v); simpl.
      * rewrite andb_false_r.
        apply (lost_lives_lookup _ _ (lost p)); [|done].
        by apply (frame_heap _ _ F').
      * rewrite andb_true_r.
        pose proof (after_loss_lookup who (received w2) i _ H2) as H3.
        apply (frame_heap _ _ F') in H3.
        eapply lost_lives_lookup; [exact H3|].
        destruct (decide (i = who)) as [->|Hne].
        -- by rewrite bool_decide_eq_true_2.
        -- by rewrite bool_decide_eq_false_2.
Qed.

(** The references of [active_players] stay inside the heap. *)
Lemma reachable_refs_in (env : Env) (WORDS : gset string) (w0 : World)
    (L : Locals) (w : World) :
  reachable env WORDS w0 L w -> refs_in (active_players L) w.
Proof.
  induction 1 as [L w Hs|L w s L' w' Hr IH Hc Hi].
  - destruct (start_game_frame env w0) as (w1 & Hs' & F).
    rewrite Hs' in Hs. injection Hs as <- <-. simpl.
    intros r Hin. apply list_elem_of_In, filter_In in Hin as [Hin _].
    apply in_seq in Hin. rewrite (frame_length _ _ F). lia.
  - destruct s as [who|who sq word v].
    + apply iteration_skipped in Hi as (-> & -> & _). exact IH.
    + apply resolved_lives in Hi as (-> & Hlen & _).
      intros r Hin. rewrite Hlen. by apply IH.
Qed.

Lemma reachable_lives (env : Env) (WORDS : gset string) (w0 : World)
    (L : Locals) (w : World) :
  Forall (fun p => lives p = LIVES_PER_PLAYER) (heap w0) ->
  reachable env WORDS w0 L w ->
  Forall (fun p => 0 <= lives p) (heap w).
Proof.
  intros H0. induction 1 as [L w Hs|L w s L' w' Hr IH Hc Hi].
  - destruct (start_game_frame env w0) as (w1 & Hs' & F).
    rewrite Hs' in Hs. injection Hs as _ <-.
    apply Forall_lookup_2. intros i p Hp.
    assert (Hlt : (i < length (heap w0))%nat).
    { rewrite <- (frame_length _ _ F). by eapply lookup_lt_Some. }
    destruct (lookup_lt_is_Some_2 _ _ Hlt) as [q Hq].
    pose proof (Forall_lookup_1 _ _ _ _ H0 Hq) as Hl. simpl in Hl.
    destruct (frame_heap _ _ F i q Hq) as [H|H];
      rewrite H in Hp; injection Hp as <-; simpl; rewrite Hl; done.
  - destruct s as [who|who sq word v].
    + by apply iteration_skipped in Hi as (-> & _).
    + pose proof Hi as Hi'.
      apply iteration_resolved in Hi'
        as (_ & _ & _ & _ & _ & Hpos & _).
      apply resolved_lives in Hi as (_ & Hlen & Hlives).
      apply Forall_lookup_2. intros i p' Hp'.
      assert (Hlt : (i < length (heap w))%nat).
      { rewrite <- Hlen. by eapply lookup_lt_Some. }
      destruct (lookup_lt_is_Some_2 _ _ Hlt) as [p Hp].
      destruct (Hlives i p Hp) as (p'' & Hp'' & Hl).
      rewrite Hp'' in Hp'. injection Hp' as ->.
      pose proof (Forall_lookup_1 _ _ _ _ IH Hp) as Hnn. simpl in Hnn.
      rewrite Hl. destruct (bool_decide_reflect (i = who)) as [->|?];
        simpl; [|done].
      rewrite (lookup_total_some _ _ _ Hp) in Hpos.
      destruct (accepted v); simpl; lia.
Qed.

(** C2: in every state the game loop reaches, no player has negative
    lives; and from such a state a resolved turn whose verdict is a
    timeout or a refusal takes exactly one life from the acting player and
    leaves everybody else's lives as they were, while an accepted answer
    leaves all lives as they were. *)
Theorem C2_lives
    (env : Env) (WORDS : gset string) (w0 : World) (L : Locals) (w : World) :
  Forall (fun p => lives p = LIVES_PER_PLAYER) (heap w0) ->
  reachable env WORDS w0 L w ->
  Forall (fun p => 0 <= lives p) (heap w) /\
  forall who sq word v L' w',
    iteration env WORDS L w = Ok (Resolved who sq word v, L') w' ->
    (exists p, heap w !! who = Some p) /\
    length (heap w') = length (heap w) /\
    forall i p, heap w !! i = Some p ->
      exists p', heap w' !! i = Some p' /\
        lives p' = match v with
                   | Accepted => lives p
                   | Timeout | Rejected _ =>
                       if bool_decide (i = who) then lives p - 1 else lives p
                   end.
Proof.
  intros H0 Hr. split; [by eapply reachable_lives|].
  intros who sq word v L' w' Hi. split; [|split].
  - apply lookup_lt_is_Some_2.
    apply (reachable_refs_in _ _ _ _ _ Hr).
    by apply iteration_resolved in Hi as (_ & _ & _ & _ & ? & _).
  - by apply resolved_lives in Hi as (_ & ? & _).
  - apply resolved_lives in Hi as (_ & _ & Hl).
    intros i p Hp. destruct (Hl i p Hp) as (p' & Hp' & Hlp).
    exists p'. split; [done|]. rewrite Hlp.
    destruct v; simpl; by rewrite ?andb_true_r, ?andb_false_r.
Qed.

Lemma C2_witness :
  Forall (fun p => 0 <= lives p) (heap start_duo_world) /\
  exists L' w' p',
    iteration env_zero {[ "cat" ]} locals_duo start_duo_world
    = Ok (Resolved 0 "ca" "" Timeout, L') w' /\
    heap w' !! 0%nat = Some p' /\ lives p' = 2.
Proof.
  assert (Hr : reachable env_zero {[ "cat" ]} (world_of duo)
                 locals_duo start_duo_world).
  { apply reach_start. vm_compute. reflexivity. }
  destruct (C2_lives env_zero {[ "cat" ]} (world_of duo)
              locals_duo start_duo_world) as [Hinv Hstep];
    [by repeat constructor|exact Hr|].
  split; [exact Hinv|].
  assert (Hi : exists L' w',
             iteration env_zero {[ "cat" ]} locals_duo start_duo_world
             = Ok (Resolved 0 "ca" "" Timeout, L') w').
  { eexists _, _. vm_compute. reflexivity. }
  destruct Hi as (L' & w' & Hi).
  destruct (Hstep _ _ _ _ _ _ Hi) as (_ & _ & Hl).
  destruct (Hl 0%nat (new_player 0 "" "ann") eq_refl) as (p' & Hp' & Hlp).
  exists L', w', p'. split; [exact Hi|]. split; [exact Hp'|].
  rewrite Hlp. reflexivity.
Defined.

(** ** Sequence policy *)

(** C5: the first turn finds [last_word_valid] set.  On a turn, when
    [last_word_valid] is set the sequence is a fresh one from
    [get_random_sequence]; when it is not, no draw is made and the
    sequence is the one kept from the turn before.  On a non-empty bank a
    draw is made exactly when [last_word_valid] is set.  Either way the
    sequence is the one sent to the acting player and the one remembered
    for the next turn; an iteration that skips a player changes neither
    the sequence nor [last_word_valid]. *)
Theorem C5_sequence_policy (env : Env) (WORDS : gset string) :
  (forall w L w', start_game env w = Ok L w' -> last_word_valid L = true) /\
  (forall L w who sq word v L' w',
     iteration env WORDS L w = Ok (Resolved who sq word v, L') w' ->
     seq L' = Some sq /\
     (last_word_valid L = true ->
      exists w1, get_random_sequence env WORDS w = Ok sq w1) /\
     (last_word_valid L = false ->
      seq L = Some sq /\ n_rand w' = n_rand w) /\
     (WORDS <> ∅ ->
      ((n_rand w < n_rand w')%nat <-> last_word_valid L = true)) /\
     (exists ok,
        ESend (conn (heap w !!! who))
              (MYourTurn (name (heap w !!! who)) sq ROUND_TIME) ok
        ∈ trace w')) /\
  (forall L w who L' w',
     iteration env WORDS L w = Ok (Skipped who, L') w' ->
     seq L' = seq L /\ last_word_valid L' = last_word_valid L /\ w' = w).
Proof.
  split; [|split].
  - intros w L w' H.
    destruct (start_game_frame env w) as (w1 & Hs & _).
    rewrite Hs in H. by injection H as <- _.
  - intros L w who sq word v L' w' H.
    apply iteration_resolved_worlds in H
      as (w1 & w2 & _ & _ & _ & Hseq & F & Hsent & _ & _ & _ & _ & F' & ->).
    destruct (choose_sequence_Ok _ _ _ _ _ _ Hseq)
      as [(_ & _ & _ & _ & _ & Hle) [Hfresh Hkept]].
    assert (Hrand : n_rand w' = n_rand w1).
    { rewrite (frame_rand _ _ F'), <- (frame_rand _ _ F).
      by destruct (accepted v). }
    split; [|split; [|split; [|split]]].
    + destruct (advance_fields (verdict_locals v word (with_seq sq L)))
        as (_ & _ & _ & ->). unfold verdict_locals. by destruct (accepted v).
    + intros Hv. destruct (Hfresh Hv) as [Hg _]. eauto.
    + intros Hv. destruct (Hkept Hv) as [Hs ->]. done.
    + intros Hne. rewrite Hrand. split.
      * intros Hlt. destruct (last_word_valid L); [done|].
        destruct (Hkept eq_refl) as [_ ->]. lia.
      * intros Hv. destruct (Hfresh Hv) as [_ Hlt]. by apply Hlt.
    + destruct Hsent as [ok Hin]. exists ok.
      destruct (frame_trace _ _ F') as (evs & -> & _).
      apply elem_of_app. right. by destruct (accepted v).
  - intros L w who L' w' H.
    by apply iteration_skipped in H as (-> & -> & _).
Qed.

(** ** Fail-fast shutdown *)

Lemma close_all_run (xs : list nat) (w : World) :
  exists w', close_all xs w = Ok tt w' /\
    heap w' = heap w /\
    forall c, c ∈ closed w' <->
              c ∈ closed w \/ exists r, r ∈ xs /\ c = conn (heap w !!! r).
Proof.
  revert w; induction xs as [|r xs IH]; intros w.
  - exists w. split; [done|]. split; [done|]. intros c. split; [by left|].
    intros [H|(r & Hr & _)]; [done|]. by apply not_elem_of_nil in Hr.
  - simpl. unfold bind, deref, close.
    set (w1 := {| heap := heap w; trace := EClose _ :: trace w |}).
    destruct (IH w1) as (w' & -> & Hh & Hc).
    exists w'. split; [done|]. split; [done|].
    intros c. rewrite Hc.
    change (closed w1) with (conn (heap w !!! r) :: closed w).
    change (heap w1) with (heap w).
    rewrite elem_of_cons. split.
    + intros [[->|H]|(r' & Hr' & ->)].
      * right. exists r. split; [apply list_elem_of_here|done].
      * by left.
      * right. exists r'. split; [by apply list_elem_of_further|done].
    + intros [H|(r' & [->|Hr']%elem_of_cons & ->)].
      * left. by right.
      * left. by left.
      * right. by exists r'.
Qed.

(** The common tail of the two shutdowns: tell everybody, close every
    socket, exit with status 1. *)
Lemma shutdown_run (env : Env) (A : Type) (msg : Msg) (w : World) :
  exists w',
    (let* ps := players in
     broadcast env ps msg ;; close_all ps ;; @os_exit A 1) w
    = Exit 1 w' /\
    all_closed w w' /\ same_lives w w'.
Proof.
  unfold bind at 1, players.
  unfold bind at 1.
  destruct (broadcast_frame env (List.seq 0 (length (heap w))) msg w)
    as (w1 & -> & F).
  unfold bind.
  destruct (close_all_run (List.seq 0 (length (heap w))) w1)
    as (w2 & -> & Hh & Hc).
  exists w2. split; [done|]. split.
  - intros i p Hp. apply Hc. right.
    assert (Hlt : (i < length (heap w))%nat) by (by eapply lookup_lt_Some).
    exists i. split; [apply list_elem_of_In, in_seq; lia|].
    destruct (frame_heap _ _ F i p Hp) as [H|H];
      by rewrite (lookup_total_some _ _ _ H).
  - destruct (frame_same_lives _ _ F) as [Hl Hs].
    split; rewrite Hh; done.
Qed.

Lemma fail_fast_run (env : Env) (A : Type) (player : nat) (w : World) :
  exists w', @fail_fast env A player w = Exit 1 w' /\
             all_closed w w' /\ same_lives w w'.
Proof.
  unfold fail_fast. unfold bind at 1 2 3, update, deref.
  set (w1 := with_heap _ _).
  destruct (shutdown_run env A (MDisconnected (name (heap w1 !!! player))) w1)
    as (w' & -> & Hc & Hl).
  assert (Hlook : forall i p, heap w !! i = Some p ->
            heap w1 !! i = Some (if decide (i = player) then lost p else p)).
  { intros i p Hp. subst w1. unfold with_heap; simpl.
    rewrite list_alter_alter_eq. by apply (alter_lost_lookup _ _ _ _ Hp). }
  exists w'. split; [done|]. split.
  - intros i p Hp. specialize (Hc i _ (Hlook i p Hp)).
    by destruct (decide (i = player)).
  - destruct Hl as [Hlen Hl]. split.
    + rewrite Hlen. subst w1. unfold with_heap; simpl.
      by rewrite !length_alter.
    + intros i p Hp. destruct (Hl i _ (Hlook i p Hp)) as (p' & Hp' & Hlp).
      exists p'. split; [done|]. rewrite Hlp. by destruct (decide (i = player)).
Qed.

Lemma check_disconnected_run (env : Env) (who : nat) (w : World) :
  disconnected (heap w !!! who) = true ->
  exists w', check_disconnected env who w = Exit 1 w' /\
             all_closed w w' /\ same_lives w w'.
Proof.
  intros Hd. unfold check_disconnected. unfold bind at 1, deref.
  rewrite Hd. apply shutdown_run.
Qed.

Lemma same_lives_trans (w1 w2 w3 : World) :
  same_lives w1 w2 -> same_lives w2 w3 -> same_lives w1 w3.
Proof.
  intros [L1 H1] [L2 H2]. split; [congruence|].
  intros i p Hp. destruct (H1 i p Hp) as (q & Hq & Hl).
  destruct (H2 i q Hq) as (r & Hr & Hl'). exists r. split; [done|congruence].
Qed.

Lemma randint_no_exit (env : Env) (a b : Z) (w : World) (c : Z) (w' : World) :
  randint env a b w <> Exit c w'.
Proof. unfold randint. by destruct (b <? a). Qed.

Lemma get_random_sequence_no_exit (env : Env) (WORDS : gset string)
    (w : World) (c : Z) (w' : World) :
  get_random_sequence env WORDS w <> Exit c w'.
Proof.
  unfold get_random_sequence. destruct (bool_decide _); [done|].
  intros H. apply bind_Exit in H as [H|(word & w1 & _ & H)].
  { unfold random_choice in H. by destruct (elements WORDS). }
  destruct (Py.len word =? 2); [done|].
  apply bind_Exit in H as [H|(len & w2 & _ & H)].
  { by apply randint_no_exit in H. }
  apply bind_Exit in H as [H|(start & w3 & _ & H)]; [|done].
  by apply randint_no_exit in H.
Qed.

(** An iteration stops the server only through the check of line 305. *)
Lemma iteration_exit (env : Env) (WORDS : gset string) (L : Locals)
    (w : World) (c : Z) (w' : World) :
  iteration env WORDS L w = Exit c w' ->
  c = 1 /\ all_closed w w' /\ same_lives w w'.
Proof.
  unfold iteration. intros H.
  apply bind_Exit in H as [H|(who & w0 & Hcur & H)].
  { unfold current_player in H. destruct (_ =? _)%nat; [done|].
    by destruct (_ !! _). }
  apply current_player_Ok in Hcur as [-> _].
  apply bind_Exit in H as [H|(p & w0 & [= <- <-] & H)]; [done|].
  destruct (_ || _ || _); [done|].
  apply bind_Exit in H as [H|(sq & w1 & Hseq & H)].
  { unfold choose_sequence in H. destruct (last_word_valid L).
    - by apply get_random_sequence_no_exit in H.
    - by destruct (seq L). }
  destruct (choose_sequence_Ok _ _ _ _ _ _ Hseq) as [(h1 & _) _].
  destruct (present_turn_frame env (with_seq sq L) who sq w1)
    as (w2 & Hpres & F).
  apply bind_Exit in H as [H|(u & w2' & Hpres' & H)]; [congruence|].
  destruct u.
  rewrite Hpres in Hpres'. injection Hpres' as <-.
  destruct (read_response_run env who w2) as [word Hread].
  fold (received w2) in Hread.
  apply bind_Exit in H as [H|(word' & w3 & Hread' & H)]; [congruence|].
  rewrite Hread in Hread'. injection Hread' as <- <-.
  assert (Hback : same_lives w (received w2)).
  { destruct (frame_same_lives _ _ F) as [Hl Hs]. split.
    - change (heap (received w2)) with (heap w2). by rewrite Hl, h1.
    - intros i p Hp. rewrite <- h1 in Hp. by apply Hs. }
  apply bind_Exit in H as [H|(u & w4 & Hchk & H)]; [|destruct u].
  - destruct (disconnected (heap (received w2) !!! who)) eqn:Hd.
    + destruct (check_disconnected_run env who _ Hd) as (w'' & Hx & Hc & Hl).
      rewrite Hx in H. injection H as <- <-.
      split; [done|]. split; [|by eapply same_lives_trans].
      intros i p Hp. rewrite <- h1 in Hp.
      destruct (frame_heap _ _ F i p Hp) as [Hq|Hq];
        apply (Hc i _ Hq).
    + unfold check_disconnected, bind, deref in H. by rewrite Hd in H.
  - destruct (process_response_run env WORDS (with_seq sq L) who sq word w4)
      as (w5 & Hproc & _).
    apply check_disconnected_Ok in Hchk as [-> _].
    apply bind_Exit in H as [H|(vl & w6 & _ & H)]; [congruence|done].
Qed.

(** The acting player found disconnected once its turn was presented:
    the iteration stops the server. *)
Lemma iteration_disconnected (env : Env) (WORDS : gset string) (L : Locals)
    (w : World) (who : nat) (sq : string) (w1 w2 : World) :
  current_player L w = Ok who w ->
  in_game (heap w !!! who) = true ->
  choose_sequence env WORDS L w = Ok sq w1 ->
  present_turn env (with_seq sq L) who sq w1 = Ok tt w2 ->
  disconnected (heap w2 !!! who) = true ->
  exists w', iteration env WORDS L w = Exit 1 w'.
Proof.
  intros Hcur Hg Hseq Hpres Hd.
  destruct (read_response_run env who w2) as [word Hread].
  fold (received w2) in Hread.
  destruct (check_disconnected_run env who (received w2) Hd)
    as (w' & Hx & _).
  exists w'. unfold iteration. unfold bind at 1. rewrite Hcur.
  unfold bind at 1, deref.
  unfold in_game in Hg. apply andb_true_iff in Hg as [Hg Hl].
  apply andb_true_iff in Hg as [Ha Hdis]. apply negb_true_iff in Hdis.
  apply Z.ltb_lt in Hl.
  destruct (Z.leb_spec (lives (heap w !!! who)) 0) as [?|_]; [lia|].
  rewrite Ha, Hdis. cbn [negb orb].
  unfold bind at 1. rewrite Hseq.
  unfold bind at 1. rewrite Hpres.
  unfold bind at 1. rewrite Hread.
  unfold bind at 1. by rewrite Hx.
Qed.

(** The paths on which the server does fail fast: a lobby listener whose
    read fails, times out or meets the end of the stream (whether or not
    the game has started by then), and the game loop that finds the acting
    player marked disconnected after its read.  On each of them every
    socket is closed and the server exits with status 1 with nobody's lives
    changed; the game loop ends there, so no turn is resolved afterwards.
    An iteration that stops the server does so in this way. *)
Lemma shutdown_paths (env : Env) :
  (forall player r w,
     r = RecvData "" \/ r = RecvTimeout \/ r = RecvError ->
     exists w', handle_player_received env player r w = Exit 1 w' /\
                all_closed w w' /\ same_lives w w') /\
  (forall who w,
     disconnected (heap w !!! who) = true ->
     exists w', check_disconnected env who w = Exit 1 w' /\
                all_closed w w' /\ same_lives w w') /\
  (forall WORDS L w who sq w1 w2,
     current_player L w = Ok who w ->
     in_game (heap w !!! who) = true ->
     choose_sequence env WORDS L w = Ok sq w1 ->
     present_turn env (with_seq sq L) who sq w1 = Ok tt w2 ->
     disconnected (heap w2 !!! who) = true ->
     exists w', iteration env WORDS L w = Exit 1 w') /\
  (forall WORDS L w c w',
     iteration env WORDS L w = Exit c w' ->
     c = 1 /\ all_closed w w' /\ same_lives w w' /\
     forall fuel,
       loop_cond L w = Ok true w ->
       game_loop env WORDS (S fuel) L w = Exit 1 w').
Proof.
  split; [|split; [|split]].
  - intros player r w [-> | [-> | ->]]; apply fail_fast_run.
  - apply check_disconnected_run.
  - apply iteration_disconnected.
  - intros WORDS L w c w' H.
    destruct (iteration_exit _ _ _ _ _ _ H) as (-> & Hc & Hl).
    do 3 (split; [done|]). intros fuel Hgo.
    cbn [game_loop]. unfold bind at 1. rewrite Hgo. simpl.
    unfold bind. by rewrite H.
Qed.

(** A send that fails on a player other than the acting one only marks
    that player (lines 82-84): [sendall] fails on socket 1 while the turn
    of player 0 is presented; player 1 is marked as lost, the turn is
    resolved all the same, no socket is closed and the server goes on. *)
Lemma failed_send_goes_on :
  exists L' w',
    iteration env_drop1 {[ "cat" ]} locals_duo (world_of duo)
    = Ok (Resolved 0 "ca" "cat" Accepted, L') w' /\
    ESend 1 (MRound 1) false ∈ trace w' /\
    heap w' !! 1%nat = Some (lost (new_player 1 "" "bob")) /\
    closed w' = [].
Proof.
  eexists _, _. split; [vm_compute; reflexivity|].
  split; [|split; reflexivity].
  cbn [trace].
  repeat (first [apply list_elem_of_here | apply list_elem_of_further]).
Qed.

(** What the read of lines 285-300 hands over when it raises or returns
    no data. *)
Lemma read_response_failed (env : Env) (who : nat) (w : World) :
  env_recv env (n_recv w) (conn (heap w !!! who)) = RecvError \/
  env_recv env (n_recv w) (conn (heap w !!! who)) = RecvData "" ->
  read_response env who w = Ok "" (received w).
Proof.
  intros H. unfold read_response, bind, deref, recv, ret, received.
  by destruct H as [-> | ->].
Qed.

(** C6: the in-game half of the claim fails on the read of the acting
    player.  When that read raises or returns no data (the peer has closed
    or reset the connection) and no send to the player had failed before,
    lines 289-300 set [word] to the empty string and the check of line 305
    finds the flag unset: the turn is resolved as a timeout, the player
    loses a life, no socket is closed, the server does not stop, and the
    game loop goes on to the next turn. *)
Theorem C6_failed_read_goes_on
    (env : Env) (WORDS : gset string) (L : Locals) (w : World)
    (who : nat) (sq : string) (w1 w2 : World) :
  refs_in (active_players L) w ->
  current_player L w = Ok who w ->
  in_game (heap w !!! who) = true ->
  choose_sequence env WORDS L w = Ok sq w1 ->
  present_turn env (with_seq sq L) who sq w1 = Ok tt w2 ->
  disconnected (heap w2 !!! who) = false ->
  env_recv env (n_recv w) (conn (heap w !!! who)) = RecvError \/
  env_recv env (n_recv w) (conn (heap w !!! who)) = RecvData "" ->
  exists L' w',
    iteration env WORDS L w = Ok (Resolved who sq "" Timeout, L') w' /\
    closed w' = closed w /\
    lives (heap w' !!! who) = lives (heap w !!! who) - 1 /\
    forall fuel,
      loop_cond L w = Ok true w ->
      game_loop env WORDS (S fuel) L w = game_loop env WORDS fuel L' w'.
Proof.
  intros Hrefs Hcur Hg Hseq Hpres Hd Hrecv.
  pose proof Hcur as Hcur'. apply current_player_Ok in Hcur' as [_ Hin].
  pose proof (Hrefs who Hin) as Hlt.
  destruct (choose_sequence_Ok _ _ _ _ _ _ Hseq)
    as [(h1 & _ & t1 & _ & r1 & _) _].
  destruct (present_turn_frame env (with_seq sq L) who sq w1)
    as (w2' & Hpres' & F).
  rewrite Hpres' in Hpres. injection Hpres as ->.
  assert (Hc : connected (heap w !!! who) = true).
  { unfold in_game in Hg. apply andb_true_iff in Hg as [Hg _].
    exact Hg. }
  destruct (present_turn_prompts env _ _ _ _ _ Hpres' Hd) as [Heq _].
  { by rewrite h1. }
  rewrite h1 in Heq.
  assert (Hread : read_response env who w2 = Ok "" (received w2)).
  { apply read_response_failed.
    by rewrite Heq, (frame_recv _ _ F), r1. }
  destruct (process_response_run env WORDS (with_seq sq L) who sq ""
              (received w2)) as (w' & Hproc & F').
  change (judge WORDS (used_words (with_seq sq L)) sq "") with Timeout
    in Hproc, F'.
  cbn [accepted] in Hproc, F'.
  assert (Hit : iteration env WORDS L w
                = Ok (Resolved who sq "" Timeout,
                      advance (with_last_word_valid false (with_seq sq L)))
                     w').
  { unfold iteration. unfold bind at 1. rewrite Hcur.
    unfold bind at 1, deref.
    unfold in_game in Hg. apply andb_true_iff in Hg as [Hg Hl].
    apply andb_true_iff in Hg as [Ha Hdis]. apply negb_true_iff in Hdis.
    apply Z.ltb_lt in Hl.
    destruct (Z.leb_spec (lives (heap w !!! who)) 0) as [?|_]; [lia|].
    rewrite Ha, Hdis. cbn [negb orb].
    unfold bind at 1. rewrite Hseq.
    unfold bind at 1. rewrite Hpres'.
    unfold bind at 1. rewrite Hread.
    unfold bind at 1.
    assert (Hchk : check_disconnected env who (received w2)
                   = Ok tt (received w2)).
    { unfold check_disconnected, bind, deref.
      change (heap (received w2)) with (heap w2). by rewrite Hd. }
    rewrite Hchk. unfold bind. by rewrite Hproc. }
  eexists _, w'. split; [exact Hit|]. split; [|split].
  - rewrite (frame_closed _ _ F').
    change (closed (after_loss who (received w2))) with (closed w2).
    rewrite (frame_closed _ _ F). unfold closed. by rewrite t1.
  - assert (Hlt2 : (who < length (heap (received w2)))%nat).
    { change (heap (received w2)) with (heap w2).
      by rewrite (frame_length _ _ F), h1. }
    pose proof (after_loss_total who (received w2) Hlt2) as Hal.
    change (heap (received w2)) with (heap w2) in Hal.
    rewrite Heq in Hal.
    destruct (frame_lookup_total _ _ who F') as [Hw|Hw];
      rewrite Hw, Hal; reflexivity.
  - intros fuel Hgo. cbn [game_loop]. unfold bind at 1. rewrite Hgo.
    simpl. unfold bind. by rewrite Hit.
Qed.

(** The run: two players, every send goes through, every read raises.
    The first turn is resolved as a timeout of player 0, and the whole
    match is played in this way to the announcement of a winner without a
    socket being closed. *)
Lemma C6_witness :
  (exists L' w',
     iteration env_broken {[ "cat" ]} locals_duo (world_of duo)
     = Ok (Resolved 0 "ca" "" Timeout, L') w' /\
     closed w' = [] /\
     lives (heap w' !!! 0%nat) = 2) /\
  (exists w',
     play env_broken {[ "cat" ]} 6 (world_of duo) = Ok (Some 1%nat) w' /\
     closed w' = [] /\
     lives <$> heap w' = [0; 1]).
Proof.
  split.
  - assert (H : exists w1 w2,
               choose_sequence env_broken ({[ "cat" ]} : gset string)
                 locals_duo (world_of duo) = Ok "ca" w1 /\
               present_turn env_broken (with_seq "ca" locals_duo) 0 "ca" w1
               = Ok tt w2 /\
               disconnected (heap w2 !!! 0%nat) = false).
    { eexists _, _. split; [vm_compute; reflexivity|].
      split; [vm_compute; reflexivity|reflexivity]. }
    destruct H as (w1 & w2 & Hseq & Hpres & Hd).
    destruct (C6_failed_read_goes_on env_broken {[ "cat" ]} locals_duo
                (world_of duo) 0 "ca" w1 w2)
      as (L' & w' & Hit & Hc & Hl & _).
    + by apply refs_in_duo.
    + reflexivity.
    + reflexivity.
    + exact Hseq.
    + exact Hpres.
    + exact Hd.
    + left. reflexivity.
    + exists L', w'. split; [exact Hit|]. split; [exact Hc|exact Hl].
  - eexists. split; [vm_compute; reflexivity|]. split; reflexivity.
Defined.

Lemma C5_witness :
  exists v L' w',
    iteration env_cat {[ "cat" ]} locals_duo (world_of duo)
    = Ok (Resolved 0 "ca" "cat" v, L') w' /\
    seq L' = Some "ca" /\
    exists w1, get_random_sequence env_cat {[ "cat" ]} (world_of duo)
               = Ok "ca" w1.
Proof.
  assert (H : exists v L' w',
             iteration env_cat {[ "cat" ]} locals_duo (world_of duo)
             = Ok (Resolved 0 "ca" "cat" v, L') w').
  { eexists _, _, _. vm_compute; reflexivity. }
  destruct H as (v & L' & w' & H). exists v, L', w'. split; [exact H|].
  destruct (proj1 (proj2 (C5_sequence_policy env_cat {[ "cat" ]}))
              _ _ _ _ _ _ _ _ H) as (Hs & Hfresh & _).
  split; [exact Hs|]. by apply Hfresh.
Defined.

(** ** End of the match *)

(** The players of [active_players] that are still in the game. *)
Lemma loop_cond_run (L : Locals) (w : World) :
  loop_cond L w
  = Ok (1 <? length (List.filter (fun r => in_game (heap w !!! r))
                                 (active_players L)))%nat w.
Proof. done. Qed.

(** The loop is left normally only when at most one player is still in
    the game. *)
Lemma game_loop_leaves (env : Env) (WORDS : gset string) (fuel : nat)
    (L : Locals) (w : World) (L' : Locals) (w' : World) :
  game_loop env WORDS fuel L w = Ok (Some L') w' ->
  (length (List.filter (fun r => in_game (heap w' !!! r))
                       (active_players L')) <= 1)%nat.
Proof.
  revert L w; induction fuel as [|fuel IH]; intros L w; cbn [game_loop];
    unfold bind at 1; rewrite loop_cond_run;
    destruct (Nat.ltb_spec 1 (length (List.filter
                (fun r => in_game (heap w !!! r)) (active_players L))))
      as [Hgt|Hle]; simpl; try done.
  - by intros [= <- <-].
  - intros H. apply bind_Ok in H as ([s L1] & w1 & _ & H). by eapply IH.
  - by intros [= <- <-].
Qed.

(** When somebody is still in the game the first such player is
    announced as the winner. *)
Lemma game_over_winner (env : Env) (L : Locals) (w : World)
    (r : nat) (w' : World) :
  game_over env L w = Ok r w' ->
  r ∈ active_players L /\ in_game (heap w !!! r) = true.
Proof.
  unfold game_over. unfold bind at 1, pick.
  destruct (List.filter _ _) as [|r' rest] eqn:Hf; [done|].
  intros H.
  apply bind_Ok in H as (? & ? & _ & H).
  apply bind_Ok in H as (? & ? & _ & H).
  apply bind_Ok in H as (? & ? & _ & H).
  apply bind_Ok in H as (? & ? & _ & H).
  apply bind_Ok in H as (? & ? & _ & H).
  injection H as -> _.
  assert (Hin : In r (List.filter (fun r => in_game (heap w !!! r))
                                  (active_players L))).
  { rewrite Hf. by left. }
  apply filter_In in Hin as [Hin Hg]. split; [by apply list_elem_of_In|done].
Qed.

(** When nobody is, the lookup of the winner raises. *)
Lemma game_over_nobody (env : Env) (L : Locals) (w : World) :
  List.filter (fun r => in_game (heap w !!! r)) (active_players L) = [] ->
  game_over env L w = Raise IndexError w.
Proof. intros H. unfold game_over. unfold bind at 1, pick. by rewrite H. Qed.

(** C3: the failing run.  Four players, nobody ever answers.  After ten
    turns players 0 and 1 have no lives left and players 2 and 3 have one
    each.  In the eleventh turn the sends to player 3 fail, which marks it
    as lost, and player 2 times out and loses its last life.  The loop
    ends with nobody in the game, and the lookup of the winner raises
    [IndexError]: no winner is announced. *)
Theorem C3_no_winner_left :
  exists w',
    play env_last_turn {[ "cat" ]} 11 (world_of quartet)
    = Raise IndexError w' /\
    in_game <$> heap w' = [false; false; false; false] /\
    omap (fun e => match e with
                   | ESend _ (MWinner who) _ => Some who
                   | _ => None
                   end) (trace w') = [].
Proof. eexists. split; [vm_compute; reflexivity|]. done. Qed.

Lemma C7_witness :
  (exists w', broadcast env_drop1 [0%nat; 1%nat] MThanks (world_of duo)
              = Ok tt w' /\
              delivery MThanks [0%nat; 1%nat] (world_of duo) w' /\
              heap w' = [new_player 0 "" "ann";
                         lost (new_player 1 "" "bob")]) /\
  (exists w', send_to_player env_drop1 1 MThanks (world_of duo) = Ok tt w' /\
              delivery MThanks [1%nat] (world_of duo) w').
Proof.
  destruct (C7_delivery_is_local env_drop1 [0%nat; 1%nat] 1 MThanks
              (world_of duo)) as ((w' & Hb & Hd) & H2 & _).
  - intros r Hr. simpl.
    apply elem_of_cons in Hr as [->|Hr]; [lia|].
    apply elem_of_cons in Hr as [->|Hr]; [lia|].
    apply list_elem_of_singleton in Hr as ->. lia.
  - split; [|exact H2]. exists w'. split; [exact Hb|]. split; [exact Hd|].
    vm_compute in Hb. by injection Hb as <-.
Defined.

(** * Further properties *)

(** ** A property kept by the primitive steps is kept by the server *)

Section AnyInvariant.

Variable env : Env.
Variable I : World -> Prop.

Hypothesis I_sendall : forall c m, keeps I (sendall env c m).
Hypothesis I_recv : forall c, keeps I (recv env c).
Hypothesis I_close : forall c, keeps I (close c).
Hypothesis I_draw : keeps I (draw env).
Hypothesis I_set_started : keeps I set_started.
Hypothesis I_disconnect : forall r, keeps I (update r (set_disconnected true)).
Hypothesis I_deactivate : forall r, keeps I (update r (set_active false)).
Hypothesis I_lose_life : forall r, keeps I (lose_life r).

#[local] Hint Resolve I_sendall I_recv I_close I_draw I_set_started
  I_disconnect I_deactivate I_lose_life : keeps.

Lemma any_mark_lost (r : nat) : keeps I (mark_lost r).
Proof. unfold mark_lost. keeps_go. Qed.
#[local] Hint Resolve any_mark_lost : keeps.

Lemma any_send_to_player (r : nat) (m : Msg) :
  keeps I (send_to_player env r m).
Proof. unfold send_to_player. keeps_go. Qed.
#[local] Hint Resolve any_send_to_player : keeps.

Lemma any_broadcast (xs : list nat) (m : Msg) :
  keeps I (broadcast env xs m).
Proof.
  induction xs as [|r xs IH]; [apply keeps_ret|].
  change (broadcast env (r :: xs) m)
    with (send_to_player env r m ;; broadcast env xs m).
  keeps_go.
Qed.
#[local] Hint Resolve any_broadcast : keeps.

Lemma any_close_all (xs : list nat) : keeps I (close_all xs).
Proof. induction xs as [|r xs IH]; simpl; keeps_go. Qed.
#[local] Hint Resolve any_close_all : keeps.

Lemma any_fail_fast {A} (r : nat) : keeps I (@fail_fast env A r).
Proof. unfold fail_fast. keeps_go. Qed.
#[local] Hint Resolve any_fail_fast : keeps.

Lemma any_handle_player_received (player : nat) (r : RecvResult) :
  keeps I (handle_player_received env player r).
Proof. unfold handle_player_received. keeps_go. Qed.
#[local] Hint Resolve any_handle_player_received : keeps.

Lemma any_handle_player_pass (player : nat) :
  keeps I (handle_player_pass env player).
Proof. unfold handle_player_pass. keeps_go. Qed.
#[local] Hint Resolve any_handle_player_pass : keeps.

Lemma any_handle_player (fuel player : nat) :
  keeps I (handle_player env fuel player).
Proof. induction fuel as [|fuel IH]; simpl; keeps_go. Qed.

Lemma any_get_random_sequence (WORDS : gset string) :
  keeps I (get_random_sequence env WORDS).
Proof. unfold get_random_sequence, random_choice, randint. keeps_go. Qed.
#[local] Hint Resolve any_get_random_sequence : keeps.

Lemma any_start_game : keeps I (start_game env).
Proof. unfold start_game. keeps_go. Qed.
#[local] Hint Resolve any_start_game : keeps.

Lemma any_process_response (WORDS : gset string) (L : Locals)
    (player : nat) (sq word : string) :
  keeps I (process_response env WORDS L player sq word).
Proof. unfold process_response, others. keeps_go. Qed.
#[local] Hint Resolve any_process_response : keeps.

Lemma any_iteration (WORDS : gset string) (L : Locals) :
  keeps I (iteration env WORDS L).
Proof.
  unfold iteration, current_player, choose_sequence, present_turn,
    read_response, check_disconnected, others.
  keeps_go.
Qed.
#[local] Hint Resolve any_iteration : keeps.

Lemma any_game_loop (WORDS : gset string) (fuel : nat) (L : Locals) :
  keeps I (game_loop env WORDS fuel L).
Proof.
  revert L; induction fuel as [|fuel IH]; intros L; simpl;
    unfold loop_cond; keeps_go.
Qed.
#[local] Hint Resolve any_game_loop : keeps.

Lemma any_game_over (L : Locals) : keeps I (game_over env L).
Proof. unfold game_over. keeps_go. Qed.
#[local] Hint Resolve any_game_over : keeps.

Lemma any_play (WORDS : gset string) (fuel : nat) :
  keeps I (play env WORDS fuel).
Proof. unfold play. keeps_go. Qed.

End AnyInvariant.

(** ** Nobody comes back *)

Lemma later_refl (p : Player) : later p p.
Proof. by repeat split. Qed.

Lemma later_trans (p q r : Player) : later p q -> later q r -> later p r.
Proof.
  intros (c1 & a1 & n1 & d1 & i1 & l1) (c2 & a2 & n2 & d2 & i2 & l2).
  repeat split; try congruence; [by auto..|lia].
Qed.

Lemma roster_later_refl (w : World) : roster_later (heap w) w.
Proof. apply Forall2_same_length_lookup. split; [done|].
  intros i p q Hp Hq. assert (p = q) as -> by congruence. apply later_refl.
Qed.

(** Changing one player into a later state of itself. *)
Lemma roster_later_update (h : list Player) (r : nat) (f : Player -> Player) :
  (forall p, later p (f p)) ->
  keeps (roster_later h) (update r f).
Proof.
  intros Hf w Hw. unfold update, roster_later in *; simpl.
  apply Forall2_same_length_lookup.
  apply Forall2_same_length_lookup in Hw as [Hl Hw].
  split; [by rewrite length_alter|].
  intros i p q Hp Hq.
  destruct (decide (r = i)) as [->|Hne].
  - rewrite list_lookup_alter_eq in Hq.
    destruct (heap w !! i) as [q0|] eqn:Hq0; [|done].
    injection Hq as <-. eapply later_trans; [by eapply Hw|apply Hf].
  - rewrite list_lookup_alter_ne in Hq by done. by eapply Hw.
Qed.

Lemma roster_later_lose_life (h : list Player) (r : nat) :
  keeps (roster_later h) (lose_life r).
Proof.
  intros w Hw. unfold lose_life, bind, deref, update, roster_later in *; simpl.
  apply Forall2_same_length_lookup.
  apply Forall2_same_length_lookup in Hw as [Hl Hw].
  split; [by rewrite length_alter|].
  intros i p q Hp Hq.
  destruct (decide (r = i)) as [->|Hne].
  - rewrite list_lookup_alter_eq in Hq.
    destruct (heap w !! i) as [q0|] eqn:Hq0; [|done].
    injection Hq as <-. rewrite (lookup_total_some _ _ _ Hq0).
    eapply later_trans; [by eapply Hw|].
    repeat split; try done. simpl. lia.
  - rewrite list_lookup_alter_ne in Hq by done. by eapply Hw.
Qed.

(** X1: whatever the match or a lobby listener does, and however it
    ends, every player of the roster keeps its place, socket, address and
    name, a player that was disconnected or inactive stays so, and nobody
    has more lives than before: there is no reconnection, no substitution
    and no way to win lives back. *)
Theorem X1_nobody_comes_back (env : Env) (w : World) :
  (forall WORDS fuel,
     roster_later (heap w) (final_world (play env WORDS fuel w))) /\
  (forall WORDS L,
     roster_later (heap w) (final_world (iteration env WORDS L w))) /\
  (forall fuel player,
     roster_later (heap w)
       (final_world (handle_player env fuel player w))).
Proof.
  assert (Hu : forall r f, (forall p, later p (f p)) ->
                keeps (roster_later (heap w)) (update r f))
    by (intros; by apply roster_later_update).
  assert (Hd : forall r,
             keeps (roster_later (heap w)) (update r (set_disconnected true))).
  { intros r. apply Hu. intros p. by repeat split. }
  assert (Ha : forall r,
             keeps (roster_later (heap w)) (update r (set_active false))).
  { intros r. apply Hu. intros p. by repeat split. }
  pose proof (roster_later_lose_life (heap w)) as Hl.
  pose proof (roster_later_refl w) as Hw.
  split; [|split]; intros;
    [apply (any_play env (roster_later (heap w)))
    |apply (any_iteration env (roster_later (heap w)))
    |apply (any_handle_player env (roster_later (heap w)))];
    try assumption; try (intros; intros w0 H0; exact H0).
Qed.

(** ** The start flag *)

(** X2: once [game_started] is set, nothing the match or a listener does
    clears it again. *)
Theorem X2_started_for_good (env : Env) (w : World) :
  game_started w = true ->
  (forall WORDS fuel,
     game_started (final_world (play env WORDS fuel w)) = true) /\
  (forall WORDS L,
     game_started (final_world (iteration env WORDS L w)) = true) /\
  (forall fuel player,
     game_started (final_world (handle_player env fuel player w)) = true).
Proof.
  intros Hw.
  split; [|split]; intros;
    [apply (any_play env (fun w => game_started w = true))
    |apply (any_iteration env (fun w => game_started w = true))
    |apply (any_handle_player env (fun w => game_started w = true))];
    try assumption; try (intros; intros w0 H0; exact H0).
  all: intros w0 H0; reflexivity.
Qed.

Lemma X2_witness :
  game_started (final_world (play env_cat {[ "cat" ]} 3 (world_of duo)))
  = true.
Proof.
  apply (proj1 (X2_started_for_good env_cat (world_of duo) eq_refl)).
Defined.

(** ** Lobby listener *)

(** Counting over the references of the whole roster is counting over the
    roster. *)
Lemma count_refs_from (f : Player -> bool) (h pre : list Player) :
  length (List.filter (fun r => f ((pre ++ h)%list !!! r))
                      (List.seq (length pre) (length h)))
  = length (List.filter f h).
Proof.
  revert pre; induction h as [|p h IH]; intros pre; [done|].
  cbn [length List.seq List.filter].
  rewrite lookup_total_app_r by lia.
  replace (length pre - length pre)%nat with 0%nat by lia.
  change ((p :: h) !!! 0%nat) with p.
  specialize (IH (pre ++ [p])%list).
  rewrite length_app, <- app_assoc in IH. simpl in IH.
  replace (length pre + 1)%nat with (S (length pre)) in IH by lia.
  destruct (f p); simpl; by rewrite IH.
Qed.

Lemma count_refs (f : Player -> bool) (h : list Player) :
  length (List.filter (fun r => f (h !!! r)) (List.seq 0 (length h)))
  = length (List.filter f h).
Proof. apply (count_refs_from f h []). Qed.

Section Listener.

Variable env : Env.

(** A text that is not the start command, or comes too early or too
    late, is dropped. *)
Lemma handle_player_received_text (player : nat) (d : string) (w : World) :
  d <> "" ->
  let go := negb (game_started w)
            && bool_decide (Py.lower (Py.strip d) = "start")
            && (MIN_PLAYERS <=? length (List.filter connected (heap w)))%nat in
  if go
  then exists w',
         handle_player_received env player (RecvData d) w = Ok Returned w' /\
         game_started w' = true /\ frame (with_started true w) w'
  else handle_player_received env player (RecvData d) w = Ok Listening w.
Proof.
  intros Hd. cbv zeta. unfold handle_player_received.
  rewrite (bool_decide_eq_false_2 (d = "")) by done.
  unfold bind, get_started, players, pick, set_started, deref.
  destruct (game_started w) eqn:Hs; cbn [negb andb ret]; [done|].
  rewrite count_refs.
  destruct (bool_decide _ && _); [|done].
  destruct (broadcast_frame env (List.seq 0 (length (heap w)))
              (MStarted (name (heap (with_started true w) !!! player)))
              (with_started true w)) as (w' & Hb & F).
  rewrite Hb.
  exists w'. split; [done|]. split; [|done].
  by rewrite (frame_started _ _ F).
Qed.

(** One pass of the listener, by what comes out of it. *)
Lemma handle_player_pass_outcomes (player : nat) (w : World) :
  match handle_player_pass env player w with
  | Ok Returned w' =>
      game_started w' = true /\ same_lives w w' /\ closed w' = closed w
  | Ok Listening w' => w' = received w
  | Exit c w' =>
      c = 1 /\ all_closed w w' /\ same_lives w w' /\
      forall p, heap w !! player = Some p ->
                heap w' !! player = Some (lost p)
  | Raise _ _ => False
  end.
Proof.
  unfold handle_player_pass. unfold bind at 1, get_started.
  destruct (game_started w) eqn:Hs.
  { split; [done|]. split; [apply frame_same_lives, frame_refl|done]. }
  unfold bind at 1, deref. unfold bind at 1, recv. fold (received w).
  set (r := env_recv _ _ _).
  assert (Hfail : r = RecvData "" \/ r = RecvTimeout \/ r = RecvError ->
    match handle_player_received env player r (received w) with
    | Ok Returned w' =>
        game_started w' = true /\ same_lives w w' /\ closed w' = closed w
    | Ok Listening w' => w' = received w
    | Exit c w' =>
        c = 1 /\ all_closed w w' /\ same_lives w w' /\
        forall p, heap w !! player = Some p ->
                  heap w' !! player = Some (lost p)
    | Raise _ _ => False
    end).
  { intros Hr.
    assert (Hx : handle_player_received env player r (received w)
                 = @fail_fast env Listener player (received w)).
    { by destruct Hr as [-> | [-> | ->]]. }
    rewrite Hx.
    destruct (fail_fast_run env Listener player (received w))
      as (w' & Hf & Hc & Hl).
    rewrite Hf. split; [done|]. split; [done|]. split; [done|].
    intros p Hp.
    (* the mark is set before the notice goes out and stays *)
    unfold fail_fast in Hf. unfold bind at 1 2 3, update, deref in Hf.
    set (w1 := with_heap _ _) in Hf.
    destruct (shutdown_run env Listener
                (MDisconnected (name (heap w1 !!! player))) w1)
      as (w'' & Hs' & _ & _).
    assert (Hw1 : heap w1 !! player = Some (lost p)).
    { subst w1. unfold with_heap; simpl.
      rewrite list_alter_alter_eq.
      rewrite (alter_lost_lookup _ _ _ _ Hp). by rewrite decide_True. }
    unfold bind at 1, players in Hs'. unfold bind at 1 in Hs'.
    destruct (broadcast_frame env (List.seq 0 (length (heap w1)))
                (MDisconnected (name (heap w1 !!! player))) w1)
      as (w2 & Hb & F).
    unfold bind at 1, players in Hf. unfold bind at 1 in Hf.
    rewrite Hb in Hf. unfold bind in Hf.
    destruct (close_all_run (List.seq 0 (length (heap w1))) w2)
      as (w3 & Hca & Hh & _).
    rewrite Hca in Hf. injection Hf as <-. rewrite Hh.
    destruct (frame_heap _ _ F _ _ Hw1) as [H|H]; by rewrite H. }
  destruct r as [d| |] eqn:Hr; [|apply Hfail; auto..].
  destruct (decide (d = "")) as [->|Hd]; [apply Hfail; auto|].
  pose proof (handle_player_received_text player d (received w) Hd) as H.
  cbv zeta in H. destruct (_ && _ && _).
  - destruct H as (w' & -> & Hst & F). split; [done|].
    split; [by apply frame_same_lives in F|].
    by rewrite (frame_closed _ _ F).
  - by rewrite H.
Qed.

End Listener.

(** X3: a lobby listener never raises.  When it returns, the game has
    started, nobody's lives were touched and no socket was closed.  When it
    stops the server, the exit status is 1, every socket of the roster is
    closed, nobody's lives were touched and the listener's own player is
    marked as lost.  While it is still listening it has sent nothing and
    marked nobody. *)
Theorem X3_listener_outcomes (env : Env) (fuel player : nat) (w : World) :
  match handle_player env fuel player w with
  | Ok (Some _) w' =>
      game_started w' = true /\ same_lives w w' /\ closed w' = closed w
  | Ok None w' => heap w' = heap w /\ trace w' = trace w
  | Exit c w' =>
      c = 1 /\ all_closed w w' /\ same_lives w w' /\
      forall p, heap w !! player = Some p ->
                heap w' !! player = Some (lost p)
  | Raise _ _ => False
  end.
Proof.
  revert w; induction fuel as [|fuel IH]; intros w; [done|].
  cbn [handle_player]. unfold bind.
  pose proof (handle_player_pass_outcomes env player w) as Hp.
  destruct (handle_player_pass env player w) as [[|] w1|c w1|e w1];
    [|done..].
  subst w1. specialize (IH (received w)).
  destruct (handle_player env fuel player (received w))
    as [[[]|] w'|c w'|e w']; done.
Qed.

(** A send to one player leaves the others as they are. *)
Lemma send_to_player_elsewhere (env : Env) (r i : nat) (msg : Msg)
    (w w' : World) :
  send_to_player env r msg w = Ok tt w' -> i <> r ->
  heap w' !! i = heap w !! i.
Proof.
  intros H Hne.
  destruct (connected (heap w !!! r)) eqn:Hc.
  - destruct (env_send env (n_send w) (conn (heap w !!! r))) eqn:Hs.
    + rewrite (send_to_player_sent env r msg w Hc Hs) in H.
      by injection H as <-.
    + rewrite (send_to_player_failed env r msg w Hc Hs) in H.
      injection H as <-. simpl. by rewrite list_lookup_alter_ne.
  - rewrite (send_to_player_skip env r msg w Hc) in H. by injection H as <-.
Qed.

(** A send to a player that is active and not disconnected calls
    [sendall] on its socket. *)
Lemma send_to_player_tries (env : Env) (r : nat) (msg : Msg) (w w' : World) :
  send_to_player env r msg w = Ok tt w' ->
  connected (heap w !!! r) = true ->
  exists ok, trace w' = ESend (conn (heap w !!! r)) msg ok :: trace w.
Proof.
  intros H Hc.
  destruct (env_send env (n_send w) (conn (heap w !!! r))) eqn:Hs.
  - rewrite (send_to_player_sent env r msg w Hc Hs) in H.
    injection H as <-. by eexists.
  - rewrite (send_to_player_failed env r msg w Hc Hs) in H.
    injection H as <-. by eexists.
Qed.

(** A broadcast calls [sendall] for every player of its list that is in
    the roster, active and not disconnected when it begins. *)
Lemma broadcast_reaches (env : Env) (xs : list nat) (msg : Msg)
    (w w' : World) (r : nat) (p : Player) :
  broadcast env xs msg w = Ok tt w' ->
  r ∈ xs -> heap w !! r = Some p -> connected p = true ->
  exists ok evs,
    trace w' = (evs ++ trace w)%list /\ ESend (conn p) msg ok ∈ evs.
Proof.
  revert w; induction xs as [|r0 xs IH]; intros w Hb Hin Hp Hc.
  { by apply not_elem_of_nil in Hin. }
  change (broadcast env (r0 :: xs) msg)
    with (send_to_player env r0 msg ;; broadcast env xs msg) in Hb.
  apply bind_Ok in Hb as ([] & w1 & Hs & Hb).
  destruct (send_to_player_frame env r0 msg w) as (w1' & Hs' & F).
  rewrite Hs' in Hs. injection Hs as ->.
  destruct (broadcast_frame env xs msg w1) as (w2 & Hb' & F2).
  rewrite Hb' in Hb. injection Hb as ->.
  destruct (frame_trace _ _ F2) as (evs2 & Ht2 & _).
  destruct (decide (r = r0)) as [->|Hne].
  - destruct (send_to_player_tries env r0 msg w w1 Hs') as [ok Ht].
    { by rewrite (lookup_total_some _ _ _ Hp). }
    rewrite (lookup_total_some _ _ _ Hp) in Ht.
    exists ok, (evs2 ++ [ESend (conn p) msg ok])%list.
    split; [by rewrite Ht2, Ht, <- app_assoc|].
    apply elem_of_app. right. apply list_elem_of_here.
  - apply elem_of_cons in Hin as [?|Hin]; [done|].
    destruct (IH w1 Hb' Hin) as (ok & evs & Ht & He); [|done|].
    { by rewrite (send_to_player_elsewhere env r0 r msg w w1 Hs' Hne). }
    destruct (frame_trace _ _ F) as (evs1 & Ht1 & _).
    exists ok, (evs ++ evs1)%list.
    split; [by rewrite Ht, Ht1, app_assoc|].
    apply elem_of_app. by left.
Qed.

(** What the start command does, step by step (lines 124-128). *)
Lemma handle_player_received_start (env : Env) (player : nat) (d : string)
    (w : World) :
  d <> "" ->
  game_started w = false ->
  Py.lower (Py.strip d) = "start" ->
  (MIN_PLAYERS <= length (List.filter connected (heap w)))%nat ->
  exists w',
    broadcast env (List.seq 0 (length (heap w)))
      (MStarted (name (heap w !!! player))) (with_started true w)
    = Ok tt w' /\
    handle_player_received env player (RecvData d) w = Ok Returned w'.
Proof.
  intros Hd Hs Ht Hn. unfold handle_player_received.
  rewrite (bool_decide_eq_false_2 (d = "")) by done.
  unfold bind, get_started, players, pick, set_started, deref.
  rewrite Hs. cbn [negb andb ret].
  rewrite count_refs, Ht.
  rewrite (bool_decide_eq_true_2 ("start" = "start")) by done.
  rewrite (proj2 (Nat.leb_le _ _) Hn). cbn [andb].
  destruct (broadcast_frame env (List.seq 0 (length (heap w)))
              (MStarted (name (heap (with_started true w) !!! player)))
              (with_started true w)) as (w' & Hb & F).
  rewrite Hb. exists w'. split; [exact Hb|done].
Qed.

(** X4: what a text does to a lobby listener.  A non-empty text starts the
    game exactly when the game has not started yet, the text is "start" up
    to case and surrounding blanks, and at least [MIN_PLAYERS] players of
    the roster are connected.  Then the flag is set, the start is
    broadcast to the whole roster under the name of the listener's player
    ([sendall] is called on the socket of every player that is active and
    not disconnected, and the world that results is the one this
    broadcast leaves), and the listener returns.  Any other text is
    dropped: the listener goes on listening in the same world. *)
Theorem X4_start_command
    (env : Env) (player : nat) (d : string) (w : World) :
  d <> "" ->
  (game_started w = false /\
   Py.lower (Py.strip d) = "start" /\
   (MIN_PLAYERS <= length (List.filter connected (heap w)))%nat ->
   exists w',
     handle_player_received env player (RecvData d) w = Ok Returned w' /\
     game_started w' = true /\ length (heap w') = length (heap w) /\
     broadcast env (List.seq 0 (length (heap w)))
       (MStarted (name (heap w !!! player))) (with_started true w)
     = Ok tt w' /\
     forall i p, heap w !! i = Some p -> connected p = true ->
       exists ok evs,
         trace w' = (evs ++ trace w)%list /\
         ESend (conn p) (MStarted (name (heap w !!! player))) ok ∈ evs) /\
  (game_started w = true \/
   Py.lower (Py.strip d) <> "start" \/
   (length (List.filter connected (heap w)) < MIN_PLAYERS)%nat ->
   handle_player_received env player (RecvData d) w = Ok Listening w).
Proof.
  intros Hd. split.
  - intros (Hs & Ht & Hn).
    destruct (handle_player_received_start env player d w Hd Hs Ht Hn)
      as (w' & Hb & Hr).
    destruct (broadcast_frame env (List.seq 0 (length (heap w)))
                (MStarted (name (heap w !!! player))) (with_started true w))
      as (w'' & Hb' & F).
    change (heap (with_started true w)) with (heap w) in Hb'.
    rewrite Hb in Hb'. injection Hb' as <-.
    exists w'. split; [done|].
    split; [by rewrite (frame_started _ _ F)|].
    split; [by rewrite (frame_length _ _ F)|].
    split; [done|].
    intros i p Hp Hc.
    apply (broadcast_reaches env _ _ (with_started true w) w' i p Hb);
      [|done..].
    apply list_elem_of_In, in_seq. apply lookup_lt_Some in Hp. lia.
  - pose proof (handle_player_received_text env player d w Hd) as H.
    cbv zeta in H.
    intros Hc. destruct (_ && _ && _) eqn:Hgo; [|done].
    apply andb_true_iff in Hgo as [Hgo Hn].
    apply andb_true_iff in Hgo as [Hs Ht].
    apply negb_true_iff in Hs. apply bool_decide_eq_true in Ht.
    apply Nat.leb_le in Hn.
    destruct Hc as [Hc|[Hc|Hc]]; [congruence|done|lia].
Qed.

Lemma X4_witness :
  exists w',
    handle_player_received env_zero 0 (RecvData (line " Start"))
      (mkWorld quartet false [] 0 0 0) = Ok Returned w' /\
    game_started w' = true /\
    exists ok evs,
      trace w' = (evs ++ [])%list /\ ESend 3 (MStarted "ann") ok ∈ evs.
Proof.
  destruct (proj1 (X4_start_command env_zero 0 (line " Start")
                     (mkWorld quartet false [] 0 0 0) ltac:(discriminate)))
    as (w' & Hr & Hs & _ & _ & Hall).
  { split; [reflexivity|]. split; [reflexivity|]. vm_compute. lia. }
  exists w'. split; [exact Hr|]. split; [exact Hs|].
  apply (Hall 3%nat (new_player 3 "" "dee")); reflexivity.
Defined.

(** ** The match as a whole *)

#[local] Set Warnings "-clear-no-such-hyp".

(** The Locals after a resolved turn. *)
Lemma resolved_locals (env : Env) (WORDS : gset string)
    (L : Locals) (w : World) (who : nat) (sq word : string) (v : Verdict)
    (L' : Locals) (w' : World) :
  iteration env WORDS L w = Ok (Resolved who sq word v, L') w' ->
  v = judge WORDS (used_words L) sq word /\
  active_players L' = active_players L /\
  turn L' = S (turn L) /\
  seq L' = Some sq /\
  last_word_valid L' = accepted v /\
  used_words L' = (if accepted v then {[ word ]} ∪ used_words L
                   else used_words L) /\
  round_num L' = (if (S (turn L) mod length (active_players L) =? 0)%nat
                  then S (round_num L) else round_num L).
Proof.
  intros H.
  apply iteration_resolved_worlds in H
    as (w1 & w2 & _ & _ & _ & _ & _ & _ & _ & _ & Hv & _ & _ & ->).
  split; [done|]. unfold advance, verdict_locals.
  destruct (accepted v); simpl;
    destruct (_ =? _)%nat; simpl; done.
Qed.

(** What [judge] accepts. *)
Lemma judge_accepted (WORDS used : gset string) (sq word : string) :
  accepted (judge WORDS used sq word) = true ->
  word <> "" /\ Py.str_in sq word = true /\ word ∈ WORDS /\ word ∉ used.
Proof.
  unfold judge.
  destruct (bool_decide_reflect (word = "")) as [|Hw]; [done|].
  destruct (Py.str_in sq word); [|done].
  destruct (bool_decide_reflect (word ∈ WORDS)); [|done].
  destruct (bool_decide_reflect (word ∈ used)); done.
Qed.

(** X5: in any stretch of the game loop no word is accepted twice; every
    accepted word is a word of the bank that had not been used before the
    stretch; and [used_words] at the end is [used_words] at the start
    together with exactly the accepted words. *)
Theorem X5_no_word_twice
    (env : Env) (WORDS : gset string) (L : Locals) (w : World)
    (ss : list Step) (L' : Locals) (w' : World) :
  run env WORDS L w ss L' w' ->
  NoDup (accepted_words ss) /\
  (forall x, x ∈ accepted_words ss -> x ∈ WORDS /\ x ∉ used_words L) /\
  used_words L' = list_to_set (accepted_words ss) ∪ used_words L.
Proof.
  induction 1 as [L w|L w s L1 w1 ss L2 w2 Hc Hi Hr (Hnd & Hin & Hu)].
  - split; [constructor|]. split; [|set_solver].
    intros x Hx. by apply not_elem_of_nil in Hx.
  - destruct s as [who|who sq word v].
    + apply iteration_skipped in Hi as (_ & -> & _). done.
    + apply resolved_locals in Hi as (Hv & _ & _ & _ & _ & Hused & _).
      destruct v; simpl in *; rewrite Hused in *; try done.
      destruct (judge_accepted WORDS (used_words L) sq word)
        as (_ & _ & HW & HU); [by rewrite <- Hv|].
      split; [|split].
      * constructor; [|done]. intros Hx. apply Hin in Hx. set_solver.
      * intros x [->|Hx]%elem_of_cons; [done|].
        destruct (Hin x Hx) as [? ?]. set_solver.
      * rewrite Hu. set_solver.
Qed.

Lemma run_cat :
  exists s1 s2 L' w',
    run env_cat {[ "cat" ]} locals_duo (world_of duo) [s1; s2] L' w' /\
    accepted_words [s1; s2] = ["cat"].
Proof.
  eexists _, _, _, _. split.
  - eapply run_cons; [reflexivity|vm_compute; reflexivity|].
    eapply run_cons; [reflexivity|vm_compute; reflexivity|].
    apply run_nil.
  - reflexivity.
Qed.

Lemma X5_witness :
  exists ss L' w',
    run env_cat {[ "cat" ]} locals_duo (world_of duo) ss L' w' /\
    accepted_words ss = ["cat"] /\
    NoDup (accepted_words ss) /\
    used_words L' = list_to_set (accepted_words ss) ∪ used_words locals_duo.
Proof.
  destruct run_cat as (s1 & s2 & L' & w' & Hr & Ha).
  exists [s1; s2], L', w'. split; [exact Hr|]. split; [exact Ha|].
  destruct (X5_no_word_twice _ _ _ _ _ _ _ Hr) as (Hnd & _ & Hu).
  by split.
Defined.

(** X6: in any stretch of the game loop the list [active_players] stays
    what it was, the roster keeps its length, and the turn counter goes up
    by one with every iteration, skipped or not. *)
Theorem X6_frozen_roster
    (env : Env) (WORDS : gset string) (L : Locals) (w : World)
    (ss : list Step) (L' : Locals) (w' : World) :
  run env WORDS L w ss L' w' ->
  active_players L' = active_players L /\
  length (heap w') = length (heap w) /\
  turn L' = (turn L + length ss)%nat.
Proof.
  induction 1 as [L w|L w s L1 w1 ss L2 w2 Hc Hi Hr (Ha & Hl & Ht)].
  - repeat split; simpl; lia.
  - destruct s as [who|who sq word v].
    + apply iteration_skipped in Hi as (-> & -> & _).
      simpl in *. repeat split; try done. lia.
    + pose proof (resolved_lives _ _ _ _ _ _ _ _ _ _ Hi) as (_ & Hlen & _).
      apply resolved_locals in Hi as (_ & Hact & Hturn & _).
      rewrite Ha, Hl, Ht, Hact, Hlen, Hturn. simpl. repeat split; lia.
Qed.

Lemma X6_witness :
  exists ss L' w',
    run env_cat {[ "cat" ]} locals_duo (world_of duo) ss L' w' /\
    active_players L' = [0%nat; 1%nat] /\ turn L' = 2%nat.
Proof.
  destruct run_cat as (s1 & s2 & L' & w' & Hr & Ha).
  exists [s1; s2], L', w'. split; [exact Hr|].
  destruct (X6_frozen_roster _ _ _ _ _ _ _ Hr) as (Hact & _ & Ht).
  split; [exact Hact|exact Ht].
Defined.

(** ** Lives, added up *)

Lemma total_lives_pointwise (h h' : list Player) (who : nat) (b : bool) :
  length h' = length h ->
  (forall i p, h !! i = Some p ->
     exists p', h' !! i = Some p' /\
       lives p' = if bool_decide (i = who) && b
                  then lives p - 1 else lives p) ->
  total_lives h'
  = total_lives h - (if b && bool_decide (who < length h)%nat then 1 else 0).
Proof.
  revert h' who b; induction h as [|p h IH]; intros h' who b Hl Hp.
  - destruct h'; [|done]. simpl. rewrite andb_false_r. done.
  - destruct h' as [|p' h']; [done|]. simpl in Hl.
    destruct (Hp 0%nat p eq_refl) as (q & [= <-] & Hq).
    cbn [total_lives foldr]. fold (total_lives h) (total_lives h').
    destruct who as [|k].
    + rewrite (IH h' 0%nat false); [|lia|].
      * rewrite Hq. simpl. destruct b; simpl; lia.
      * intros i x Hx. destruct (Hp (S i) x Hx) as (x' & Hx' & Hlx).
        exists x'. split; [done|]. by rewrite andb_false_r.
    + rewrite (IH h' k b); [|lia|].
      * rewrite Hq. simpl.
        destruct b; simpl; [|lia].
        destruct (bool_decide_reflect (k < length h)%nat);
          destruct (bool_decide_reflect (S k < S (length h))%nat); lia.
      * intros i x Hx. destruct (Hp (S i) x Hx) as (x' & Hx' & Hlx).
        exists x'. split; [done|]. rewrite Hlx.
        destruct (bool_decide_reflect (S i = S k));
          destruct (bool_decide_reflect (i = k)); try done; lia.
Qed.

(** X7: over any stretch of the game loop the lives of the roster, added
    up, go down by exactly the number of turns that ended in a timeout or a
    refusal; skipped iterations and accepted answers cost nothing. *)
Theorem X7_lives_accounting
    (env : Env) (WORDS : gset string) (L : Locals) (w : World)
    (ss : list Step) (L' : Locals) (w' : World) :
  refs_in (active_players L) w ->
  run env WORDS L w ss L' w' ->
  total_lives (heap w')
  = total_lives (heap w) - Z.of_nat (length (failed_turns ss)).
Proof.
  intros Hrefs Hr. revert Hrefs.
  induction Hr as [L w|L w s L1 w1 ss L2 w2 Hc Hi Hr IH]; intros Hrefs.
  - simpl. lia.
  - destruct s as [who|who sq word v].
    + apply iteration_skipped in Hi as (-> & -> & _).
      rewrite (IH Hrefs). done.
    + pose proof (iteration_resolved _ _ _ _ _ _ _ _ _ _ Hi)
        as (_ & _ & _ & _ & Hwho & _).
      pose proof (resolved_lives _ _ _ _ _ _ _ _ _ _ Hi)
        as (Hact & Hlen & Hl).
      rewrite IH.
      * rewrite (total_lives_pointwise (heap w) (heap w1) who
                   (negb (accepted v)) Hlen Hl).
        rewrite (bool_decide_eq_true_2 _ (Hrefs who Hwho)).
        cbn [failed_turns List.filter]. fold (failed_turns ss).
        destruct (accepted v); simpl; lia.
      * intros r Hin. rewrite Hlen. apply Hrefs. by rewrite <- Hact.
Qed.

Lemma X7_witness :
  exists ss L' w',
    run env_zero {[ "cat" ]} locals_duo (world_of duo) ss L' w' /\
    total_lives (heap w') = 4.
Proof.
  assert (Hr : exists s1 s2 L' w',
             run env_zero {[ "cat" ]} locals_duo (world_of duo)
                 [s1; s2] L' w' /\
             length (failed_turns [s1; s2]) = 2%nat).
  { eexists _, _, _, _. split.
    - eapply run_cons; [reflexivity|vm_compute; reflexivity|].
      eapply run_cons; [reflexivity|vm_compute; reflexivity|].
      apply run_nil.
    - reflexivity. }
  destruct Hr as (s1 & s2 & L' & w' & Hr & Hf).
  exists [s1; s2], L', w'. split; [exact Hr|].
  rewrite (X7_lives_accounting env_zero {[ "cat" ]} locals_duo
             (world_of duo) [s1; s2] L' w'
             (refs_in_duo (world_of duo) eq_refl) Hr), Hf.
  reflexivity.
Defined.

(** ** The round counter *)

Lemma div_succ_exact (t n : nat) :
  (S t mod n = 0 -> n <> 0 -> S t / n = S (t / n))%nat.
Proof.
  intros Hm Hn.
  pose proof (Nat.div_mod_eq (S t) n) as H1.
  pose proof (Nat.div_mod_eq t n) as H2.
  pose proof (Nat.mod_upper_bound t n Hn) as H3.
  rewrite Hm in H1. nia.
Qed.

(** The round counter after one iteration. *)
Lemma iteration_round (env : Env) (WORDS : gset string) (L : Locals)
    (w : World) (s : Step) (L1 : Locals) (w1 : World) :
  iteration env WORDS L w = Ok (s, L1) w1 ->
  active_players L1 = active_players L /\
  turn L1 = S (turn L) /\
  round_num L1
  = (round_num L + rounds_completed (length (active_players L)) (turn L) [s])%nat.
Proof.
  intros Hi. destruct s as [who|who sq word v].
  - apply iteration_skipped in Hi as (_ & -> & _). simpl.
    repeat split. lia.
  - apply resolved_locals in Hi as (_ & Hact & Ht & _ & _ & _ & Hr).
    split; [done|]. split; [done|]. rewrite Hr. simpl.
    destruct (_ =? _)%nat; lia.
Qed.

(** X8: the counter of rounds goes up by one exactly at the iterations
    that resolve a turn and bring [turn] to a multiple of the length of
    [active_players]; a skipped iteration never moves it, not even when it
    completes a pass.  So over any stretch of the loop [round_num] grows
    by the number of passes completed by a resolved turn, and in every
    state the loop reaches it is at least 1 and at most one more than the
    number of complete passes of the turn counter. *)
Theorem X8_round_counter
    (env : Env) (WORDS : gset string) (w0 : World) (L : Locals) (w : World)
    (ss : list Step) (L' : Locals) (w' : World) :
  (run env WORDS L w ss L' w' ->
   round_num L'
   = (round_num L
      + rounds_completed (length (active_players L)) (turn L) ss)%nat) /\
  (reachable env WORDS w0 L w ->
   (1 <= round_num L <= 1 + turn L / length (active_players L))%nat).
Proof.
  split.
  - induction 1 as [L w|L w s L1 w1 ss L2 w2 Hc Hi Hr IH].
    + simpl. lia.
    + apply iteration_round in Hi as (Hact & Ht & Hr1).
      rewrite IH, Hact, Ht, Hr1. simpl. lia.
  - induction 1 as [L w Hs|L w s L1 w1 Hr IH Hc Hi].
    + destruct (start_game_frame env w0) as (w1 & Hs' & _).
      rewrite Hs' in Hs. injection Hs as <- _. simpl. lia.
    + assert (Hn : (exists who sq word v, s = Resolved who sq word v) ->
                   length (active_players L) <> 0%nat).
      { intros (who & sq & word & v & ->).
        apply iteration_resolved in Hi as (_ & _ & _ & _ & Hwho & _).
        destruct (active_players L); [by apply not_elem_of_nil in Hwho|done]. }
      apply iteration_round in Hi as (-> & -> & ->). simpl.
      pose proof (Nat.Div0.div_le_mono (turn L) (S (turn L))
                    (length (active_players L)) ltac:(lia)) as Hle.
      destruct s as [who|who sq word v]; [lia|].
      destruct (Nat.eqb_spec (S (turn L) mod length (active_players L)) 0)
        as [Hm|Hm]; [|lia].
      rewrite (div_succ_exact _ _ Hm (Hn ltac:(eauto))). lia.
Qed.

(** Two runs: two players who both get a turn, the second of which
    completes the pass and starts round 2; and three players the third of
    which is gone, where the pass is completed by a skip and the round
    stays 1. *)
Lemma X8_witness :
  (exists ss L' w',
     run env_cat {[ "cat" ]} locals_duo (world_of duo) ss L' w' /\
     turn L' = 2%nat /\ round_num L' = 2%nat) /\
  (exists ss L' w',
     run env_cat {[ "cat" ]} locals_trio (world_of trio_one_gone) ss L' w' /\
     last ss = Some (Skipped 2) /\
     turn L' = 3%nat /\ round_num L' = 1%nat).
Proof.
  split.
  - assert (H : exists L' w',
               run env_cat ({[ "cat" ]} : gset string) locals_duo
                 (world_of duo)
                 [Resolved 0 "ca" "cat" Accepted;
                  Resolved 1 "ca" "cat" (Rejected WordAlreadyUsed)] L' w' /\
               turn L' = 2%nat).
    { eexists _, _. split.
      - eapply run_cons; [reflexivity|vm_compute; reflexivity|].
        eapply run_cons; [reflexivity|vm_compute; reflexivity|].
        apply run_nil.
      - reflexivity. }
    destruct H as (L' & w' & Hr & Ht).
    eexists _, L', w'. split; [exact Hr|]. split; [exact Ht|].
    exact (proj1 (X8_round_counter env_cat {[ "cat" ]} (world_of duo)
                    locals_duo (world_of duo) _ L' w') Hr).
  - assert (H : exists L' w',
               run env_cat ({[ "cat" ]} : gset string) locals_trio
                 (world_of trio_one_gone)
                 [Resolved 0 "ca" "cat" Accepted;
                  Resolved 1 "ca" "cat" (Rejected WordAlreadyUsed);
                  Skipped 2] L' w' /\
               turn L' = 3%nat).
    { eexists _, _. split.
      - eapply run_cons; [reflexivity|vm_compute; reflexivity|].
        eapply run_cons; [reflexivity|vm_compute; reflexivity|].
        eapply run_cons; [reflexivity|vm_compute; reflexivity|].
        apply run_nil.
      - reflexivity. }
    destruct H as (L' & w' & Hr & Ht).
    eexists _, L', w'. split; [exact Hr|]. split; [reflexivity|].
    split; [exact Ht|].
    exact (proj1 (X8_round_counter env_cat {[ "cat" ]} (world_of duo)
                    locals_trio (world_of trio_one_gone) _ L' w') Hr).
Defined.

(** ** The match ends *)

#[local] Set Warnings "-clear-no-such-hyp".

Lemma lives_left_pointwise (h h' : list Player) (who : nat) (b : bool) :
  length h' = length h ->
  (forall i p, h !! i = Some p ->
     exists p', h' !! i = Some p' /\
       lives p' = if bool_decide (i = who) && b
                  then lives p - 1 else lives p) ->
  (forall p, h !! who = Some p -> b = true -> 0 < lives p) ->
  (lives_left h' + (if b && bool_decide (who < length h)%nat then 1 else 0)
   = lives_left h)%nat.
Proof.
  revert h' who b; induction h as [|p h IH]; intros h' who b Hl Hp Hpos.
  - destruct h'; [|done]. simpl. by rewrite andb_false_r.
  - destruct h' as [|p' h']; [done|]. simpl in Hl.
    destruct (Hp 0%nat p eq_refl) as (q & [= <-] & Hq).
    cbn [lives_left foldr]. fold (lives_left h) (lives_left h').
    destruct who as [|k].
    + pose proof (IH h' 0%nat false ltac:(lia)) as H. simpl in H.
      rewrite <- H.
      * rewrite Hq. simpl. destruct b; simpl; [|lia].
        specialize (Hpos p eq_refl eq_refl). lia.
      * intros i x Hx. destruct (Hp (S i) x Hx) as (x' & Hx' & Hlx).
        exists x'. split; [done|]. by rewrite andb_false_r.
      * done.
    + pose proof (IH h' k b ltac:(lia)) as H.
      rewrite <- H.
      * rewrite Hq. simpl.
        destruct b; simpl; [|lia].
        destruct (bool_decide_reflect (k < length h)%nat);
          destruct (bool_decide_reflect (S k < S (length h))%nat); lia.
      * intros i x Hx. destruct (Hp (S i) x Hx) as (x' & Hx' & Hlx).
        exists x'. split; [done|]. rewrite Hlx.
        destruct (bool_decide_reflect (S i = S k));
          destruct (bool_decide_reflect (i = k)); try done; lia.
      * intros x Hx. by apply (Hpos x).
Qed.

Lemma lives_left_in_game (h : list Player) (r : nat) (p : Player) :
  h !! r = Some p -> in_game p = true -> (1 <= lives_left h)%nat.
Proof.
  revert r; induction h as [|q h IH]; intros r Hr Hg; [done|].
  cbn [lives_left foldr]. fold (lives_left h).
  destruct r as [|r]; simpl in Hr.
  - injection Hr as ->. unfold in_game in Hg.
    apply andb_true_iff in Hg as [_ Hg]. apply Z.ltb_lt in Hg. lia.
  - pose proof (IH r Hr Hg). lia.
Qed.

(** A resolved turn uses up one unit of the stock. *)
Lemma resolved_stock (env : Env) (WORDS : gset string)
    (L : Locals) (w : World) (who : nat) (sq word : string) (v : Verdict)
    (L' : Locals) (w' : World) :
  refs_in (active_players L) w ->
  iteration env WORDS L w = Ok (Resolved who sq word v, L') w' ->
  S (stock WORDS L' w') = stock WORDS L w.
Proof.
  intros Hrefs Hi. unfold stock.
  pose proof (iteration_resolved _ _ _ _ _ _ _ _ _ _ Hi)
    as (_ & _ & _ & _ & Hwho & Hpos & _).
  pose proof (resolved_lives _ _ _ _ _ _ _ _ _ _ Hi) as (_ & Hlen & Hl).
  apply resolved_locals in Hi as (Hv & _ & _ & _ & _ & Hused & _).
  pose proof (lives_left_pointwise (heap w) (heap w') who
                (negb (accepted v)) Hlen Hl) as Hsum.
  rewrite (bool_decide_eq_true_2 _ (Hrefs who Hwho)) in Hsum.
  rewrite <- Hsum.
  2:{ intros p Hp _. by rewrite (lookup_total_some _ _ _ Hp) in Hpos. }
  rewrite Hused. destruct (accepted v) eqn:Hacc; simpl; [|lia].
  destruct (judge_accepted WORDS (used_words L) sq word)
    as (_ & _ & HW & HU); [by rewrite <- Hv|].
  set (rest := WORDS ∖ ({[ word ]} ∪ used_words L)).
  assert (Hsplit : WORDS ∖ used_words L = {[ word ]} ∪ rest).
  { apply set_eq. intros x. subst rest.
    rewrite elem_of_union, !elem_of_difference,
      elem_of_union, elem_of_singleton.
    destruct (decide (x = word)) as [->|]; naive_solver. }
  assert (Hdis : ({[ word ]} : gset string) ## rest).
  { intros x. subst rest.
    rewrite elem_of_singleton, elem_of_difference, elem_of_union,
      elem_of_singleton. naive_solver. }
  pose proof (size_union ({[ word ]} : gset string) rest Hdis) as Hsz.
  rewrite size_singleton in Hsz. rewrite Hsplit, Hsz. lia.
Qed.

(** While the loop goes on, some player ahead in the rotation is in the
    game, less than a full pass away. *)
Lemma someone_ahead (L : Locals) (w : World) (t : nat) :
  loop_cond L w = Ok true w ->
  exists d r,
    (d < length (active_players L))%nat /\
    active_players L !! ((t + d) mod length (active_players L))%nat = Some r /\
    in_game (heap w !!! r) = true.
Proof.
  rewrite loop_cond_run. intros [= Hc]. apply Nat.ltb_lt in Hc.
  destruct (List.filter _ _) as [|r rest] eqn:Hf; [simpl in Hc; lia|].
  assert (Hin : In r (List.filter (fun r => in_game (heap w !!! r))
                        (active_players L))) by (rewrite Hf; by left).
  apply filter_In in Hin as [Hin Hg].
  apply list_elem_of_In, list_elem_of_lookup in Hin as [j Hj].
  pose proof (lookup_lt_Some _ _ _ Hj) as Hlt.
  set (n := length (active_players L)) in *.
  exists ((j + (n - t mod n)) mod n)%nat, r.
  split; [apply Nat.mod_upper_bound; lia|]. split; [|done].
  rewrite Nat.Div0.add_mod_idemp_r.
  pose proof (Nat.div_mod_eq t n) as Ht.
  pose proof (Nat.mod_upper_bound t n ltac:(lia)) as Hm.
  replace (t + (j + (n - t mod n)))%nat
    with (j + (S (t / n)) * n)%nat by nia.
  by rewrite Nat.Div0.mod_add, Nat.mod_small.
Qed.

(** An iteration that returns has dealt with the player whose turn it
    is. *)
Lemma iteration_current (env : Env) (WORDS : gset string) (L : Locals)
    (w : World) (s : Step) (L' : Locals) (w' : World) :
  iteration env WORDS L w = Ok (s, L') w' ->
  exists who,
    active_players L
      !! (turn L mod length (active_players L))%nat = Some who /\
    (s = Skipped who \/ exists sq word v, s = Resolved who sq word v).
Proof.
  unfold iteration. intros H.
  apply bind_Ok in H as (who & w0 & Hcur & H).
  exists who. split.
  { unfold current_player in Hcur. destruct (_ =? _)%nat; [done|].
    destruct (_ !! _) as [r|]; [|done]. by injection Hcur as ->. }
  apply bind_Ok in H as (p & w1 & _ & H).
  destruct (_ || _ || _).
  - injection H as <- _ _. by left.
  - apply bind_Ok in H as (sq & ? & _ & H).
    apply bind_Ok in H as (? & ? & _ & H).
    apply bind_Ok in H as (word & ? & _ & H).
    apply bind_Ok in H as (? & ? & _ & H).
    apply bind_Ok in H as ([v ?] & ? & _ & H).
    injection H as <- _ _. right. eauto.
Qed.

Lemma game_loop_fuel (env : Env) (WORDS : gset string) (fuel : nat) :
  forall L w,
    refs_in (active_players L) w ->
    (loop_cond L w = Ok true w ->
     exists d r,
       active_players L
         !! ((turn L + d) mod length (active_players L))%nat = Some r /\
       in_game (heap w !!! r) = true /\
       (stock WORDS L w * length (active_players L) + d <= fuel)%nat) ->
    forall w', game_loop env WORDS fuel L w <> Ok None w'.
Proof.
  induction fuel as [|fuel IH]; intros L w Hrefs Hd w';
    cbn [game_loop]; unfold bind at 1; rewrite loop_cond_run.
  - rewrite loop_cond_run in Hd.
    destruct (1 <? _)%nat; [|done]. simpl.
    destruct (Hd eq_refl) as (d & r & Hr & Hg & Hle).
    assert (Hin : r ∈ active_players L) by (by eapply list_elem_of_lookup_2).
    destruct (lookup_lt_is_Some_2 _ _ (Hrefs r Hin)) as [p Hp].
    rewrite (lookup_total_some _ _ _ Hp) in Hg.
    pose proof (lives_left_in_game _ _ _ Hp Hg).
    pose proof (lookup_lt_Some _ _ _ Hr). unfold stock in Hle. nia.
  - pose proof (loop_cond_run L w) as Hc.
    destruct (1 <? _)%nat eqn:Hgo; [|done]. simpl.
    destruct (Hd Hc) as (d & r & Hr & Hg & Hle).
    unfold bind.
    destruct (iteration env WORDS L w) as [[s L1] w1|c w1|e w1] eqn:Hi;
      [|done..].
    destruct (iteration_current _ _ _ _ _ _ _ Hi) as (who & Hwho & Hs).
    destruct Hs as [->|(sq & word & v & ->)].
    + apply iteration_skipped in Hi as (-> & -> & Hng).
      apply IH; [done|]. intros Hc1. simpl.
      destruct d as [|d].
      * rewrite Nat.add_0_r, Hwho in Hr. injection Hr as ->. congruence.
      * exists d, r. split; [|split; [done|]].
        -- rewrite <- Hr. do 2 f_equal. lia.
        -- unfold stock in *. simpl. lia.
    + pose proof (resolved_stock _ _ _ _ _ _ _ _ _ _ Hrefs Hi) as Hst.
      pose proof (resolved_lives _ _ _ _ _ _ _ _ _ _ Hi) as (Hact & Hlen & _).
      cbn [snd]. apply IH.
      * intros x Hx. rewrite Hlen. apply Hrefs. by rewrite <- Hact.
      * intros Hc1.
        destruct (someone_ahead L1 w1 (turn L1) Hc1) as (d1 & r1 & Hd1 & Hr1 & Hg1).
        exists d1, r1. split; [done|]. split; [done|].
        rewrite Hact in *. rewrite <- Hst in Hle. simpl in Hle. lia.
Qed.

(** X9: the game loop does not go on for ever.  From any state whose
    references are in the heap, a count of iterations that is one more
    than the lives left plus the bank words not yet used, times the size of
    the rotation, is enough for the loop to come to an end: it leaves the
    [while] with at most one player in the game, or stops the server, or
    raises. *)
Theorem X9_match_ends
    (env : Env) (WORDS : gset string) (fuel : nat) (L : Locals) (w : World) :
  refs_in (active_players L) w ->
  (enough_fuel WORDS L w <= fuel)%nat ->
  match game_loop env WORDS fuel L w with
  | Ok (Some L') w' =>
      (length (List.filter (fun r => in_game (heap w' !!! r))
                           (active_players L')) <= 1)%nat
  | Ok None _ => False
  | Exit c _ => c = 1
  | Raise _ _ => True
  end.
Proof.
  intros Hrefs Hfuel.
  pose proof (game_loop_fuel env WORDS fuel L w Hrefs) as Hnone.
  destruct (game_loop env WORDS fuel L w) as [[L'|] w'|c w'|e w'] eqn:Hg.
  - by eapply game_loop_leaves.
  - eapply Hnone; [|done]. intros Hc.
    destruct (someone_ahead L w (turn L) Hc) as (d & r & Hd & Hr & Hin).
    exists d, r. split; [done|]. split; [done|].
    unfold enough_fuel in Hfuel. simpl in Hfuel. lia.
  - clear Hnone Hfuel Hrefs. revert L w Hg.
    induction fuel as [|fuel IH]; intros L w; cbn [game_loop];
      unfold bind at 1; rewrite loop_cond_run;
      destruct (1 <? _)%nat; simpl; try done.
    intros H. apply bind_Exit in H as [H|([s L1] & w1 & _ & H)].
    + by apply iteration_exit in H as (-> & _).
    + by eapply IH.
  - done.
Qed.

Lemma X9_witness :
  match game_loop env_zero {[ "cat" ]} 16 locals_duo (world_of duo) with
  | Ok (Some L') w' =>
      (length (List.filter (fun r => in_game (heap w' !!! r))
                           (active_players L')) <= 1)%nat
  | Ok None _ => False
  | Exit c _ => c = 1
  | Raise _ _ => True
  end.
Proof.
  apply (X9_match_ends env_zero {[ "cat" ]} 16 locals_duo (world_of duo)).
  - by apply refs_in_duo.
  - vm_compute. lia.
Defined.

(** ** Word bank, word by word *)

(** X10: on a non-empty bank, whether [get_random_sequence] returns is
    decided by the word it draws: a word of fewer than two letters makes it
    raise [ValueError]; a word of two letters or more gives a sequence of
    two or three letters that occurs in that word. *)
Theorem X10_drawn_word_decides
    (env : Env) (words : gset string) (w : World) :
  words <> ∅ ->
  exists word w1,
    random_choice env (elements words) w = Ok word w1 /\
    word ∈ words /\
    ((Py.len word < 2 /\
      exists w', get_random_sequence env words w = Raise ValueError w') \/
     (2 <= Py.len word /\
      exists sq w', get_random_sequence env words w = Ok sq w' /\
                    2 <= Py.len sq <= 3 /\ Py.str_in sq word = true)).
Proof.
  intros Hne.
  assert (Hel : elements words <> []).
  { intros H. by apply elements_empty_inv, leibniz_equiv in H. }
  destruct (random_choice_ok env (elements words) w Hel)
    as (word & w1 & Hc & Hin).
  apply elem_of_elements in Hin.
  exists word, w1. split; [done|]. split; [done|].
  assert (Hg : get_random_sequence env words w
               = (if Py.len word =? 2 then ret word
                  else
                    let* length := randint env 2 3 in
                    let* start := randint env 0 (Py.len word - length) in
                    ret (Py.slice word start (start + length))) w1).
  { unfold get_random_sequence.
    rewrite bool_decide_eq_false_2 by done.
    unfold bind at 1. by rewrite Hc. }
  rewrite Hg.
  destruct (Z.eqb_spec (Py.len word) 2) as [H2|H2].
  - right. split; [lia|]. exists word, w1. split; [done|]. split; [lia|].
    apply str_in_infix. exists "", "".
    clear. induction word as [|c word IH]; [done|].
    change (String c word = String c ("" ++ word ++ ""))%string.
    by rewrite <- IH.
  - destruct (randint_ok env 2 3 w1 ltac:(lia)) as (len & w2 & Hr1 & Hb1).
    destruct (Z.lt_ge_cases (Py.len word) 2) as [Hs|Hl].
    + left. split; [done|]. exists w2.
      pose proof (randint_empty env 0 (Py.len word - len) w2 ltac:(lia))
        as Hr2.
      unfold bind. by rewrite Hr1, Hr2.
    + right. split; [done|].
      destruct (randint_ok env 0 (Py.len word - len) w2 ltac:(lia))
        as (start & w3 & Hr2 & Hb2).
      destruct (slice_inside word start len) as [Hlen Hi]; [lia..|].
      exists (Py.slice word start (start + len)), w3.
      split; [|split; [lia|done]].
      unfold bind. by rewrite Hr1, Hr2.
Qed.

Lemma X10_witness :
  exists word w1,
    random_choice env_zero (elements ({[ "a" ]} : gset string)) (world_of [])
    = Ok word w1 /\
    word ∈ ({[ "a" ]} : gset string) /\
    ((Py.len word < 2 /\
      exists w', get_random_sequence env_zero {[ "a" ]} (world_of [])
                 = Raise ValueError w') \/
     (2 <= Py.len word /\
      exists sq w', get_random_sequence env_zero {[ "a" ]} (world_of [])
                    = Ok sq w' /\
                    2 <= Py.len sq <= 3 /\ Py.str_in sq word = true)).
Proof.
  apply (X10_drawn_word_decides env_zero {[ "a" ]} (world_of [])).
  apply (bool_decide_eq_false_1 _). reflexivity.
Defined.

(** X11: [get_random_sequence] touches nothing but the generator, from
    which it draws at most three times, however it ends; and on the empty
    bank it draws nothing and answers "ab". *)
Theorem X11_sequence_only_draws
    (env : Env) (words : gset string) (w : World) :
  (let w' := final_world (get_random_sequence env words w) in
   heap w' = heap w /\ trace w' = trace w /\
   game_started w' = game_started w /\
   n_send w' = n_send w /\ n_recv w' = n_recv w /\
   (n_rand w <= n_rand w' <= n_rand w + 3)%nat) /\
  get_random_sequence env ∅ w = Ok "ab" w.
Proof.
  split; [|done]. cbv zeta.
  unfold get_random_sequence, random_choice, randint, bind, draw, ret, raise.
  destruct (bool_decide _); [simpl; repeat split; lia|].
  destruct (elements words); [simpl; repeat split; lia|].
  simpl. destruct (_ =? 2); simpl; [repeat split; lia|].
  destruct (_ <? 0); simpl; repeat split; lia.
Qed.

(** ** Normal form of words *)

Lemma append_nil_r (s : string) : (s ++ "")%string = s.
Proof.
  induction s as [|c s IH]; [done|].
  change (String c (s ++ "") = String c s)%string. by rewrite IH.
Qed.

Lemma append_assoc (a b c : string) :
  ((a ++ b) ++ c)%string = (a ++ (b ++ c))%string.
Proof.
  induction a as [|x a IH]; [done|].
  change (String x ((a ++ b) ++ c) = String x (a ++ (b ++ c)))%string.
  by rewrite IH.
Qed.

Lemma rev_app_append (s t : string) :
  String.rev_app s t = (String.rev s ++ t)%string.
Proof.
  unfold String.rev. revert t; induction s as [|c s IH]; intros t; [done|].
  cbn [String.rev_app]. rewrite IH, (IH (String c "")), append_assoc. done.
Qed.

Lemma rev_cons (c : ascii) (s : string) :
  String.rev (String c s) = (String.rev s ++ String c "")%string.
Proof. unfold String.rev at 1. cbn [String.rev_app]. apply rev_app_append. Qed.

Lemma rev_snoc (s : string) (c : ascii) :
  String.rev (s ++ String c "") = String c (String.rev s).
Proof.
  induction s as [|x s IH]; [done|].
  change (String x s ++ String c "")%string
    with (String x (s ++ String c ""))%string.
  by rewrite !rev_cons, IH.
Qed.

Lemma rev_rev (s : string) : String.rev (String.rev s) = s.
Proof.
  induction s as [|c s IH]; [done|]. by rewrite rev_cons, rev_snoc, IH.
Qed.

Lemma lstrip_snoc (s : string) (c : ascii) :
  Py.lstrip (s ++ String c "")
  = if bool_decide (Py.lstrip s = "")
    then (if Py.isspace c then "" else String c "")
    else (Py.lstrip s ++ String c "")%string.
Proof.
  induction s as [|x s IH].
  - simpl. by destruct (Py.isspace c).
  - change (String x s ++ String c "")%string
      with (String x (s ++ String c ""))%string.
    cbn [Py.lstrip]. destruct (Py.isspace x); [done|].
    by rewrite bool_decide_eq_false_2.
Qed.

(** [rstrip], from the left. *)
Lemma rstrip_cons (c : ascii) (s : string) :
  Py.rstrip (String c s)
  = if bool_decide (Py.rstrip s = "") && Py.isspace c then ""
    else String c (Py.rstrip s).
Proof.
  unfold Py.rstrip. rewrite rev_cons, lstrip_snoc.
  destruct (bool_decide_reflect (Py.lstrip (String.rev s) = "")) as [He|Hne].
  - rewrite He. simpl. by destruct (Py.isspace c).
  - rewrite rev_snoc. rewrite bool_decide_eq_false_2; [done|].
    intros H. apply Hne. by rewrite <- (rev_rev (Py.lstrip _)), H.
Qed.

Lemma lstrip_idem (s : string) : Py.lstrip (Py.lstrip s) = Py.lstrip s.
Proof.
  induction s as [|c s IH]; [done|]. simpl.
  destruct (Py.isspace c) eqn:Hc; [done|]. simpl. by rewrite Hc.
Qed.

Lemma rstrip_idem (s : string) : Py.rstrip (Py.rstrip s) = Py.rstrip s.
Proof. unfold Py.rstrip. by rewrite rev_rev, lstrip_idem. Qed.

(** Stripping the right end brings no blank to the front. *)
Lemma lstrip_rstrip_lstrip (s : string) :
  Py.lstrip (Py.rstrip (Py.lstrip s)) = Py.rstrip (Py.lstrip s).
Proof.
  induction s as [|c s IH]; [done|]. cbn [Py.lstrip].
  destruct (Py.isspace c) eqn:Hc; [done|].
  rewrite rstrip_cons, Hc, andb_false_r. simpl. by rewrite Hc.
Qed.

Lemma strip_idem (s : string) : Py.strip (Py.strip s) = Py.strip s.
Proof.
  unfold Py.strip. by rewrite lstrip_rstrip_lstrip, rstrip_idem.
Qed.

Lemma lower_char_idem (c : ascii) :
  Py.lower_char (Py.lower_char c) = Py.lower_char c.
Proof. by destruct c as [[] [] [] [] [] [] [] []]. Qed.

Lemma isspace_lower_char (c : ascii) :
  Py.isspace (Py.lower_char c) = Py.isspace c.
Proof. by destruct c as [[] [] [] [] [] [] [] []]. Qed.

Lemma lower_idem (s : string) : Py.lower (Py.lower s) = Py.lower s.
Proof.
  induction s as [|c s IH]; [done|]. simpl. by rewrite lower_char_idem, IH.
Qed.

Lemma lower_append (s t : string) :
  Py.lower (s ++ t) = (Py.lower s ++ Py.lower t)%string.
Proof.
  induction s as [|c s IH]; [done|].
  change (Py.lower (String c (s ++ t))
          = String (Py.lower_char c) (Py.lower s ++ Py.lower t))%string.
  simpl. by rewrite IH.
Qed.

Lemma lower_rev (s : string) : Py.lower (String.rev s) = String.rev (Py.lower s).
Proof.
  induction s as [|c s IH]; [done|].
  cbn [Py.lower]. by rewrite !rev_cons, lower_append, IH.
Qed.

Lemma lower_lstrip (s : string) : Py.lower (Py.lstrip s) = Py.lstrip (Py.lower s).
Proof.
  induction s as [|c s IH]; [done|]. cbn [Py.lstrip Py.lower].
  rewrite isspace_lower_char. by destruct (Py.isspace c).
Qed.

Lemma lower_strip (s : string) : Py.lower (Py.strip s) = Py.strip (Py.lower s).
Proof.
  unfold Py.strip, Py.rstrip.
  by rewrite lower_rev, lower_lstrip, lower_rev, lower_lstrip.
Qed.

Lemma lower_empty (s : string) : Py.lower s = "" <-> s = "".
Proof. by destruct s. Qed.

(** A normalised text is left alone by the normalisation. *)
Lemma normal_form (s : string) :
  Py.lower (Py.strip (Py.lower (Py.strip s))) = Py.lower (Py.strip s).
Proof. by rewrite <- lower_strip, lower_idem, strip_idem. Qed.

(** ** Dictionary, both paths *)

(** X12: whichever file [load_words] reads, every word of the bank is in
    the normal form in which answers are looked up (stripped, then
    lower-cased: normalising it again changes nothing), so a bank word
    typed as it stands is found; and when the file of the current
    directory is the one read, every word has two characters or more. *)
Theorem X12_bank_words_normalised (fs : Files) (x : string) :
  x ∈ load_words fs ->
  Py.lower (Py.strip x) = x /\
  (forall f, cwd_words fs = Opened f -> 2 <= Py.len x).
Proof.
  intros Hx. split.
  - unfold load_words in Hx.
    destruct (cwd_words fs) as [f|]; [|destruct (script_words fs) as [f|]].
    + rewrite elem_of_list_to_set, list_elem_of_In, in_map_iff in Hx.
      destruct Hx as (l & <- & _). apply normal_form.
    + rewrite elem_of_list_to_set, list_elem_of_In, in_map_iff in Hx.
      destruct Hx as (l & <- & _). apply normal_form.
    + by apply not_elem_of_empty in Hx.
  - intros f Hf. pose proof (load_words_cwd_long fs f x Hf Hx). lia.
Qed.

Lemma X12_witness :
  Py.lower (Py.strip "cat") = "cat" /\
  (forall f, cwd_words files_cwd = Opened f -> 2 <= Py.len "cat").
Proof.
  apply (X12_bank_words_normalised files_cwd "cat").
  apply (bool_decide_unpack _). vm_compute. exact I.
Defined.

(** X13: [main] starts serving exactly when the bank is not empty.  The
    file next to the script is read only when there is none in the current
    directory: a file there with no line of two characters or more, blanks
    stripped, makes [main] give up whatever the other file holds; and so
    does the absence of both. *)
Theorem X13_startup (fs : Files) :
  (startup fs = GaveUp <-> load_words fs = ∅) /\
  (forall W, startup fs = Serving W -> W = load_words fs /\ W <> ∅) /\
  (forall f, cwd_words fs = Opened f ->
     Forall (fun l => Py.len (Py.strip l) <= 1) f ->
     startup fs = GaveUp) /\
  (cwd_words fs = FileNotFound -> script_words fs = FileNotFound ->
   startup fs = GaveUp).
Proof.
  unfold startup. cbv zeta. split; [|split; [|split]].
  - destruct (bool_decide_reflect (load_words fs = ∅)) as [He|Hne].
    + by split.
    + split; [discriminate|]. intros He. by destruct Hne.
  - intros W. destruct (bool_decide_reflect (load_words fs = ∅)) as [|Hne];
      [done|].
    intros [= <-]. split; [reflexivity|exact Hne].
  - intros f Hf Hall.
    assert (He : load_words fs = ∅).
    { unfold load_words. rewrite Hf. clear Hf.
      replace (List.filter _ f) with (@nil string); [done|].
      symmetry. induction f as [|l f IH]; [done|]. simpl.
      apply Forall_cons in Hall as [Hl Hall].
      destruct (Z.ltb_spec 1 (Py.len (Py.strip l))); [lia|by apply IH]. }
    by rewrite He.
  - intros H1 H2. unfold load_words. by rewrite H1, H2.
Qed.

Lemma X13_witness : startup files_shadow = GaveUp.
Proof.
  apply (proj1 (proj2 (proj2 (X13_startup files_shadow)))
           [line "a"; line ""] eq_refl).
  repeat constructor; vm_compute; discriminate.
Defined.

(** ** The answer of a turn *)

Lemma judge_timeout (WORDS used : gset string) (sq word : string) :
  judge WORDS used sq word = Timeout <-> word = "".
Proof.
  unfold judge. destruct (bool_decide_reflect (word = "")) as [->|Hne].
  - done.
  - destruct (_ && _ && _); split; done.
Qed.

(** X14: a resolved turn makes exactly one read, on the socket of the
    acting player.  The answer is the text that was read, stripped and
    lowered, and it is empty when the read timed out, failed or met the end
    of the stream.  The turn is judged a timeout exactly when the answer is
    empty, so an answer made of blanks only counts as no answer. *)
Theorem X14_answer_of_a_turn
    (env : Env) (WORDS : gset string) (L : Locals) (w : World)
    (who : nat) (sq word : string) (v : Verdict) (L' : Locals) (w' : World) :
  iteration env WORDS L w = Ok (Resolved who sq word v, L') w' ->
  word = match env_recv env (n_recv w) (conn (heap w !!! who)) with
         | RecvData d => Py.lower (Py.strip d)
         | RecvTimeout | RecvError => ""
         end /\
  n_recv w' = S (n_recv w) /\
  (v = Timeout <-> word = "").
Proof.
  intros H.
  apply iteration_resolved_worlds in H
    as (w1 & w2 & _ & _ & _ & Hseq & F & _ & Hheap & Hread & Hv & _ & F' & _).
  apply choose_sequence_Ok in Hseq as [(_ & _ & _ & _ & Hrecv & _) _].
  pose proof (frame_recv _ _ F) as Hr2.
  split; [|split].
  - unfold read_response, bind, deref, recv, ret in Hread.
    injection Hread as <-. rewrite Hheap, Hr2, Hrecv.
    destruct (env_recv env (n_recv w) (conn (heap w !!! who))) as [d| |];
      [|done..].
    destruct (bool_decide_reflect (d = "")) as [->|_]; done.
  - assert (Hn : n_recv w' = S (n_recv w2)).
    { destruct (accepted v); by rewrite (frame_recv _ _ F'). }
    by rewrite Hn, Hr2, Hrecv.
  - rewrite Hv. apply judge_timeout.
Qed.

Lemma X14_witness :
  exists sq L' w',
    iteration env_blank {[ "cat" ]} locals_duo (world_of duo)
    = Ok (Resolved 0 sq "" Timeout, L') w' /\
    n_recv w' = 1%nat.
Proof.
  eexists _, _, _. split; [vm_compute; reflexivity|].
  eapply (X14_answer_of_a_turn env_blank {[ "cat" ]} locals_duo (world_of duo)).
  vm_compute; reflexivity.
Defined.

(** ** Whose turn it is *)

(** The roster and the turn counter over a stretch of the loop. *)
Lemma run_roster (env : Env) (WORDS : gset string) (L : Locals) (w : World)
    (ss : list Step) (L' : Locals) (w' : World) :
  run env WORDS L w ss L' w' ->
  active_players L' = active_players L /\
  length (heap w') = length (heap w) /\
  turn L' = (turn L + length ss)%nat.
Proof.
  induction 1 as [L w|L w s L1 w1 ss L2 w2 Hc Hi Hr (Ha & Hl & Ht)].
  - repeat split; simpl; lia.
  - destruct s as [who|who sq word v].
    + apply iteration_skipped in Hi as (-> & -> & _).
      simpl in *. repeat split; try done. lia.
    + pose proof (resolved_lives _ _ _ _ _ _ _ _ _ _ Hi) as (_ & Hlen & _).
      apply resolved_locals in Hi as (_ & Hact & Hturn & _).
      rewrite Ha, Hl, Ht, Hact, Hlen, Hturn. simpl. repeat split; lia.
Qed.

(** X15: the players are taken in rotation over the roster fixed at the
    start: the iteration that follows a stretch of [k] iterations deals
    with the player at position [(turn + k) mod n].  When that player is
    out of the game (no lives, inactive or disconnected) the iteration is
    a skip, which sends nothing, reads nothing and only moves the turn
    counter; otherwise the player gets a turn that is resolved. *)
Theorem X15_rotation
    (env : Env) (WORDS : gset string) (L : Locals) (w : World)
    (ss : list Step) (L1 : Locals) (w1 : World)
    (s : Step) (L2 : Locals) (w2 : World) :
  run env WORDS L w ss L1 w1 ->
  iteration env WORDS L1 w1 = Ok (s, L2) w2 ->
  exists who,
    active_players L
      !! ((turn L + length ss) mod length (active_players L))%nat
    = Some who /\
    (in_game (heap w1 !!! who) = true ->
       exists sq word v, s = Resolved who sq word v) /\
    (in_game (heap w1 !!! who) = false ->
       s = Skipped who /\ w2 = w1 /\ L2 = with_turn (S (turn L1)) L1).
Proof.
  intros Hr Hi.
  apply run_roster in Hr as (Hact & _ & Ht).
  destruct (iteration_current _ _ _ _ _ _ _ Hi) as (who & Hwho & Hs).
  rewrite Hact, Ht in Hwho.
  exists who. split; [done|].
  destruct Hs as [->|(sq & word & v & ->)].
  - apply iteration_skipped in Hi as (-> & -> & Hout).
    split; [by rewrite Hout|done].
  - apply iteration_resolved in Hi as (_ & _ & _ & _ & _ & Hl & Hc & _).
    assert (Hin : in_game (heap w1 !!! who) = true).
    { unfold in_game. fold (connected (heap w1 !!! who)). rewrite Hc.
      by apply Z.ltb_lt in Hl as ->. }
    split; [by eauto|by rewrite Hin].
Qed.

Lemma X15_witness :
  exists s L2 w2,
    iteration env_cat {[ "cat" ]} locals_duo (world_of duo) = Ok (s, L2) w2 /\
    exists sq word v, s = Resolved 0 sq word v.
Proof.
  assert (Hi : exists s L2 w2,
             iteration env_cat {[ "cat" ]} locals_duo (world_of duo)
             = Ok (s, L2) w2)
    by (eexists _, _, _; vm_compute; reflexivity).
  destruct Hi as (s & L2 & w2 & Hi). exists s, L2, w2. split; [exact Hi|].
  destruct (X15_rotation env_cat {[ "cat" ]} locals_duo (world_of duo) []
              locals_duo (world_of duo) s L2 w2
              (run_nil _ _ _ _) Hi) as (who & Hwho & Hin & _).
  injection Hwho as <-. apply Hin. reflexivity.
Defined.

(** ** The winner *)

(** The loop returns at the end of a stretch. *)
Lemma game_loop_run (env : Env) (WORDS : gset string) (fuel : nat)
    (L : Locals) (w : World) (L' : Locals) (w' : World) :
  game_loop env WORDS fuel L w = Ok (Some L') w' ->
  exists ss, run env WORDS L w ss L' w'.
Proof.
  revert L w; induction fuel as [|fuel IH]; intros L w; cbn [game_loop];
    unfold bind at 1; rewrite loop_cond_run;
    destruct (1 <? _)%nat eqn:Hc; simpl; try done.
  - intros [= <- <-]. exists []. apply run_nil.
  - intros H. apply bind_Ok in H as ([s L1] & w1 & Hi & H).
    destruct (IH _ _ H) as [ss Hr].
    exists (s :: ss). eapply run_cons; [|exact Hi|exact Hr].
    by rewrite loop_cond_run, Hc.
  - intros [= <- <-]. exists []. apply run_nil.
Qed.

(** The winner is the head of the list of those in the game, and the
    announcements only send. *)
Lemma game_over_run (env : Env) (L : Locals) (w : World)
    (r : nat) (w' : World) :
  game_over env L w = Ok r w' ->
  (exists rest,
     List.filter (fun x => in_game (heap w !!! x)) (active_players L)
     = r :: rest) /\
  frame w w'.
Proof.
  unfold game_over. unfold bind at 1, pick.
  destruct (List.filter _ _) as [|r' rest] eqn:Hf; [done|].
  unfold bind, players, deref; cbv beta iota.
  do 3 step_send. intros [= <- <-].
  split; [by exists rest|].
  repeat (eapply frame_trans; [eassumption|]). apply frame_refl.
Qed.

(** X16: when a match announces a winner, the game loop has ended with
    that player as the only one still in the game: every other player of
    the rotation is out of lives, inactive or disconnected.  The winner was
    connected when the match began, and from the end of the loop on the
    server only sends. *)
Theorem X16_sole_survivor
    (env : Env) (WORDS : gset string) (fuel : nat) (w : World)
    (r : nat) (w' : World) :
  play env WORDS fuel w = Ok (Some r) w' ->
  exists L0 w0 L1 w1,
    start_game env w = Ok L0 w0 /\
    game_loop env WORDS fuel L0 w0 = Ok (Some L1) w1 /\
    List.filter (fun x => in_game (heap w1 !!! x)) (active_players L1) = [r] /\
    connected (heap w !!! r) = true /\
    frame w1 w'.
Proof.
  unfold play. intros H.
  apply bind_Ok in H as (L0 & w0 & Hs & H).
  apply bind_Ok in H as ([L1|] & w1 & Hg & H); [|done].
  apply bind_Ok in H as (r' & w2 & Ho & [= -> ->]).
  exists L0, w0, L1, w1. split; [done|]. split; [done|].
  pose proof (game_loop_leaves _ _ _ _ _ _ _ Hg) as Hle.
  destruct (game_over_run _ _ _ _ _ Ho) as [[rest Hf] F].
  rewrite Hf in Hle. destruct rest; [|simpl in Hle; lia].
  split; [done|]. split; [|done].
  destruct (game_loop_run _ _ _ _ _ _ _ Hg) as [ss Hr].
  apply run_roster in Hr as (Hact & _).
  destruct (start_game_frame env w) as (w0' & Hs' & _).
  rewrite Hs' in Hs. injection Hs as <- _.
  assert (Hin : In r (List.filter (fun x => in_game (heap w1 !!! x))
                        (active_players L1))) by (rewrite Hf; by left).
  apply filter_In in Hin as [Hin _]. rewrite Hact in Hin. simpl in Hin.
  by apply filter_In in Hin as [_ Hin].
Qed.

Lemma X16_witness :
  exists w', play env_zero {[ "cat" ]} 6 (world_of duo) = Ok (Some 1%nat) w' /\
             connected (heap (world_of duo) !!! 1%nat) = true.
Proof.
  assert (Hp : exists w',
             play env_zero ({[ "cat" ]} : gset string) 6 (world_of duo)
             = Ok (Some 1%nat) w')
    by (eexists; vm_compute; reflexivity).
  destruct Hp as (w' & Hp). exists w'. split; [exact Hp|].
  destruct (X16_sole_survivor env_zero {[ "cat" ]} 6 (world_of duo) 1 w' Hp)
    as (L0 & w0 & L1 & w1 & _ & _ & _ & Hc & _).
  exact Hc.
Defined.

(** ** A broadcast that meets no failure *)

(** X17: when no [sendall] fails, a broadcast changes no player and sends
    the message once for every occurrence in its list of a player that is
    active and not disconnected, in the order of the list, and to nobody
    else. *)
Theorem X17_broadcast_all_through
    (env : Env) (xs : list nat) (msg : Msg) (w : World) :
  (forall k c, (n_send w <= k)%nat -> env_send env k c = true) ->
  broadcast env xs msg w
  = Ok tt {| heap := heap w; game_started := game_started w;
             trace :=
               (rev (map (fun r => ESend (conn (heap w !!! r)) msg true)
                         (List.filter (fun r => connected (heap w !!! r)) xs))
                ++ trace w)%list;
             n_send :=
               (length (List.filter (fun r => connected (heap w !!! r)) xs)
                + n_send w)%nat;
             n_recv := n_recv w; n_rand := n_rand w |}.
Proof.
  revert w; induction xs as [|r xs IH]; intros w Hs.
  - by destruct w.
  - change (broadcast env (r :: xs) msg)
      with (send_to_player env r msg ;; broadcast env xs msg).
    unfold bind. cbn [List.filter].
    destruct (connected (heap w !!! r)) eqn:Hc.
    + rewrite (send_to_player_sent env r msg w Hc (Hs _ _ (le_n _))).
      rewrite IH by (intros k c Hk; apply Hs; simpl in Hk; lia).
      cbn [heap game_started trace n_send n_recv n_rand map rev length].
      f_equal. f_equal; [by rewrite <- app_assoc|lia].
    + rewrite (send_to_player_skip env r msg w Hc). by apply IH.
Qed.

Lemma X17_witness :
  broadcast env_cat [0%nat; 1%nat] MThanks (world_of duo)
  = Ok tt (mkWorld duo true [ESend 1 MThanks true; ESend 0 MThanks true]
                   2 0 0).
Proof.
  rewrite (X17_broadcast_all_through env_cat [0%nat; 1%nat] MThanks
             (world_of duo)); [reflexivity|].
  intros k c _. reflexivity.
Defined.

(** ** Exceptions that escape *)

Lemma bind_Raise {A B} (m : M A) (k : A -> M B) (w : World)
    (e : Exn) (w2 : World) :
  bind m k w = Raise e w2 <->
  m w = Raise e w2 \/ exists a w1, m w = Ok a w1 /\ k a w1 = Raise e w2.
Proof.
  unfold bind. destruct (m w) as [a w1|c1 w1|e1 w1].
  - split; [by eauto|]. intros [?|(? & ? & [= <- <-] & ?)]; done.
  - split; [done|]. intros [?|(? & ? & ? & ?)]; done.
  - split; [intros [= -> ->]; by left|].
    intros [[= -> ->]|(? & ? & ? & ?)]; done.
Qed.

Lemma never_raises_ret {A} (a : A) : never_raises (ret a).
Proof. by intros w e w'. Qed.

Lemma never_raises_os_exit {A} (c : Z) : never_raises (@os_exit A c).
Proof. by intros w e w'. Qed.

Lemma never_raises_bind {A B} (m : M A) (k : A -> M B) :
  never_raises m -> (forall a, never_raises (k a)) ->
  never_raises (bind m k).
Proof.
  intros Hm Hk w e w' H. apply bind_Raise in H as [H|(a & w1 & _ & H)].
  - by eapply Hm.
  - by eapply Hk.
Qed.

(** A step that always ends normally. *)
Lemma never_raises_step {A} (m : M A) :
  (forall w, exists a w', m w = Ok a w') -> never_raises m.
Proof. intros H w e w' Hr. destruct (H w) as (a & w1 & Hw). congruence. Qed.

Lemma never_raises_elim {A} (m : M A) (w : World) (e : Exn) (w' : World) :
  m w = Raise e w' -> never_raises m -> False.
Proof. intros H Hm. by eapply Hm. Qed.

Create HintDb raises.

Ltac raises_go :=
  repeat first
    [ apply never_raises_ret | apply never_raises_os_exit
    | apply never_raises_step; intros ?; eexists _, _; reflexivity
    | solve [auto with raises]
    | apply never_raises_bind; [|intros ?; cbv beta]
    | match goal with
      | |- never_raises (if ?b then _ else _) => destruct b
      | |- never_raises (match ?x with _ => _ end) => destruct x
      end ].

Section Raises.

Variable env : Env.

Lemma never_raises_send_to_player (r : nat) (m : Msg) :
  never_raises (send_to_player env r m).
Proof. unfold send_to_player, mark_lost. raises_go. Qed.
#[local] Hint Resolve never_raises_send_to_player : raises.

Lemma never_raises_broadcast (xs : list nat) (m : Msg) :
  never_raises (broadcast env xs m).
Proof.
  induction xs as [|r xs IH]; [apply never_raises_ret|].
  change (broadcast env (r :: xs) m)
    with (send_to_player env r m ;; broadcast env xs m).
  raises_go.
Qed.
#[local] Hint Resolve never_raises_broadcast : raises.

Lemma never_raises_close_all (xs : list nat) : never_raises (close_all xs).
Proof. induction xs as [|r xs IH]; simpl; raises_go. Qed.
#[local] Hint Resolve never_raises_close_all : raises.

Lemma never_raises_start_game : never_raises (start_game env).
Proof. unfold start_game. raises_go. Qed.

Lemma never_raises_handle_player (fuel player : nat) :
  never_raises (handle_player env fuel player).
Proof.
  induction fuel as [|fuel IH]; simpl;
    unfold handle_player_pass, handle_player_received, fail_fast; raises_go.
Qed.

(** What follows the choice of the sequence in a turn. *)
Lemma never_raises_turn (WORDS : gset string) (L : Locals) (who : nat)
    (sq : string) :
  never_raises
    (present_turn env L who sq ;;
     let* word := read_response env who in
     check_disconnected env who ;;
     let* vl := process_response env WORDS L who sq word in
     ret (Resolved who sq word (fst vl), advance (snd vl))).
Proof.
  unfold present_turn, read_response, check_disconnected, process_response,
    lose_life, others.
  raises_go.
Qed.

Lemma get_random_sequence_returns (WORDS : gset string) (w : World) :
  (forall x, x ∈ WORDS -> 2 <= Py.len x) ->
  exists sq w', get_random_sequence env WORDS w = Ok sq w'.
Proof.
  intros Hlen. destruct (decide (WORDS = ∅)) as [He|Hne].
  - unfold get_random_sequence. rewrite bool_decide_eq_true_2 by done.
    by eexists _, _.
  - destruct (get_random_sequence_run env WORDS w Hne Hlen)
      as (word & w1 & _ & _ & [[_ H]|[_ (? & ? & ? & ? & _ & _ & _ & _ & _ & H)]]);
      eauto.
Qed.

(** The body of the loop lets no exception escape. *)
Lemma iteration_never_raises (WORDS : gset string) (L : Locals) (w : World)
    (e : Exn) (w' : World) :
  (forall x, x ∈ WORDS -> 2 <= Py.len x) ->
  loop_cond L w = Ok true w ->
  seq_bound L ->
  iteration env WORDS L w <> Raise e w'.
Proof.
  intros Hlen Hc Hb H.
  destruct (someone_ahead L w (turn L) Hc) as (d & r & Hd & _ & _).
  unfold iteration in H.
  apply bind_Raise in H as [H|(who & w0 & Hcur & H)].
  - unfold current_player in H.
    destruct (Nat.eqb_spec (length (active_players L)) 0) as [Hz|Hz]; [lia|].
    destruct (lookup_lt_is_Some_2 (active_players L)
                (turn L mod length (active_players L))) as [x Hx].
    { apply Nat.mod_upper_bound. lia. }
    by rewrite Hx in H.
  - apply current_player_Ok in Hcur as [-> _].
    apply bind_Raise in H as [H|(p & w0 & [= <- <-] & H)]; [done|].
    destruct (_ || _ || _); [done|].
    apply bind_Raise in H as [H|(sq & w1 & _ & H)].
    + unfold choose_sequence in H.
      destruct (last_word_valid L) eqn:Hv.
      * destruct (get_random_sequence_returns WORDS w Hlen) as (? & ? & Hg).
        congruence.
      * destruct (seq L) eqn:Hs; [done|]. by apply Hb.
    + eapply never_raises_elim; [exact H|]. apply never_raises_turn.
Qed.

Lemma iteration_seq_bound (WORDS : gset string) (L : Locals) (w : World)
    (s : Step) (L' : Locals) (w' : World) :
  seq_bound L ->
  iteration env WORDS L w = Ok (s, L') w' ->
  seq_bound L'.
Proof.
  intros Hb Hi. destruct s as [who|who sq word v].
  - apply iteration_skipped in Hi as (_ & -> & _). exact Hb.
  - apply resolved_locals in Hi as (_ & _ & _ & Hs & _).
    intros _. by rewrite Hs.
Qed.

Lemma game_loop_never_raises (WORDS : gset string) (fuel : nat) :
  (forall x, x ∈ WORDS -> 2 <= Py.len x) ->
  forall L w e w',
    seq_bound L -> game_loop env WORDS fuel L w <> Raise e w'.
Proof.
  intros Hlen. induction fuel as [|fuel IH]; intros L w e w' Hb;
    cbn [game_loop]; unfold bind at 1; rewrite loop_cond_run;
    destruct (1 <? _)%nat eqn:Hc; simpl; try done.
  intros H. apply bind_Raise in H as [H|([s L1] & w1 & Hi & H)].
  - revert H. apply iteration_never_raises; [done| |done].
    by rewrite loop_cond_run, Hc.
  - revert H. apply IH. by eapply iteration_seq_bound.
Qed.

Lemma game_over_raises (L : Locals) (w : World) (e : Exn) (w' : World) :
  game_over env L w = Raise e w' ->
  e = IndexError /\ w' = w /\
  List.filter (fun x => in_game (heap w !!! x)) (active_players L) = [].
Proof.
  unfold game_over. unfold bind at 1, pick.
  destruct (List.filter _ _) as [|r rest] eqn:Hf.
  - by intros [= <- <-].
  - intros H. exfalso. eapply never_raises_elim; [exact H|]. raises_go.
Qed.

End Raises.

(** X18: with a bank of words of two letters or more, the only exception
    that can end a match is the [IndexError] of the lookup of the winner,
    raised when the game loop has ended with nobody left in the game.  In
    particular the loop never divides by zero, never indexes outside
    [active_players], never draws from an empty range and never reads
    [seq] before it is assigned. *)
Theorem X18_only_the_winner_lookup_raises
    (env : Env) (WORDS : gset string) (fuel : nat) (w : World) :
  (forall x, x ∈ WORDS -> 2 <= Py.len x) ->
  match play env WORDS fuel w with
  | Raise e w' =>
      e = IndexError /\
      exists L0 w0 L1,
        start_game env w = Ok L0 w0 /\
        game_loop env WORDS fuel L0 w0 = Ok (Some L1) w' /\
        List.filter (fun x => in_game (heap w' !!! x)) (active_players L1)
        = []
  | _ => True
  end.
Proof.
  intros Hlen.
  destruct (play env WORDS fuel w) as [a w'|c w'|e w'] eqn:Hp; [done..|].
  unfold play in Hp.
  apply bind_Raise in Hp as [Hp|(L0 & w0 & Hs & Hp)].
  { exfalso. eapply never_raises_elim; [exact Hp|].
    apply never_raises_start_game. }
  apply bind_Raise in Hp as [Hp|([L1|] & w1 & Hg & Hp)]; [| |done].
  { exfalso. revert Hp. apply game_loop_never_raises; [done|].
    destruct (start_game_frame env w) as (w0' & Hs' & _).
    rewrite Hs' in Hs. injection Hs as <- _. by intros [=]. }
  apply bind_Raise in Hp as [Hp|(? & ? & _ & Hp)]; [|done].
  apply game_over_raises in Hp as (-> & -> & Hf).
  split; [done|]. by exists L0, w0, L1.
Qed.

Lemma X18_witness :
  match play env_last_turn {[ "cat" ]} 11 (world_of quartet) with
  | Raise e w' =>
      e = IndexError /\
      exists L0 w0 L1,
        start_game env_last_turn (world_of quartet) = Ok L0 w0 /\
        game_loop env_last_turn {[ "cat" ]} 11 L0 w0 = Ok (Some L1) w' /\
        List.filter (fun x => in_game (heap w' !!! x)) (active_players L1)
        = []
  | _ => True
  end.
Proof.
  apply (X18_only_the_winner_lookup_raises env_last_turn {[ "cat" ]} 11
           (world_of quartet)).
  intros x Hx. apply elem_of_singleton in Hx as ->. by vm_compute.
Defined.

(** ** Nothing is sent to a player that is gone *)

Section Ensures.

Variable I : World -> Prop.

Lemma ensures_ret {A} (a : A) (Q : A -> Prop) : Q a -> ensures I (ret a) Q.
Proof. intros Ha w Hw. split; [done|]. by intros a' w' [= <- _]. Qed.

Lemma ensures_os_exit {A} (c : Z) (Q : A -> Prop) :
  ensures I (@os_exit A c) Q.
Proof. intros w Hw. split; done. Qed.

Lemma ensures_raise {A} (e : Exn) (Q : A -> Prop) : ensures I (@raise A e) Q.
Proof. intros w Hw. split; done. Qed.

Lemma ensures_bind {A B} (m : M A) (k : A -> M B)
    (Q : A -> Prop) (R : B -> Prop) :
  ensures I m Q -> (forall a, Q a -> ensures I (k a) R) ->
  ensures I (bind m k) R.
Proof.
  intros Hm Hk w Hw. unfold bind. destruct (Hm w Hw) as [Hi Hq].
  destruct (m w) as [a w1|c w1|e w1]; simpl in *; [|done..].
  by apply (Hk a (Hq a w1 eq_refl)).
Qed.

Lemma ensures_keeps {A} (m : M A) :
  keeps I m -> ensures I m (fun _ => True).
Proof. intros Hm w Hw. split; [by apply Hm|done]. Qed.

Lemma keeps_ensures {A} (m : M A) (Q : A -> Prop) :
  ensures I m Q -> keeps I m.
Proof. intros Hm w Hw. by apply Hm. Qed.

(** A step that only looks at the world. *)
Lemma ensures_query {A} (m : M A) (Q : A -> Prop) :
  (forall w, I w -> exists a, m w = Ok a w /\ Q a) -> ensures I m Q.
Proof.
  intros H w Hw. destruct (H w Hw) as (a & Hm & Ha). rewrite Hm.
  split; [done|]. by intros a' w' [= <- _].
Qed.

End Ensures.

Create HintDb quiet.

Ltac ensures_go :=
  repeat first
    [ apply ensures_os_exit | apply ensures_raise
    | solve [eauto with quiet]
    | eapply ensures_bind; [solve [eauto with quiet]|intros ? ?; cbv beta]
    | match goal with
      | |- ensures _ (if ?b then _ else _) _ => destruct b
      | |- ensures _ (match ?x with _ => _ end) _ => destruct x
      end ].

Section Quiet.

Variable env : Env.
Variables c n : nat.
Variable tr0 : list Event.

Lemma quiet_trace (w : World) (b : bool) (e : Event)
    (s r d : nat) :
  quiet c n tr0 w ->
  (forall m ok, e <> ESend c m ok) ->
  quiet c n tr0 (mkWorld (heap w) b (e :: trace w) s r d).
Proof.
  intros (Hl & Hq & evs & Ht & He) Hne.
  split; [done|]. split; [done|].
  exists (e :: evs). split; [simpl; by rewrite Ht|].
  intros m ok [Heq|Hin]%elem_of_cons; [by eapply Hne|by eapply He].
Qed.

Lemma quiet_counters (w : World) (b : bool) (s r d : nat) :
  quiet c n tr0 w ->
  quiet c n tr0 (mkWorld (heap w) b (trace w) s r d).
Proof. intros (Hl & Hq & He). by repeat split. Qed.

(** An assignment that touches neither the socket of a player nor makes
    it active and connected again. *)
Lemma quiet_update (r : nat) (f : Player -> Player) :
  (forall p, conn (f p) = conn p /\
             (connected p = false -> connected (f p) = false)) ->
  keeps (quiet c n tr0) (update r f).
Proof.
  intros Hf w (Hl & Hq & He). unfold quiet, update; simpl.
  split; [by rewrite length_alter|]. split; [|done].
  intros i p Hp Hc.
  destruct (decide (r = i)) as [->|Hne].
  - rewrite list_lookup_alter_eq in Hp.
    destruct (heap w !! i) as [q|] eqn:Hq0; [|done].
    injection Hp as <-. destruct (Hf q) as [Hcq Hcon].
    apply Hcon, (Hq i q Hq0). congruence.
  - rewrite list_lookup_alter_ne in Hp by done. by eapply Hq.
Qed.

Lemma quiet_disconnect (r : nat) :
  keeps (quiet c n tr0) (update r (set_disconnected true)).
Proof.
  apply quiet_update. intros p. split; [done|].
  unfold connected; simpl. by rewrite andb_false_r.
Qed.

Lemma quiet_deactivate (r : nat) :
  keeps (quiet c n tr0) (update r (set_active false)).
Proof. apply quiet_update. intros p. by split. Qed.

Lemma quiet_lose_life (r : nat) : keeps (quiet c n tr0) (lose_life r).
Proof.
  intros w Hw. unfold lose_life, bind, deref.
  by apply (quiet_update r (set_lives (lives (heap w !!! r) - 1))).
Qed.

Lemma quiet_recv (s : nat) : keeps (quiet c n tr0) (recv env s).
Proof. intros w Hw. unfold recv; simpl. by apply quiet_counters. Qed.

Lemma quiet_draw : keeps (quiet c n tr0) (draw env).
Proof. intros w Hw. unfold draw; simpl. by apply quiet_counters. Qed.

Lemma quiet_close (s : nat) : keeps (quiet c n tr0) (close s).
Proof. intros w Hw. unfold close; simpl. by apply quiet_trace. Qed.

Lemma quiet_set_started : keeps (quiet c n tr0) set_started.
Proof. intros w Hw. exact Hw. Qed.

Lemma quiet_mark_lost (r : nat) : keeps (quiet c n tr0) (mark_lost r).
Proof.
  unfold mark_lost. apply keeps_bind; [apply quiet_disconnect|].
  intros _. apply quiet_deactivate.
Qed.

(** The guard of the senders: a player in the roster that passes it is
    not on the quiet socket. *)
Lemma quiet_send_to_player (r : nat) (m : Msg) :
  (r < n)%nat -> keeps (quiet c n tr0) (send_to_player env r m).
Proof.
  intros Hr w Hw. pose proof Hw as (Hl & Hq & _).
  destruct (lookup_lt_is_Some_2 (heap w) r ltac:(lia)) as [p Hp].
  pose proof (lookup_total_some _ _ _ Hp) as Hpt.
  destruct (connected p) eqn:Hc.
  - assert (Hne : conn p <> c).
    { intros Heq. specialize (Hq r p Hp Heq). congruence. }
    unfold send_to_player, bind, deref. rewrite Hpt.
    fold (connected p). rewrite Hc. unfold sendall.
    assert (Hw1 : forall ok,
               quiet c n tr0
                 (mkWorld (heap w) (game_started w)
                          (ESend (conn p) m ok :: trace w)
                          (S (n_send w)) (n_recv w) (n_rand w))).
    { intros ok. apply quiet_trace; [done|]. intros m' ok' [= ? _ _]. done. }
    destruct (env_send env (n_send w) (conn p)).
    + apply Hw1.
    + apply (quiet_mark_lost r _ (Hw1 false)).
  - rewrite send_to_player_skip; [done|]. by rewrite Hpt.
Qed.

Lemma quiet_broadcast (xs : list nat) (m : Msg) :
  refs_below n xs -> keeps (quiet c n tr0) (broadcast env xs m).
Proof.
  induction 1 as [|r xs Hr Hxs IH]; [apply keeps_ret|].
  change (broadcast env (r :: xs) m)
    with (send_to_player env r m ;; broadcast env xs m).
  apply keeps_bind; [by apply quiet_send_to_player|by intros _].
Qed.

Lemma quiet_close_all (xs : list nat) : keeps (quiet c n tr0) (close_all xs).
Proof.
  induction xs as [|r xs IH]; [apply keeps_ret|]. simpl.
  apply keeps_bind; [|by intros _].
  apply keeps_bind; [keeps_reader|intros p; apply quiet_close].
Qed.

(** The lists of references the server computes. *)
Lemma ensures_players : ensures (quiet c n tr0) players (refs_below n).
Proof.
  apply ensures_query. intros w (Hl & _). eexists. split; [reflexivity|].
  apply Forall_forall. intros r Hr%list_elem_of_In%in_seq. lia.
Qed.

Lemma ensures_pick (f : nat -> Player -> bool) (xs : list nat) :
  refs_below n xs -> ensures (quiet c n tr0) (pick f xs) (refs_below n).
Proof.
  intros Hxs. apply ensures_query. intros w _. eexists.
  split; [reflexivity|]. unfold refs_below in *.
  rewrite Forall_forall in Hxs |- *.
  intros r Hr%list_elem_of_In%filter_In. apply Hxs, list_elem_of_In, Hr.
Qed.

Lemma ensures_current_player (L : Locals) :
  refs_below n (active_players L) ->
  ensures (quiet c n tr0) (current_player L) (fun r => (r < n)%nat).
Proof.
  intros Hxs w Hw. unfold current_player.
  destruct (_ =? _)%nat; [done|].
  destruct (active_players L !! _) as [r|] eqn:Hr; [|done].
  split; [done|]. intros a w' [= <- _].
  unfold refs_below in Hxs. rewrite Forall_forall in Hxs.
  eapply Hxs, list_elem_of_lookup_2, Hr.
Qed.

Lemma ensures_look {A} (m : M A) :
  (forall w, exists a, m w = Ok a w) ->
  ensures (quiet c n tr0) m (fun _ => True).
Proof. intros H. apply ensures_keeps. by apply keeps_reader. Qed.

#[local] Hint Resolve ensures_players ensures_pick ensures_current_player
  : quiet.
#[local] Hint Resolve ensures_keeps | 5 : quiet.
#[local] Hint Resolve quiet_recv quiet_draw quiet_close quiet_set_started
  quiet_disconnect quiet_deactivate quiet_lose_life quiet_send_to_player
  quiet_broadcast quiet_close_all keeps_ret : quiet.
#[local] Hint Extern 6 (ensures _ _ _) =>
  (apply ensures_look; intros ?; eexists; reflexivity) : quiet.
#[local] Hint Extern 1 (ensures _ (ret _) _) =>
  (apply ensures_ret) : quiet.

Lemma quiet_fail_fast {A} (r : nat) :
  ensures (quiet c n tr0) (@fail_fast env A r) (fun _ => True).
Proof. unfold fail_fast. ensures_go. Qed.
#[local] Hint Resolve quiet_fail_fast : quiet.

Lemma quiet_handle_player_received (player : nat) (r : RecvResult) :
  ensures (quiet c n tr0) (handle_player_received env player r)
          (fun _ => True).
Proof. unfold handle_player_received. ensures_go. Qed.
#[local] Hint Resolve quiet_handle_player_received : quiet.

Lemma quiet_handle_player_pass (player : nat) :
  ensures (quiet c n tr0) (handle_player_pass env player) (fun _ => True).
Proof. unfold handle_player_pass. ensures_go. Qed.
#[local] Hint Resolve quiet_handle_player_pass : quiet.

Lemma quiet_handle_player (fuel player : nat) :
  ensures (quiet c n tr0) (handle_player env fuel player) (fun _ => True).
Proof. induction fuel as [|fuel IH]; simpl; ensures_go. Qed.

Lemma quiet_start_game :
  ensures (quiet c n tr0) (start_game env)
          (fun L => refs_below n (active_players L)).
Proof. unfold start_game. ensures_go. Qed.
#[local] Hint Resolve quiet_start_game : quiet.

Lemma quiet_process_response (WORDS : gset string) (L : Locals)
    (player : nat) (sq word : string) :
  refs_below n (active_players L) -> (player < n)%nat ->
  ensures (quiet c n tr0) (process_response env WORDS L player sq word)
          (fun vl => active_players (snd vl) = active_players L).
Proof. intros HL Hp. unfold process_response, others. ensures_go. Qed.
#[local] Hint Resolve quiet_process_response : quiet.

Lemma quiet_random_choice (xs : list string) :
  ensures (quiet c n tr0) (random_choice env xs) (fun _ => True).
Proof. unfold random_choice. ensures_go. Qed.
#[local] Hint Resolve quiet_random_choice : quiet.

Lemma quiet_randint (a b : Z) :
  ensures (quiet c n tr0) (randint env a b) (fun _ => True).
Proof. unfold randint. ensures_go. Qed.
#[local] Hint Resolve quiet_randint : quiet.

Lemma quiet_get_random_sequence (WORDS : gset string) :
  ensures (quiet c n tr0) (get_random_sequence env WORDS) (fun _ => True).
Proof. unfold get_random_sequence. ensures_go. Qed.
#[local] Hint Resolve quiet_get_random_sequence : quiet.

Lemma quiet_choose_sequence (WORDS : gset string) (L : Locals) :
  ensures (quiet c n tr0) (choose_sequence env WORDS L) (fun _ => True).
Proof. unfold choose_sequence. ensures_go. Qed.
#[local] Hint Resolve quiet_choose_sequence : quiet.

Lemma quiet_present_turn (L : Locals) (player : nat) (sq : string) :
  refs_below n (active_players L) -> (player < n)%nat ->
  ensures (quiet c n tr0) (present_turn env L player sq) (fun _ => True).
Proof. intros HL Hp. unfold present_turn, others. ensures_go. Qed.
#[local] Hint Resolve quiet_present_turn : quiet.

Lemma quiet_read_response (player : nat) :
  ensures (quiet c n tr0) (read_response env player) (fun _ => True).
Proof. unfold read_response. ensures_go. Qed.
#[local] Hint Resolve quiet_read_response : quiet.

Lemma quiet_check_disconnected (player : nat) :
  ensures (quiet c n tr0) (check_disconnected env player) (fun _ => True).
Proof. unfold check_disconnected. ensures_go. Qed.
#[local] Hint Resolve quiet_check_disconnected : quiet.

Lemma quiet_iteration (WORDS : gset string) (L : Locals) :
  refs_below n (active_players L) ->
  ensures (quiet c n tr0) (iteration env WORDS L)
          (fun sl => refs_below n (active_players (snd sl))).
Proof.
  intros HL. unfold iteration.
  eapply ensures_bind; [by apply ensures_current_player|intros who Hwho].
  eapply ensures_bind; [solve [eauto with quiet]|intros p _].
  destruct (_ || _ || _); [by apply ensures_ret|].
  eapply ensures_bind; [solve [eauto with quiet]|intros sq _].
  eapply ensures_bind; [solve [eauto with quiet]|intros _ _].
  eapply ensures_bind; [solve [eauto with quiet]|intros word _].
  eapply ensures_bind; [solve [eauto with quiet]|intros _ _].
  eapply ensures_bind;
    [by apply (quiet_process_response WORDS (with_seq sq L))|intros vl Hvl].
  apply ensures_ret. simpl.
  destruct (advance_fields (snd vl)) as [-> _]. by rewrite Hvl.
Qed.
#[local] Hint Resolve quiet_iteration : quiet.

Lemma quiet_game_loop (WORDS : gset string) (fuel : nat) (L : Locals) :
  refs_below n (active_players L) ->
  ensures (quiet c n tr0) (game_loop env WORDS fuel L)
          (fun r => forall L', r = Some L' ->
                               refs_below n (active_players L')).
Proof.
  revert L; induction fuel as [|fuel IH]; intros L HL; simpl;
    unfold loop_cond; ensures_go.
  all: apply ensures_ret; by intros L' [= <-].
Qed.
#[local] Hint Resolve quiet_game_loop : quiet.

Lemma quiet_game_over (L : Locals) :
  refs_below n (active_players L) ->
  ensures (quiet c n tr0) (game_over env L) (fun _ => True).
Proof. intros HL. unfold game_over. ensures_go. Qed.
#[local] Hint Resolve quiet_game_over : quiet.

Lemma quiet_play (WORDS : gset string) (fuel : nat) :
  ensures (quiet c n tr0) (play env WORDS fuel) (fun _ => True).
Proof. unfold play. ensures_go. Qed.

End Quiet.

(** X19: once every player on a socket is inactive or disconnected,
    nothing is sent on that socket any more, whatever the match or a lobby
    listener goes on to do and however it ends: each [sendall] sits behind
    the test [p.active and not p.disconnected], and no flag is ever set
    back. *)
Theorem X19_nothing_sent_to_the_gone (env : Env) (c : nat) (w : World) :
  (forall i p, heap w !! i = Some p -> conn p = c -> connected p = false) ->
  (forall WORDS fuel,
     exists evs,
       trace (final_world (play env WORDS fuel w)) = (evs ++ trace w)%list /\
       forall m ok, ESend c m ok ∉ evs) /\
  (forall fuel player,
     exists evs,
       trace (final_world (handle_player env fuel player w))
       = (evs ++ trace w)%list /\
       forall m ok, ESend c m ok ∉ evs).
Proof.
  intros Hq.
  assert (Hw : quiet c (length (heap w)) (trace w) w).
  { split; [done|]. split; [done|]. exists []. split; [done|].
    intros m ok Hin. by apply not_elem_of_nil in Hin. }
  split.
  - intros WORDS fuel.
    by destruct (quiet_play env c _ _ WORDS fuel w Hw) as [(_ & _ & He) _].
  - intros fuel player.
    by destruct (quiet_handle_player env c _ _ fuel player w Hw)
      as [(_ & _ & He) _].
Qed.

Lemma X19_witness :
  exists evs,
    trace (final_world (play env_cat {[ "cat" ]} 3 (world_of trio_one_gone)))
    = (evs ++ [])%list /\
    forall m ok, ESend 2 m ok ∉ evs.
Proof.
  apply (proj1 (X19_nothing_sent_to_the_gone env_cat 2
                  (world_of trio_one_gone)
                  ltac:(intros [|[|[|i]]] p Hp Hc; simpl in Hp;
                        [injection Hp as <-; discriminate..
                        |injection Hp as <-; reflexivity
                        |discriminate]))).
Defined.
